(** * The x axis of the vislib charts (components/vislib/lib/x_axis.js)

    A shallow embedding of the [XAxis] class: scale construction, the
    per-panel drawing loop, label rotation and truncation on ordinal axes,
    label filtering on ordered axes, and the title / spacer synchronisation
    that follows.

    Conventions.
    - JavaScript numbers that come out of DOM measurements (widths, heights,
      bounding boxes) are finite and are modelled as rationals [Q]; in the
      prototype the arithmetic on them is exact.  The non-finite values the
      code can meet ([NaN] out of a scale, [-Infinity] out of [_.max] on an
      empty array) are kept apart in [jsnum].
    - Where a decision depends on how a quotient or a sum is rounded (the
      ticks [filterAxisLabels] keeps, the characters [truncateLabel]
      leaves), the function is given a second time over an arbitrary number
      format, [Numeric], and run in IEEE 754 binary64, [Double]: the
      primitive floats of the kernel, with the order and the sum as the
      standard library specifies them.
    - d3, jQuery and the DOM are outside the file: what the code asks of them
      (applying a scale, the band width, the generated ticks, a bounding
      box) is a parameter of the development.
    - An exception aborts the running loop and leaves every mutation made so
      far in place; functions that can throw return the state together with
      an optional [error]. *)

From Stdlib Require Import List String Ascii ZArith QArith Qround Bool Lia Lqa Sorted.
From Stdlib Require PrimFloat FloatOps SpecFloat FloatAxioms Uint63.
From Equations Require Import Equations.
Import ListNotations.

Set Implicit Arguments.
Open Scope Q_scope.

(** ** JavaScript values met by the code *)

Inductive jsnum : Type :=
| NaN
| NegInf
| Num (q : Q).

(** [a + q] for a finite [q]. *)
Definition jadd (a : jsnum) (q : Q) : jsnum :=
  match a with
  | NaN => NaN
  | NegInf => NegInf
  | Num x => Num (x + q)
  end.

Definition Qltb (x y : Q) : bool := negb (Qle_bool y x).

(** [a < b]; every comparison with [NaN] is false. *)
Definition jlt (a b : jsnum) : bool :=
  match a, b with
  | NaN, _ | _, NaN => false
  | NegInf, NegInf => false
  | NegInf, Num _ => true
  | Num _, NegInf => false
  | Num x, Num y => Qltb x y
  end.

(** [a > b] *)
Definition jgt (a b : jsnum) : bool := jlt b a.

(** [_.max(lengths)]: starts from [-Infinity] and keeps a value when it is
    greater than the running result. *)
Definition lodash_max (lengths : list Q) : jsnum :=
  fold_left (fun result value => if jgt (Num value) result then Num value else result)
            lengths NegInf.

(** ** Strings *)

(** [str[i]]; an index outside the string reads [undefined]. *)
Definition charAt (str : string) (i : Z) : option ascii :=
  if (i <? 0)%Z then None else String.get (Z.to_nat i) str.

(** [c === ' ' || c === '-' || c === ','] *)
Definition isTrimChar (c : option ascii) : bool :=
  match c with
  | Some c => (Ascii.eqb c " " || Ascii.eqb c "-" || Ascii.eqb c ",")%bool
  | None => false
  end.

Definition inspect {A : Type} (a : A) : {b : A | a = b} := exist _ a eq_refl.

(** The loop of [truncateLabel]:
    [while (str[endChar - 1] === ' ' || str[endChar - 1] === '-' ||
            str[endChar - 1] === ',') endChar = endChar - 1;] *)
Equations? trimEnd (str : string) (endChar : Z) : Z by wf (Z.to_nat endChar) lt :=
trimEnd str endChar with inspect (isTrimChar (charAt str (endChar - 1))) => {
  | exist _ true _ := trimEnd str (endChar - 1);
  | exist _ false _ := endChar }.
Proof.
  unfold charAt in e.
  destruct (endChar - 1 <? 0)%Z eqn:E; [discriminate | lia].
Qed.

(** [str.substr(0, n)]: a negative length gives the empty string, a length
    past the end gives the whole string. *)
Definition substr0 (str : string) (n : Z) : string :=
  String.substring 0 (Z.to_nat n) str.

(** ** Data model *)

(** The [ordered] argument, "Object|*".  [Falsy] stands for [null], [false],
    [0] and the empty string; a truthy primitive has no [date] property and
    behaves as an object whose [date] is false. *)
Record OrderedObj (D : Type) : Type := {
  date : bool;
  min : option D;
  max : option D
}.

Inductive Ordered (D : Type) : Type :=
| Undefined
| Falsy
| Obj (o : OrderedObj D).
Arguments Undefined {D}.
Arguments Falsy {D}.

(** A d3 scale, as far as this file configures it. *)
Inductive ScaleKind : Type := TimeUtc | Ordinal.

Inductive Range : Type :=
| NoRange
| LinearRange (lo hi : Q)
| RangeBands (lo hi padding : Q).

Record Scale (D : Type) : Type := {
  kind : ScaleKind;
  domain : list (option D);
  range : Range
}.

(** What [this.xScale] can hold. *)
Inductive jsval (D : Type) : Type :=
| VUndefined
| VNumber (n : jsnum)
| VScale (s : Scale D).
Arguments VUndefined {D}.
Arguments VNumber {D} n.

Inductive Orient : Type := Bottom.

(** The generator built by [d3.svg.axis()]. *)
Record Axis (D : Type) : Type := {
  axis_scale : jsval D;
  axis_ticks : Z;
  axis_tickFormat : D -> string;
  axis_orient : Orient
}.

(** [this._attr]: the two entries this file writes and the rest of the bag. *)
Record Attr : Type := {
  isRotated : bool;
  xAxisLabelHt : option jsnum;
  otherAttrs : list (string * string)
}.

Record XAxis (D : Type) : Type := {
  xValues : list D;
  ordered : Ordered D;
  xAxisFormatter : D -> string;
  _attr : Attr;
  xScale : jsval D;
  xAxis : option (Axis D)
}.

(** A [g.tick] group with its [text] child. *)
Record Tick (D : Type) : Type := {
  datum : D;
  text : string;
  text_anchor : string;
  dx : string;
  dy : string;
  transform : string
}.

Record Svg (D : Type) : Type := {
  svg_width : Q;
  svg_height : jsnum;
  svg_ticks : list (Tick D)
}.

(** One [.x-axis-div]: its measured box and the [svg] children, in document
    order. *)
Record Panel (D : Type) : Type := {
  div_width : Q;
  div_height : Q;
  svgs : list (Svg D)
}.

Inductive Transform : Type :=
| Translate (x y : Q)
| TranslateRotate (x y : Q) (deg : Z).

(** The [svg] of a title and its [text]. *)
Record Title : Type := {
  title_size : option Q;
  title_transform : option Transform
}.

(** One [.vis-wrapper]. *)
Record VisWrapper : Type := {
  in_el : bool;
  x_axis_title_width : Q;
  y_axis_title_height : Q;
  x_axis_title : Title;
  y_axis_title : Title;
  x_axis_chart_title : option (list (Q * Title));
  y_axis_chart_title : option (list (Q * Title));
  y_axis_spacer_block : bool;
  inner_spacer_block : option (option string);
  x_axis_wrapper_height : string
}.

Record Dom (D : Type) : Type := {
  x_axis_div_wrapper_width : Q;
  panels : list (Panel D);
  vis_wrappers : list VisWrapper
}.

Inductive error : Type :=
| ContainerTooSmall
| InvalidScale
| TypeError.

(** ** Collaborators *)

(** What the file asks of d3, of the DOM and of the error-handler mixin.
    [validateWidthandHeight] comes from [components/vislib/lib/_error_handler];
    it is [true] when the call returns and [false] when it throws. *)
Class Env (D : Type) : Type := {
  (** [scale(d)] *)
  d3_apply : Scale D -> D -> jsnum;
  (** [x + "" === y + ""]: the two values have the same string form, which
      is how an ordinal scale tells the values of its domain apart *)
  d3_same_key : D -> D -> bool;
  (** [scale.rangeBand()] of an ordinal scale *)
  d3_rangeBand : Scale D -> Q;
  (** the tick values an axis generator draws for a scale *)
  d3_axis_ticks : Scale D -> list D;
  (** [getBBox().width] of a [text] node with the given content *)
  textWidth : string -> Q;
  (** [getBBox().width] of a [g.tick] group *)
  tickWidth : Tick D -> Q;
  validateWidthandHeight : Q -> Q -> bool
}.

(** ** The XAxis prototype *)

Section Prototype.

Context {D : Type} {E : Env D}.

Definition set_attr (self : XAxis D) (a : Attr) : XAxis D :=
  {| xValues := xValues self; ordered := ordered self;
     xAxisFormatter := xAxisFormatter self; _attr := a;
     xScale := xScale self; xAxis := xAxis self |}.

Definition set_xScale (self : XAxis D) (v : jsval D) : XAxis D :=
  {| xValues := xValues self; ordered := ordered self;
     xAxisFormatter := xAxisFormatter self; _attr := _attr self;
     xScale := v; xAxis := xAxis self |}.

Definition set_xAxis (self : XAxis D) (a : Axis D) : XAxis D :=
  {| xValues := xValues self; ordered := ordered self;
     xAxisFormatter := xAxisFormatter self; _attr := _attr self;
     xScale := xScale self; xAxis := Some a |}.

Definition set_isRotated (b : bool) (a : Attr) : Attr :=
  {| isRotated := b; xAxisLabelHt := xAxisLabelHt a; otherAttrs := otherAttrs a |}.

Definition set_xAxisLabelHt (h : jsnum) (a : Attr) : Attr :=
  {| isRotated := isRotated a; xAxisLabelHt := Some h; otherAttrs := otherAttrs a |}.

(** Reading [_attr.xAxisLabelHt] as a number; [undefined] compares as [NaN]. *)
Definition labelHt (a : Attr) : jsnum :=
  match xAxisLabelHt a with
  | Some h => h
  | None => NaN
  end.

(** [ordered && ordered.date] *)
Definition isDate (ordered : Ordered D) : bool :=
  match ordered with
  | Obj o => date o
  | _ => false
  end.

Definition d3_time_scale_utc : Scale D :=
  {| kind := TimeUtc; domain := []; range := NoRange |}.

Definition d3_scale_ordinal : Scale D :=
  {| kind := Ordinal; domain := []; range := NoRange |}.

(** The key test on array entries, of which a bound of a date ordering may
    be [undefined]. *)
Definition same_key (a b : option D) : bool :=
  match a, b with
  | Some x, Some y => d3_same_key x y
  | None, None => true
  | _, _ => false
  end.

(** What an ordinal scale keeps of the array given to [domain]: d3 indexes
    the values by their string form and pushes a value only when its key is
    not yet in the index, so of the values with one key the first stays. *)
Fixpoint d3_ordinal_domain (index x : list (option D)) : list (option D) :=
  match x with
  | [] => []
  | xi :: rest =>
      if existsb (same_key xi) index then d3_ordinal_domain index rest
      else xi :: d3_ordinal_domain (xi :: index) rest
  end.

(** [scale.domain(x)]: a time scale takes the array as it is, an ordinal
    scale its first occurrences. *)
Definition scale_domain (scale : Scale D) (x : list (option D)) : Scale D :=
  {| kind := kind scale;
     domain := match kind scale with
               | Ordinal => d3_ordinal_domain [] x
               | TimeUtc => x
               end;
     range := range scale |}.

Definition scale_range (scale : Scale D) (r : Range) : Scale D :=
  {| kind := kind scale; domain := domain scale; range := r |}.

Definition getScale (ordered : Ordered D) : Scale D :=
  if isDate ordered then d3_time_scale_utc else d3_scale_ordinal.

Definition getTimeDomain (scale : Scale D) (ordered : OrderedObj D) : Scale D :=
  scale_domain scale [min ordered; max ordered].

Definition getOrdinalDomain (scale : Scale D) (xValues : list D) : Scale D :=
  scale_domain scale (map Some xValues).

Definition getDomain (self : XAxis D) (scale : Scale D) (ordered : Ordered D)
  : Scale D :=
  match ordered with
  | Obj o =>
      if date o then getTimeDomain scale o
      else getOrdinalDomain scale (xValues self)
  | _ => getOrdinalDomain scale (xValues self)
  end.

Definition getRange (scale : Scale D) (ordered : Ordered D) (width : Q)
  : Scale D :=
  if isDate ordered then scale_range scale (LinearRange 0 width)
  else scale_range scale (RangeBands 0 width (1 # 10)).

Definition getXScale (self : XAxis D) (ordered : Ordered D) (width : Q)
  : Scale D :=
  let scale := getScale ordered in
  let domain := getDomain self scale ordered in
  getRange domain ordered width.

(** [!v] is [negb (truthy v)]; a function object is truthy. *)
Definition truthy (v : jsval D) : bool :=
  match v with
  | VUndefined => false
  | VNumber NaN => false
  | VNumber NegInf => true
  | VNumber (Num q) => negb (Qeq_bool q 0)
  | VScale _ => true
  end.

(** [_.isNaN(v)]: a number that differs from itself. *)
Definition lodash_isNaN (v : jsval D) : bool :=
  match v with
  | VNumber NaN => true
  | _ => false
  end.

Definition getXAxis (self : XAxis D) (width : Q) : XAxis D * option error :=
  let self := set_xScale self (VScale (getXScale self (ordered self) width)) in
  if (negb (truthy (xScale self)) || lodash_isNaN (xScale self))%bool then
    (self, Some InvalidScale)
  else
    (set_xAxis self {| axis_scale := xScale self; axis_ticks := 10%Z;
                       axis_tickFormat := xAxisFormatter self;
                       axis_orient := Bottom |}, None).

(** A tick group as a bottom-oriented axis generator draws it: labelled by
    the tick format, anchored in the middle. *)
Definition newTick (format : D -> string) (d : D) : Tick D :=
  {| datum := d; text := format d; text_anchor := "middle";
     dx := ""; dy := ".71em"; transform := "" |}.

(** [g.call(self.xAxis)]: one tick group per tick value of the scale.
    Calling what is not an axis over a scale is a [TypeError]. *)
Definition callAxis (a : option (Axis D)) : option (list (Tick D)) :=
  match a with
  | Some a =>
      match axis_scale a with
      | VScale sc => Some (map (newTick (axis_tickFormat a)) (d3_axis_ticks sc))
      | _ => None
      end
  | None => None
  end.

Definition appendSvg (p : Panel D) (s : Svg D) : Panel D :=
  {| div_width := div_width p; div_height := div_height p;
     svgs := svgs p ++ [s] |}.

Definition set_svgs (p : Panel D) (ss : list (Svg D)) : Panel D :=
  {| div_width := div_width p; div_height := div_height p; svgs := ss |}.

Definition set_panels (dom : Dom D) (ps : list (Panel D)) : Dom D :=
  {| x_axis_div_wrapper_width := x_axis_div_wrapper_width dom;
     panels := ps; vis_wrappers := vis_wrappers dom |}.

Definition set_vis_wrappers (dom : Dom D) (vs : list VisWrapper) : Dom D :=
  {| x_axis_div_wrapper_width := x_axis_div_wrapper_width dom;
     panels := panels dom; vis_wrappers := vs |}.

(** [selection.each(f)] over the panels: [f] runs on each panel in turn with
    the instance as it then is; an exception stops the iteration, the panels
    already visited keep what was done to them. *)
Fixpoint each (f : XAxis D -> Panel D -> XAxis D * Panel D * option error)
  (self : XAxis D) (ps : list (Panel D))
  : XAxis D * list (Panel D) * option error :=
  match ps with
  | [] => (self, [], None)
  | p :: rest =>
      match f self p with
      | (self', p', Some e) => (self', p' :: rest, Some e)
      | (self', p', None) =>
          let '(self'', rest', r) := each f self' rest in
          (self'', p' :: rest', r)
      end
  end.

(** ** Label truncation *)

Definition ellipsesPad : Q := 4.

(** [truncateLabel(text, size)]; [str] is the text of the node and
    [textWidth str] its bounding-box width.  For [size = -Infinity]
    [endChar] is [-Infinity] or [NaN] and [substr] keeps nothing.  For a
    finite [size] the quotient [size / pxPerChar] is finite unless
    [pxPerChar] is [0] or not a number, which on the truncating branch
    happens only where [endChar] keeps no character, in JavaScript as here. *)
Definition truncateLabel (str : string) (size : jsnum) : string :=
  let width := textWidth str in
  let chars := inject_Z (Z.of_nat (String.length str)) in
  let pxPerChar := width / chars in
  if jgt (Num width) size then
    match size with
    | Num size =>
        let endChar := Qfloor ((size / pxPerChar) - ellipsesPad) in
        let endChar := trimEnd str endChar in
        (substr0 str endChar ++ "...")%string
    | _ => "..."
    end
  else str.

(** ** Rotation of the labels of an ordinal axis *)

Definition maxRotatedLength : Q := 180.
Definition xAxisPadding : Q := 15.

(** [selection.selectAll('.tick text')] inside one panel. *)
Definition allTicks (p : Panel D) : list (Tick D) :=
  flat_map (@svg_ticks D) (svgs p).

Definition rotateTick (size : jsnum) (t : Tick D) : Tick D :=
  {| datum := datum t; text := truncateLabel (text t) size;
     text_anchor := "end"; dx := "-.8em"; dy := "-.60em";
     transform := "rotate(-90)" |}.

Definition mapTicks (f : Tick D -> Tick D) (s : Svg D) : Svg D :=
  {| svg_width := svg_width s; svg_height := svg_height s;
     svg_ticks := map f (svg_ticks s) |}.

Definition set_svg_height (h : jsnum) (s : Svg D) : Svg D :=
  {| svg_width := svg_width s; svg_height := h; svg_ticks := svg_ticks s |}.

(** [selection.select('svg').attr('height', h)]: the first [svg] only. *)
Definition setFirstSvgHeight (h : jsnum) (ss : list (Svg D)) : list (Svg D) :=
  match ss with
  | [] => []
  | s :: rest => set_svg_height h s :: rest
  end.

(** [rotateAxisLabels()] applied to the selection of one panel.  The outer
    function reads [self.xScale.rangeBand()], which only an ordinal scale
    has, and resets [isRotated]; the returned function measures, decides and
    rewrites the labels. *)
Definition rotateAxisLabels (self : XAxis D) (p : Panel D)
  : XAxis D * Panel D * option error :=
  match xScale self with
  | VScale sc =>
      match kind sc with
      | Ordinal =>
          let barWidth := d3_rangeBand sc in
          let a := set_isRotated false (_attr self) in
          let lengths := map (fun t => textWidth (text t)) (allTicks p) in
          let length := lodash_max lengths in
          let a := set_xAxisLabelHt (jadd length xAxisPadding) a in
          let a := if jgt length (Num barWidth) then set_isRotated true a else a in
          let a := if jgt length (Num maxRotatedLength)
                   then set_xAxisLabelHt (Num maxRotatedLength) a else a in
          if isRotated a then
            (set_attr self a,
             set_svgs p (setFirstSvgHeight (labelHt a)
                           (map (mapTicks (rotateTick (labelHt a))) (svgs p))),
             None)
          else (set_attr self a, p, None)
      | TimeUtc => (self, p, Some TypeError)
      end
  | _ => (self, p, Some TypeError)
  end.

(** ** Filtering of the labels of an ordered axis *)

Definition padding : Q := 11 # 10.

Definition set_text (s : string) (t : Tick D) : Tick D :=
  {| datum := datum t; text := s; text_anchor := text_anchor t;
     dx := dx t; dy := dy t; transform := transform t |}.

(** The callback of [.text(function (d) {...})] over the ticks in document
    order; [startX] lives in the closure and is carried from tick to tick.
    A tick that is not kept is removed from the document. *)
Fixpoint filterTicks (self : XAxis D) (sc : Scale D) (maxW : Q)
  (startX : jsnum) (ts : list (Tick D)) : list (Tick D) * jsnum :=
  match ts with
  | [] => ([], startX)
  | t :: rest =>
      let d := datum t in
      let myX := d3_apply sc d in
      let myWidth := tickWidth t * padding in
      let halfWidth := myWidth / 2 in
      if (jlt (jadd startX halfWidth) myX
          && jgt (Num maxW) (jadd myX halfWidth))%bool
      then
        let startX := jadd myX halfWidth in
        let '(kept, startX) := filterTicks self sc maxW startX rest in
        (set_text (xAxisFormatter self d) t :: kept, startX)
      else filterTicks self sc maxW startX rest
  end.

Fixpoint filterSvgs (self : XAxis D) (sc : Scale D) (maxW : Q)
  (startX : jsnum) (ss : list (Svg D)) : list (Svg D) * jsnum :=
  match ss with
  | [] => ([], startX)
  | s :: rest =>
      let '(ts, startX) := filterTicks self sc maxW startX (svg_ticks s) in
      let '(rest', startX) := filterSvgs self sc maxW startX rest in
      ({| svg_width := svg_width s; svg_height := svg_height s;
          svg_ticks := ts |} :: rest', startX)
  end.

(** [filterAxisLabels()] applied to the selection of one panel; [maxW] is
    [$(self.el).find('.x-axis-div').width()].  [self.xScale(d)] is a
    [TypeError] when [xScale] is not a scale, raised at the first tick. *)
Definition filterAxisLabels (maxW : Q) (self : XAxis D) (p : Panel D)
  : XAxis D * Panel D * option error :=
  match xScale self with
  | VScale sc =>
      (self, set_svgs p (fst (filterSvgs self sc maxW (Num 0) (svgs p))), None)
  | _ =>
      match allTicks p with
      | [] => (self, p, None)
      | _ :: _ => (self, p, Some TypeError)
      end
  end.

(** The position [self.xScale(d)] of a tick, its padded half width, and
    the label a kept tick receives. *)
Definition tickX (sc : Scale D) (t : Tick D) : jsnum := d3_apply sc (datum t).

Definition halfWidthOf (t : Tick D) : Q := tickWidth t * padding / 2.

Definition relabel (self : XAxis D) (t : Tick D) : Tick D :=
  set_text (xAxisFormatter self (datum t)) t.

(** The position of a tick whose [tickX] is finite. *)
Definition posQ (sc : Scale D) (t : Tick D) : Q :=
  match tickX sc t with
  | Num x => x
  | _ => 0
  end.

(** The width attributes of the [svg]s of a panel. *)
Definition svgWidths (p : Panel D) : list Q := map (@svg_width D) (svgs p).

(** What is known of a kept tick when the sweep met it with right edge [r]
    and left with right edge [r']. *)
Definition KeptBetween (sc : Scale D) (maxW r r' : Q) (t : Tick D) : Prop :=
  tickX sc t = Num (posQ sc t) /\
  r < posQ sc t - halfWidthOf t /\
  posQ sc t + halfWidthOf t <= r' /\
  posQ sc t + halfWidthOf t < maxW.

Definition Apart (sc : Scale D) (a b : Tick D) : Prop :=
  posQ sc a + halfWidthOf a < posQ sc b - halfWidthOf b /\
  posQ sc a < posQ sc b.

(** The bounding-box widths of the tick labels of a panel. *)
Definition labelWidths (p : Panel D) : list Q :=
  map (fun t => textWidth (text t)) (allTicks p).

(** ** Titles and spacer blocks *)

Definition fitX (w : Q) (t : Title) : Title :=
  {| title_size := Some w; title_transform := Some (Translate (w / 2) 11) |}.

Definition fitY (h : Q) (t : Title) : Title :=
  {| title_size := Some h;
     title_transform := Some (TranslateRotate 11 (h / 2) (-90)) |}.

(** The chart titles of one row all take the measure of the first one. *)
Definition fitChartTitles (fit : Q -> Title -> Title)
  (row : option (list (Q * Title))) : option (list (Q * Title)) :=
  match row with
  | Some ((m, t) :: rest) =>
      Some (map (fun mt => (fst mt, fit m (snd mt))) ((m, t) :: rest))
  | other => other
  end.

Definition fitTitlesIn (v : VisWrapper) : VisWrapper :=
  let titleWidth := x_axis_title_width v in
  let titleHeight := y_axis_title_height v in
  {| in_el := in_el v;
     x_axis_title_width := x_axis_title_width v;
     y_axis_title_height := y_axis_title_height v;
     x_axis_title := fitX titleWidth (x_axis_title v);
     y_axis_title := fitY titleHeight (y_axis_title v);
     x_axis_chart_title := fitChartTitles fitX (x_axis_chart_title v);
     y_axis_chart_title := fitChartTitles fitY (y_axis_chart_title v);
     y_axis_spacer_block := y_axis_spacer_block v;
     inner_spacer_block := inner_spacer_block v;
     x_axis_wrapper_height := x_axis_wrapper_height v |}.

(** [fitTitles()] runs over every [.vis-wrapper] of the document. *)
Definition fitTitles (dom : Dom D) : Dom D :=
  set_vis_wrappers dom (map fitTitlesIn (vis_wrappers dom)).

Definition set_inner_spacer_block (b : option (option string)) (v : VisWrapper)
  : VisWrapper :=
  {| in_el := in_el v;
     x_axis_title_width := x_axis_title_width v;
     y_axis_title_height := y_axis_title_height v;
     x_axis_title := x_axis_title v;
     y_axis_title := y_axis_title v;
     x_axis_chart_title := x_axis_chart_title v;
     y_axis_chart_title := y_axis_chart_title v;
     y_axis_spacer_block := y_axis_spacer_block v;
     inner_spacer_block := b;
     x_axis_wrapper_height := x_axis_wrapper_height v |}.

Definition updateXaxisHeightIn (v : VisWrapper) : VisWrapper :=
  if in_el v then
    let v :=
      match inner_spacer_block v with
      | None =>
          if y_axis_spacer_block v then set_inner_spacer_block (Some None) v
          else v
      | Some _ => v
      end in
    let xAxisHt := x_axis_wrapper_height v in
    match inner_spacer_block v with
    | Some _ => set_inner_spacer_block (Some (Some xAxisHt)) v
    | None => v
    end
  else v.

(** [updateXaxisHeight()] runs over the [.vis-wrapper]s under [this.el]. *)
Definition updateXaxisHeight (dom : Dom D) : Dom D :=
  set_vis_wrappers dom (map updateXaxisHeightIn (vis_wrappers dom)).

(** ** Filter or rotate *)

Inductive LabelStrategy : Type := RotateLabels | FilterLabels.

(** [!ordered || ordered === undefined] *)
Definition notOrdered (ordered : Ordered D) : bool :=
  (match ordered with Obj _ => false | _ => true end
   || match ordered with Undefined => true | _ => false end)%bool.

Definition labelStrategy (ordered : Ordered D) : LabelStrategy :=
  if notOrdered ordered then RotateLabels else FilterLabels.

(** [$(self.el).find('.x-axis-div').width()]: the width of the first one. *)
Definition axisDivWidth (dom : Dom D) : Q :=
  match panels dom with
  | p :: _ => div_width p
  | [] => 0
  end.

Definition filterOrRotate (self : XAxis D) (dom : Dom D)
  : XAxis D * Dom D * option error :=
  let ordered := ordered self in
  let maxW := axisDivWidth dom in
  let '(self, ps, r) :=
    each (fun self axis =>
            match labelStrategy ordered with
            | RotateLabels => rotateAxisLabels self axis
            | FilterLabels => filterAxisLabels maxW self axis
            end) self (panels dom) in
  let dom := set_panels dom ps in
  match r with
  | Some e => (self, dom, Some e)
  | None => (self, fitTitles (updateXaxisHeight dom), None)
  end.

(** ** Drawing *)

(** The body of [selection.each] in [draw], for one panel out of [n]. *)
Definition drawPanel (n : nat) (parentWidth : Q) (self : XAxis D) (p : Panel D)
  : XAxis D * Panel D * option error :=
  let width := parentWidth / inject_Z (Z.of_nat n) in
  let height := div_height p in
  if validateWidthandHeight width height then
    match getXAxis self width with
    | (self, Some e) => (self, p, Some e)
    | (self, None) =>
        match callAxis (xAxis self) with
        | Some ticks =>
            (self,
             appendSvg p {| svg_width := width; svg_height := Num height;
                            svg_ticks := ticks |},
             None)
        | None =>
            (self,
             appendSvg p {| svg_width := width; svg_height := Num height;
                            svg_ticks := [] |},
             Some TypeError)
        end
    end
  else (self, p, Some ContainerTooSmall).

(** [draw()] applied to the selection of all panels. *)
Definition draw (self : XAxis D) (dom : Dom D)
  : XAxis D * Dom D * option error :=
  let self := set_attr self (set_isRotated false (_attr self)) in
  let n := List.length (panels dom) in
  let parentWidth := x_axis_div_wrapper_width dom in
  let '(self, ps, r) := each (drawPanel n parentWidth) self (panels dom) in
  let dom := set_panels dom ps in
  match r with
  | Some e => (self, dom, Some e)
  | None => filterOrRotate self dom
  end.

(** [d3.select(this.el).selectAll('.x-axis-div').call(this.draw())] *)
Definition render (self : XAxis D) (dom : Dom D)
  : XAxis D * Dom D * option error :=
  draw self dom.

(** [parentWidth / n] in [draw]. *)
Definition panelWidth (dom : Dom D) : Q :=
  x_axis_div_wrapper_width dom / inject_Z (Z.of_nat (List.length (panels dom))).

End Prototype.

(** ** A reference environment

    Integer data, d3 version 3 arithmetic for the two scales, a fixed-pitch
    font of 7 pixels per character, and the validation of the error handler
    read as "both dimensions strictly positive".  It is used to run the
    model on concrete charts. *)

Module Ref.

Fixpoint indexOf (d : Z) (xs : list (option Z)) (i : Z) : option Z :=
  match xs with
  | [] => None
  | Some x :: rest => if (x =? d)%Z then Some i else indexOf d rest (i + 1)
  | None :: rest => indexOf d rest (i + 1)
  end.

Definition bandStep (sc : Scale Z) : Q :=
  match range sc with
  | RangeBands lo hi pad =>
      (hi - lo) / (inject_Z (Z.of_nat (List.length (domain sc))) - pad + 2 * pad)
  | _ => 0
  end.

Definition apply (sc : Scale Z) (d : Z) : jsnum :=
  match kind sc, domain sc, range sc with
  | TimeUtc, [Some a; Some b], LinearRange lo hi =>
      if (a =? b)%Z then Num lo
      else Num (lo + (inject_Z (d - a) / inject_Z (b - a)) * (hi - lo))
  | Ordinal, dom, RangeBands lo hi pad =>
      match indexOf d dom 0 with
      | Some i => Num (lo + bandStep sc * pad + bandStep sc * inject_Z i)
      | None => NaN
      end
  | _, _, _ => NaN
  end.

Definition rangeBand (sc : Scale Z) : Q :=
  match range sc with
  | RangeBands lo hi pad => bandStep sc * (1 - pad)
  | _ => 0
  end.

Fixpoint somes (xs : list (option Z)) : list Z :=
  match xs with
  | [] => []
  | Some x :: rest => x :: somes rest
  | None :: rest => somes rest
  end.

Definition axis_ticks (sc : Scale Z) : list Z :=
  match kind sc, domain sc with
  | Ordinal, dom => somes dom
  | TimeUtc, [Some a; Some b] =>
      map (fun i => (a + Z.of_nat i * ((b - a) / 10))%Z) (seq 0 11)
  | TimeUtc, _ => []
  end.

Definition width_of (s : string) : Q :=
  7 * inject_Z (Z.of_nat (String.length s)).

Definition validate (w h : Q) : bool := (Qltb 0 w && Qltb 0 h)%bool.

#[global] Instance env : Env Z := {|
  d3_apply := apply;
  d3_same_key := Z.eqb;
  d3_rangeBand := rangeBand;
  d3_axis_ticks := axis_ticks;
  textWidth := width_of;
  tickWidth := fun t => width_of (text t);
  validateWidthandHeight := validate
|}.

Definition attr0 : Attr :=
  {| isRotated := false; xAxisLabelHt := None; otherAttrs := [] |}.

Definition months (d : Z) : string :=
  match d with
  | 1%Z => "January"
  | 2%Z => "February"
  | 3%Z => "March"
  | _ => "-"
  end.

(** A categorical axis over three months. *)
Definition categorical : XAxis Z :=
  {| xValues := [1%Z; 2%Z; 3%Z]; ordered := Undefined;
     xAxisFormatter := months; _attr := attr0;
     xScale := VUndefined; xAxis := None |}.

Definition stamp (d : Z) : string :=
  match d with
  | 0%Z => "00:00"
  | 500%Z => "00:30"
  | 1000%Z => "01:00"
  | _ => "00:--"
  end.

(** A date axis from 0 to 1000. *)
Definition temporal : XAxis Z :=
  {| xValues := []; ordered := Obj {| date := true; min := Some 0%Z; max := Some 1000%Z |};
     xAxisFormatter := stamp; _attr := attr0;
     xScale := VUndefined; xAxis := None |}.

(** A date axis whose ordering carries no bounds. *)
Definition unbounded : XAxis Z :=
  {| xValues := []; ordered := Obj {| date := true; min := None; max := None |};
     xAxisFormatter := stamp; _attr := attr0;
     xScale := VUndefined; xAxis := None |}.

(** An ordered axis that is not a date axis (a histogram). *)
Definition histogram : XAxis Z :=
  {| xValues := [1%Z; 2%Z; 3%Z];
     ordered := Obj {| date := false; min := None; max := None |};
     xAxisFormatter := months; _attr := attr0;
     xScale := VUndefined; xAxis := None |}.

Definition title0 : Title := {| title_size := None; title_transform := None |}.

Definition wrapper0 : VisWrapper :=
  {| in_el := true; x_axis_title_width := 120; y_axis_title_height := 80;
     x_axis_title := title0; y_axis_title := title0;
     x_axis_chart_title := None; y_axis_chart_title := None;
     y_axis_spacer_block := true; inner_spacer_block := None;
     x_axis_wrapper_height := "25px" |}.

Definition emptyPanel (w h : Q) : Panel Z :=
  {| div_width := w; div_height := h; svgs := [] |}.

(** One empty panel in a wrapper of the given width. *)
Definition onePanel (w h : Q) : Dom Z :=
  {| x_axis_div_wrapper_width := w; panels := [emptyPanel w h];
     vis_wrappers := [wrapper0] |}.

(** Two empty panels side by side, the second of height [h2]. *)
Definition twoPanels (w h1 h2 : Q) : Dom Z :=
  {| x_axis_div_wrapper_width := w;
     panels := [emptyPanel (w / 2) h1; emptyPanel (w / 2) h2];
     vis_wrappers := [wrapper0] |}.

(** An instance after [getXAxis] at the given width, its scale, and the
    panel [draw] leaves for it from one empty panel of that width. *)
Definition ready (self : XAxis Z) (w : Q) : XAxis Z := fst (getXAxis self w).

Definition scaleOf (self : XAxis Z) (w : Q) : Scale Z :=
  getXScale self (ordered self) w.

Definition drawn (self : XAxis Z) (w : Q) : Panel Z :=
  snd (fst (drawPanel 1 w self (emptyPanel w 25))).

End Ref.

(** ** The label rules in the words of the specification *)

(** "Walk backward trimming any trailing space, hyphen, or comma": from
    [endChar], step down while the character at [endChar - 1] is one of the
    three, and stop at the first position where it is not. *)
Inductive WalkBack (str : string) : Z -> Z -> Prop :=
| walk_stop (endChar : Z) :
    isTrimChar (charAt str (endChar - 1)) = false ->
    WalkBack str endChar endChar
| walk_step (endChar last : Z) :
    isTrimChar (charAt str (endChar - 1)) = true ->
    WalkBack str (endChar - 1) last ->
    WalkBack str endChar last.

(** "Keep the tick iff [rightEdgeOfLastKept < x - halfWidth] and
    [x + halfWidth < panelAxisWidth]; on keep, advance
    [rightEdgeOfLastKept = x + halfWidth]": [Sweep pos half w r ts kept]
    relates the ticks [ts] met with right edge [r] to the ticks kept. *)
Inductive Sweep {T : Type} (pos : T -> jsnum) (half : T -> Q) (axisWidth : Q)
  : Q -> list T -> list T -> Prop :=
| sweep_done (r : Q) : Sweep pos half axisWidth r [] []
| sweep_keep (r x : Q) (t : T) (ts kept : list T) :
    pos t = Num x ->
    r < x - half t ->
    x + half t < axisWidth ->
    Sweep pos half axisWidth (x + half t) ts kept ->
    Sweep pos half axisWidth r (t :: ts) (t :: kept)
| sweep_drop (r : Q) (t : T) (ts kept : list T) :
    (forall x, pos t = Num x -> ~ (r < x - half t /\ x + half t < axisWidth)) ->
    Sweep pos half axisWidth r ts kept ->
    Sweep pos half axisWidth r (t :: ts) kept.

(** [Subseq k l]: [k] is [l] with some elements left out, order kept. *)
Inductive Subseq {T : Type} : list T -> list T -> Prop :=
| subseq_nil : Subseq [] []
| subseq_keep (t : T) (k l : list T) : Subseq k l -> Subseq (t :: k) (t :: l)
| subseq_drop (t : T) (k l : list T) : Subseq k l -> Subseq k (t :: l).

(** ** The label passes in the number format of the engine

    Two decisions of the file hang on the last bit of a quotient or of a
    sum: which ticks [filterAxisLabels] keeps, and how many characters
    [truncateLabel] leaves.  For these the two functions are written once
    more over the numbers of the engine, operation for operation as the
    source has them.  [Arith] is what the code asks of the numbers;
    [Double.arith] is the binary64 format of JavaScript, each operation
    rounded as the processor rounds it, [Exact.arith] is arithmetic without
    rounding, at which the definitions of the prototype above are found
    again. *)

(** [Math.floor(x)] used as an index: an integer, or one of the three
    values of the format that are none. *)
Inductive jsint : Type :=
| IntNaN
| IntNegInf
| IntPosInf
| Int (z : Z).

Class Arith (N : Type) : Type := {
  (** the number a decimal literal or a length denotes *)
  js_num : Q -> N;
  js_add : N -> N -> N;
  js_sub : N -> N -> N;
  js_mul : N -> N -> N;
  js_div : N -> N -> N;
  (** [a < b]; [a > b] is [js_lt b a] *)
  js_lt : N -> N -> bool;
  js_floor : N -> jsint
}.

(** IEEE 754 binary64, through the primitive floats of the kernel. *)
Module Double.

(** An integer below [2^63] in absolute value; it is exact below [2^53]. *)
Definition of_Z (z : Z) : PrimFloat.float :=
  match z with
  | Z0 => PrimFloat.zero
  | Zpos _ => PrimFloat.of_uint63 (Uint63.of_Z z)
  | Zneg p => PrimFloat.opp (PrimFloat.of_uint63 (Uint63.of_Z (Zpos p)))
  end.

(** The double nearest to a rational whose numerator and denominator are
    below [2^53]: the quotient of two exact doubles, rounded once.  This is
    the value of a literal such as [1.1], and of a length. *)
Definition of_Q (q : Q) : PrimFloat.float :=
  PrimFloat.div (of_Z (Qnum q)) (of_Z (Zpos (Qden q))).

(** [Math.floor]: the greatest integer not above a finite double. *)
Definition floor (x : PrimFloat.float) : jsint :=
  match FloatOps.Prim2SF x with
  | SpecFloat.S754_nan => IntNaN
  | SpecFloat.S754_infinity true => IntNegInf
  | SpecFloat.S754_infinity false => IntPosInf
  | SpecFloat.S754_zero _ => Int 0
  | SpecFloat.S754_finite s m e =>
      let sm := if s then Zneg m else Zpos m in
      Int (if (0 <=? e)%Z then sm * 2 ^ e else sm / 2 ^ (- e))%Z
  end.

(** The rational a finite double stands for. *)
Definition to_Q (x : PrimFloat.float) : Q :=
  match FloatOps.Prim2SF x with
  | SpecFloat.S754_finite s m e =>
      inject_Z (if s then Zneg m else Zpos m) * Qpower 2 e
  | _ => 0
  end.

#[global] Instance arith : Arith PrimFloat.float := {|
  js_num := of_Q;
  js_add := PrimFloat.add;
  js_sub := PrimFloat.sub;
  js_mul := PrimFloat.mul;
  js_div := PrimFloat.div;
  js_lt := PrimFloat.ltb;
  js_floor := floor
|}.

End Double.

(** Arithmetic without rounding. *)
Module Exact.

#[global] Instance arith : Arith Q := {|
  js_num := fun q => q;
  js_add := Qplus;
  js_sub := Qminus;
  js_mul := Qmult;
  js_div := Qdiv;
  js_lt := Qltb;
  js_floor := fun q => Int (Qfloor q)
|}.

End Exact.

Module Numeric.

Section Format.

Context {N : Type} {A : Arith N} {D : Type}.

(** [truncateLabel(text, size)] for a text node of content [str] whose
    bounding box is [width] wide.  An [endChar] of [Infinity] reads
    [undefined] at [str[endChar - 1]] and takes the whole string at
    [substr(0, endChar)]; [NaN] and [-Infinity] take none of it. *)
Definition truncateLabel (str : string) (width size : N) : string :=
  let chars := js_num (inject_Z (Z.of_nat (String.length str))) in
  let pxPerChar := js_div width chars in
  let ellipsesPad := js_num 4 in
  if js_lt size width then
    match js_floor (js_sub (js_div size pxPerChar) ellipsesPad) with
    | Int endChar =>
        let endChar := trimEnd str endChar in
        (substr0 str endChar ++ "...")%string
    | IntPosInf => (str ++ "...")%string
    | IntNaN | IntNegInf => "..."%string
    end
  else str.

(** The callback of [filterAxisLabels] over the ticks in document order:
    [xScale] is [self.xScale], [bbox] is [par.getBBox().width] of the group
    of a tick, [maxW] the measured width of the axis. *)
Fixpoint filterTicks (format : D -> string) (xScale : D -> N)
  (bbox : Tick D -> N) (maxW startX : N) (ts : list (Tick D))
  : list (Tick D) * N :=
  match ts with
  | [] => ([], startX)
  | t :: rest =>
      let d := datum t in
      let padding := js_num (11 # 10) in
      let myX := xScale d in
      let myWidth := js_mul (bbox t) padding in
      let halfWidth := js_div myWidth (js_num 2) in
      if (js_lt (js_add startX halfWidth) myX
          && js_lt (js_add myX halfWidth) maxW)%bool
      then
        let startX := js_add myX halfWidth in
        let '(kept, startX) := filterTicks format xScale bbox maxW startX rest in
        (set_text (format d) t :: kept, startX)
      else filterTicks format xScale bbox maxW startX rest
  end.

Fixpoint filterSvgs (format : D -> string) (xScale : D -> N)
  (bbox : Tick D -> N) (maxW startX : N) (ss : list (Svg D))
  : list (Svg D) * N :=
  match ss with
  | [] => ([], startX)
  | s :: rest =>
      let '(ts, startX) := filterTicks format xScale bbox maxW startX (svg_ticks s) in
      let '(rest', startX) := filterSvgs format xScale bbox maxW startX rest in
      ({| svg_width := svg_width s; svg_height := svg_height s;
          svg_ticks := ts |} :: rest', startX)
  end.

(** [filterAxisLabels()] applied to the selection of one panel, for an
    instance whose [xScale] is a scale. *)
Definition filterAxisLabels (format : D -> string) (xScale : D -> N)
  (bbox : Tick D -> N) (maxW : N) (p : Panel D) : Panel D :=
  set_svgs p (fst (filterSvgs format xScale bbox maxW (js_num 0) (svgs p))).

End Format.

End Numeric.

(** The sweep of the collision filter in the words of the specification,
    with the test as the code computes it: "keep the tick iff
    [rightEdgeOfLastKept + halfWidth < x] and [x + halfWidth <
    panelAxisWidth]; on keep, advance [rightEdgeOfLastKept = x +
    halfWidth]", every sum being a number of the format. *)
Inductive SweepIn {N : Type} {A : Arith N} {T : Type} (pos half : T -> N)
  (axisWidth : N) : N -> list T -> list T -> Prop :=
| sweepin_done (r : N) : SweepIn pos half axisWidth r [] []
| sweepin_keep (r : N) (t : T) (ts kept : list T) :
    js_lt (js_add r (half t)) (pos t) = true ->
    js_lt (js_add (pos t) (half t)) axisWidth = true ->
    SweepIn pos half axisWidth (js_add (pos t) (half t)) ts kept ->
    SweepIn pos half axisWidth r (t :: ts) (t :: kept)
| sweepin_drop (r : N) (t : T) (ts kept : list T) :
    js_lt (js_add r (half t)) (pos t) = false \/
    js_lt (js_add (pos t) (half t)) axisWidth = false ->
    SweepIn pos half axisWidth r ts kept ->
    SweepIn pos half axisWidth r (t :: ts) kept.

(** What the order and the sum of a number format give the sweep: adding a
    number that is not negative does not bring a number down, adding one
    number to two others keeps their order, and half of 1.1 times a width
    that is not negative is not negative.  Exact arithmetic has the four
    properties ([Exact_ordered]); so has binary64 ([Double_ordered]), whose
    rounding to nearest is monotone and leaves a double where it is, while
    a [NaN] among the operands leaves no comparison true. *)
Record Ordered_format {N : Type} (A : Arith N) : Prop := {
  add_not_below :
    forall a h c : N,
      js_lt h (js_num 0) = false -> js_lt (js_add a h) c = true ->
      js_lt a c = true;
  below_the_sum :
    forall a b h c : N,
      js_lt a b = true -> js_lt h (js_num 0) = false ->
      js_lt (js_add b h) c = true ->
      js_lt a (js_add b h) = true;
  add_monotone :
    forall a b h c : N,
      js_lt a b = true -> js_lt (js_add b h) c = true ->
      js_lt (js_add a h) c = true;
  half_width_not_negative :
    forall w : N,
      js_lt w (js_num 0) = false ->
      js_lt (js_div (js_mul w (js_num (11 # 10))) (js_num 2)) (js_num 0) = false
}.

(** * Properties *)

Unset Implicit Arguments.

(** ** Numbers *)

Lemma Qltb_lt (x y : Q) : Qltb x y = true <-> x < y.
Proof.
  unfold Qltb. rewrite negb_true_iff.
  destruct (Qle_bool y x) eqn:Hle.
  - apply Qle_bool_iff in Hle. split; [discriminate | intro Hlt].
    exfalso. apply (Qlt_irrefl x). eapply Qlt_le_trans; eauto.
  - split; [intros _ | reflexivity].
    apply Qnot_le_lt. intro Hyx. apply Qle_bool_iff in Hyx. congruence.
Qed.

Lemma Qltb_ge (x y : Q) : Qltb x y = false <-> y <= x.
Proof.
  unfold Qltb. rewrite negb_false_iff. apply Qle_bool_iff.
Qed.

Lemma Qfloor_unique (x : Q) (z : Z) :
  inject_Z z <= x -> x < inject_Z (z + 1) -> Qfloor x = z.
Proof.
  intros Hlo Hhi.
  pose proof (Qfloor_le x) as Hfl.
  pose proof (Qlt_floor x) as Hfu.
  assert (Qfloor x < z + 1)%Z.
  { rewrite Zlt_Qlt. eapply Qle_lt_trans; eauto. }
  assert (z < Qfloor x + 1)%Z.
  { rewrite Zlt_Qlt. eapply Qle_lt_trans; eauto. }
  lia.
Qed.

(** [Math.floor(x - 4)] is [Math.floor(x) - 4]. *)
Lemma Qfloor_minus_pad (x : Q) :
  Qfloor (x - ellipsesPad) = (Qfloor x - 4)%Z.
Proof.
  pose proof (Qfloor_le x) as Hfl.
  pose proof (Qlt_floor x) as Hfu.
  rewrite inject_Z_plus in Hfu.
  apply Qfloor_unique; unfold ellipsesPad.
  - replace (Qfloor x - 4)%Z with (Qfloor x + (-4))%Z by lia.
    rewrite inject_Z_plus.
    change (inject_Z (-4)) with (-4 # 1). change (inject_Z 1) with 1 in Hfu. lra.
  - replace (Qfloor x - 4 + 1)%Z with (Qfloor x + (-3))%Z by lia.
    rewrite inject_Z_plus.
    change (inject_Z (-3)) with (-3 # 1). change (inject_Z 1) with 1 in Hfu. lra.
Qed.

(** ** Strings *)

Lemma trimEnd_walks (str : string) (endChar : Z) :
  WalkBack str endChar (trimEnd str endChar).
Proof.
  funelim (trimEnd str endChar).
  - eapply walk_step; eauto.
  - apply walk_stop. assumption.
Qed.

Lemma WalkBack_le (str : string) (endChar last : Z) :
  WalkBack str endChar last -> (last <= endChar)%Z.
Proof.
  induction 1; lia.
Qed.

Lemma WalkBack_functional (str : string) (endChar l1 l2 : Z) :
  WalkBack str endChar l1 -> WalkBack str endChar l2 -> l1 = l2.
Proof.
  intros H1. revert l2.
  induction H1; intros l2 H2; inversion H2; subst; try congruence; auto.
Qed.

Lemma length_substring0 (n : nat) (s : string) :
  (String.length (String.substring 0 n s) <= n)%nat.
Proof.
  revert s. induction n; intros [|c s]; simpl; try lia.
  specialize (IHn s). lia.
Qed.

Lemma string_length_app (s1 s2 : string) :
  String.length (s1 ++ s2) = (String.length s1 + String.length s2)%nat.
Proof.
  induction s1; simpl; congruence.
Qed.

Section Properties.

Context {D : Type} {E : Env D}.

(** ** Truncation *)

Lemma trimEnd_le (str : string) (endChar : Z) :
  (trimEnd str endChar <= endChar)%Z.
Proof.
  apply (WalkBack_le str). apply trimEnd_walks.
Qed.

Lemma truncateLabel_fits (str : string) (size : Q) :
  textWidth str <= size -> truncateLabel str (Num size) = str.
Proof.
  intro Hfit. unfold truncateLabel, jgt, jlt.
  apply Qltb_ge in Hfit. rewrite Hfit. reflexivity.
Qed.

Lemma truncateLabel_cuts (str : string) (size : Q) :
  size < textWidth str ->
  truncateLabel str (Num size) =
  (substr0 str
     (trimEnd str
        (Qfloor (size / (textWidth str / inject_Z (Z.of_nat (String.length str))))
         - 4)) ++ "...")%string.
Proof.
  intro Hcut. unfold truncateLabel, jgt, jlt.
  apply Qltb_lt in Hcut. rewrite Hcut.
  rewrite Qfloor_minus_pad. reflexivity.
Qed.

Lemma length_truncated (str : string) (endChar : Z) :
  (Z.of_nat (String.length (substr0 str (trimEnd str endChar) ++ "..."))
   <= Z.max endChar 0 + 3)%Z.
Proof.
  rewrite string_length_app. simpl (String.length "...").
  pose proof (length_substring0 (Z.to_nat (trimEnd str endChar)) str) as Hlen.
  pose proof (trimEnd_le str endChar) as Hle.
  unfold substr0. lia.
Qed.

(** C7, as the code has it.  For a label of at least one character whose
    rendered width is not negative, and a budget of at least two estimated
    character widths, the text returned by [truncateLabel] has an estimated
    width (its length times [pxPerChar]) of at most the budget plus one
    character. *)
Theorem truncateLabel_estimated_width (str : string) (size : Q) :
  (1 <= String.length str)%nat ->
  0 <= textWidth str ->
  let pxPerChar := textWidth str / inject_Z (Z.of_nat (String.length str)) in
  2 * pxPerChar <= size ->
  inject_Z (Z.of_nat (String.length (truncateLabel str (Num size)))) * pxPerChar
  <= size + pxPerChar.
Proof.
  intros Hlen Hw pxPerChar Hsize.
  pose proof (truncateLabel_cuts str size) as Hcuts.
  pose proof (truncateLabel_fits str size) as Hfits.
  set (n := inject_Z (Z.of_nat (String.length str))) in *.
  fold pxPerChar in Hcuts.
  assert (Hn : 0 < n).
  { unfold n. change 0 with (inject_Z 0). rewrite <- Zlt_Qlt. lia. }
  assert (Hnw : n * pxPerChar == textWidth str).
  { unfold pxPerChar. apply Qmult_div_r.
    intro Hz. rewrite Hz in Hn. apply (Qlt_irrefl _ Hn). }
  assert (Hppc : 0 <= pxPerChar).
  { unfold pxPerChar. apply Qle_shift_div_l; [assumption |].
    rewrite Qmult_0_l. assumption. }
  assert (En : n = inject_Z (Z.of_nat (String.length str))) by reflexivity.
  clearbody pxPerChar n.
  destruct (Qlt_le_dec size (textWidth str)) as [Hcut | Hfit].
  - rewrite (Hcuts Hcut).
    assert (Hpos : 0 < pxPerChar).
    { destruct (Qlt_le_dec 0 pxPerChar) as [Hlt | Hle]; [assumption |].
      assert (Hz : pxPerChar == 0) by (apply Qle_antisym; assumption).
      rewrite Hz, Qmult_0_r in Hnw. rewrite Hz in Hsize. lra. }
    set (q := size / pxPerChar).
    assert (Hqp : q * pxPerChar == size).
    { unfold q. rewrite Qmult_comm. apply Qmult_div_r.
      intro Hz. rewrite Hz in Hpos. apply (Qlt_irrefl _ Hpos). }
    assert (Hq : 2 <= q) by (apply Qle_shift_div_l; assumption).
    assert (Hfl : (2 <= Qfloor q)%Z).
    { rewrite <- (Qfloor_Z 2). apply Qfloor_resp_le. exact Hq. }
    pose proof (length_truncated str (Qfloor q - 4)) as HL.
    match type of HL with (?len <= _)%Z => set (L := len) in * end.
    assert (HLq : inject_Z L <= q + 1).
    { apply Qle_trans with (inject_Z (Qfloor q + 1)).
      - rewrite <- Zle_Qle. lia.
      - rewrite inject_Z_plus. pose proof (Qfloor_le q).
        change (inject_Z 1) with 1. clearbody q. lra. }
    apply Qle_trans with ((q + 1) * pxPerChar).
    + apply Qmult_le_compat_r; assumption.
    + rewrite Qmult_plus_distr_l, Hqp. clearbody q. lra.
  - rewrite (Hfits Hfit), <- En. lra.
Qed.

(** ** The collision filter *)

Lemma padding_half_nonneg (t : Tick D) :
  0 <= tickWidth t -> 0 <= halfWidthOf t.
Proof.
  intro Hw. unfold halfWidthOf, padding.
  apply Qle_shift_div_l; [reflexivity |].
  rewrite Qmult_0_l. apply Qmult_le_0_compat; [assumption | discriminate].
Qed.

Lemma filterTicks_sweep (self : XAxis D) (sc : Scale D) (maxW : Q) :
  (forall t, 0 <= tickWidth t) ->
  forall (ts : list (Tick D)) (r : Q),
  exists (kept : list (Tick D)) (r' : Q),
    filterTicks self sc maxW (Num r) ts = (map (relabel self) kept, Num r') /\
    Sweep (tickX sc) halfWidthOf maxW r ts kept /\
    r <= r' /\
    Forall (KeptBetween sc maxW r r') kept /\
    StronglySorted (Apart sc) kept.
Proof.
  intros Hwidth ts. induction ts as [| t rest IH]; intro r.
  - exists [], r. simpl. repeat split; try constructor. apply Qle_refl.
  - pose proof (padding_half_nonneg t (Hwidth t)) as Hhalf.
    simpl filterTicks. fold (halfWidthOf t). fold (tickX sc t).
    destruct (tickX sc t) as [| | x] eqn:Hx.
    + (* NaN: both comparisons are false *)
      destruct (IH r) as (kept & r' & Heq & Hsw & Hle & Hk & Hs).
      exists kept, r'. simpl. rewrite Heq. repeat split; auto.
      apply sweep_drop; [| assumption]. intros x Hnum. congruence.
    + destruct (IH r) as (kept & r' & Heq & Hsw & Hle & Hk & Hs).
      exists kept, r'. simpl. rewrite Heq. repeat split; auto.
      apply sweep_drop; [| assumption]. intros x Hnum. congruence.
    + unfold jgt. simpl jadd. simpl jlt.
      destruct (Qltb (r + halfWidthOf t) x) eqn:Hleft;
        [destruct (Qltb (x + halfWidthOf t) maxW) eqn:Hright |]; simpl andb.
      * apply Qltb_lt in Hleft, Hright.
        destruct (IH (x + halfWidthOf t)) as (kept & r' & Heq & Hsw & Hle & Hk & Hs).
        exists (t :: kept), r'. rewrite Heq. simpl map.
        assert (Hpos : posQ sc t = x) by (unfold posQ; rewrite Hx; reflexivity).
        split; [reflexivity |]. split.
        { eapply sweep_keep; eauto. lra. }
        split; [lra |]. split.
        { constructor.
          - unfold KeptBetween. rewrite Hpos. repeat split; auto; lra.
          - eapply Forall_impl; [| exact Hk].
            intros b (Hb1 & Hb2 & Hb3 & Hb4). repeat split; auto. lra. }
        { constructor; [assumption |].
          eapply Forall_impl; [| exact Hk].
          intros b (Hb1 & Hb2 & Hb3 & Hb4). unfold Apart. rewrite Hpos.
          pose proof (padding_half_nonneg b (Hwidth b)). split; lra. }
      * apply Qltb_ge in Hright.
        destruct (IH r) as (kept & r' & Heq & Hsw & Hle & Hk & Hs).
        exists kept, r'. rewrite Heq. repeat split; auto.
        apply sweep_drop; [| assumption].
        intros x' Hnum [_ Hr]. rewrite Hx in Hnum. injection Hnum as <-. lra.
      * apply Qltb_ge in Hleft.
        destruct (IH r) as (kept & r' & Heq & Hsw & Hle & Hk & Hs).
        exists kept, r'. rewrite Heq. repeat split; auto.
        apply sweep_drop; [| assumption].
        intros x' Hnum [Hl _]. rewrite Hx in Hnum. injection Hnum as <-. lra.
Qed.

Lemma filterTicks_app (self : XAxis D) (sc : Scale D) (maxW : Q)
  (ts1 ts2 : list (Tick D)) (startX : jsnum) :
  filterTicks self sc maxW startX (ts1 ++ ts2) =
  let '(k1, s1) := filterTicks self sc maxW startX ts1 in
  let '(k2, s2) := filterTicks self sc maxW s1 ts2 in
  (k1 ++ k2, s2).
Proof.
  revert startX. induction ts1 as [| t rest IH]; intro startX; simpl.
  - destruct (filterTicks self sc maxW startX ts2); reflexivity.
  - destruct (_ && _)%bool.
    + rewrite IH.
      destruct (filterTicks self sc maxW _ rest) as [k1 s1].
      destruct (filterTicks self sc maxW s1 ts2) as [k2 s2]. reflexivity.
    + apply IH.
Qed.

(** The sweep over the [svg]s of a panel is one sweep over all its ticks. *)
Lemma filterSvgs_flat (self : XAxis D) (sc : Scale D) (maxW : Q)
  (ss : list (Svg D)) (startX : jsnum) :
  flat_map (@svg_ticks D) (fst (filterSvgs self sc maxW startX ss)) =
  fst (filterTicks self sc maxW startX (flat_map (@svg_ticks D) ss)) /\
  snd (filterSvgs self sc maxW startX ss) =
  snd (filterTicks self sc maxW startX (flat_map (@svg_ticks D) ss)).
Proof.
  revert startX. induction ss as [| s rest IH]; intro startX; simpl.
  - split; reflexivity.
  - rewrite filterTicks_app.
    destruct (filterTicks self sc maxW startX (svg_ticks s)) as [k1 s1].
    destruct (IH s1) as [IH1 IH2].
    destruct (filterSvgs self sc maxW s1 rest) as [rest' s2].
    destruct (filterTicks self sc maxW s1 _) as [k2 s2'].
    simpl in *. subst. split; reflexivity.
Qed.

(** ** Rotation *)

Lemma lodash_max_from (lengths : list Q) (a : Q) :
  exists m : Q,
    fold_left (fun result value => if jgt (Num value) result then Num value else result)
              lengths (Num a) = Num m /\
    (m = a \/ In m lengths) /\
    a <= m /\
    (forall w, In w lengths -> w <= m).
Proof.
  revert a. induction lengths as [| v rest IH]; intro a; simpl.
  - exists a. repeat split; auto; [apply Qle_refl | contradiction].
  - change (jgt (Num v) (Num a)) with (Qltb a v).
    destruct (Qltb a v) eqn:Hav.
    + apply Qltb_lt in Hav.
      destruct (IH v) as (m & Hm & Hin & Hle & Hall).
      exists m. split; [assumption |]. split; [| split].
      * right. destruct Hin as [-> | Hin]; auto.
      * lra.
      * intros w [<- | Hw]; auto.
    + apply Qltb_ge in Hav.
      destruct (IH a) as (m & Hm & Hin & Hle & Hall).
      exists m. split; [assumption |]. split; [| split].
      * destruct Hin as [-> | Hin]; auto.
      * assumption.
      * intros w [<- | Hw]; auto. lra.
Qed.

(** [_.max] of a non-empty array is its greatest element. *)
Lemma lodash_max_greatest (lengths : list Q) :
  lengths <> [] ->
  exists m : Q,
    lodash_max lengths = Num m /\ In m lengths /\
    (forall w, In w lengths -> w <= m).
Proof.
  destruct lengths as [| v rest]; [congruence | intros _].
  unfold lodash_max. simpl.
  destruct (lodash_max_from rest v) as (m & Hm & Hin & Hle & Hall).
  exists m. split; [assumption |]. split.
  - destruct Hin as [-> | Hin]; auto.
  - intros w [<- | Hw]; auto.
Qed.

Lemma lodash_max_below (lengths : list Q) (b : Q) :
  (forall w, In w lengths -> w <= b) ->
  jgt (lodash_max lengths) (Num b) = false.
Proof.
  intro Hall. destruct lengths as [| v rest].
  - reflexivity.
  - destruct (lodash_max_greatest (v :: rest)) as (m & Hm & Hin & _);
      [discriminate |].
    rewrite Hm. unfold jgt. simpl. apply Qltb_ge. auto.
Qed.

(** C5.  On an ordinal scale and a panel with at least one tick label, with
    [maxLabelWidth] the greatest bounding-box width of the labels of the
    panel and the band width of the scale: [rotateAxisLabels] leaves
    [xAxisLabelHt] at [maxLabelWidth + 15], or at [180] when
    [maxLabelWidth > 180], and leaves [isRotated] true exactly when
    [maxLabelWidth] exceeds the band width. *)
Theorem rotateAxisLabels_attributes (self : XAxis D) (sc : Scale D)
  (p : Panel D) :
  xScale self = VScale sc ->
  kind sc = Ordinal ->
  allTicks p <> [] ->
  exists maxLabelWidth : Q,
    In maxLabelWidth (labelWidths p) /\
    (forall w, In w (labelWidths p) -> w <= maxLabelWidth) /\
    let a := _attr (fst (fst (rotateAxisLabels self p))) in
    (maxLabelWidth <= 180 -> xAxisLabelHt a = Some (Num (maxLabelWidth + 15))) /\
    (180 < maxLabelWidth -> xAxisLabelHt a = Some (Num 180)) /\
    (isRotated a = true <-> d3_rangeBand sc < maxLabelWidth).
Proof.
  intros Hsc Hkind Hticks.
  destruct (lodash_max_greatest (labelWidths p)) as (m & Hm & Hin & Hall).
  { unfold labelWidths. destruct (allTicks p); [congruence | discriminate]. }
  exists m. split; [assumption |]. split; [assumption |].
  unfold rotateAxisLabels. rewrite Hsc, Hkind.
  fold (labelWidths p). rewrite Hm. unfold jgt. simpl jlt. simpl jadd.
  unfold maxRotatedLength, xAxisPadding.
  destruct (Qltb (d3_rangeBand sc) m) eqn:Hbar;
    destruct (Qltb 180 m) eqn:Hcap; simpl;
    repeat match goal with
           | H : Qltb _ _ = true |- _ => apply Qltb_lt in H
           | H : Qltb _ _ = false |- _ => apply Qltb_ge in H
           end;
    (split; [intro; try reflexivity; lra |]);
    (split; [intro; try reflexivity; lra |]);
    (split; [try reflexivity; try discriminate; intros; lra
            | try reflexivity; try discriminate; intros; lra]).
Qed.

(** C9.  When no label of the panel is wider than the band,
    [rotateAxisLabels] returns normally, the panel is left as it was (every
    tick keeps its text, anchor, offsets and transform, every [svg] its
    height) and the instance changes only in [_attr.isRotated], which is
    false, and [_attr.xAxisLabelHt]. *)
Theorem rotateAxisLabels_unrotated_frame (self : XAxis D) (sc : Scale D)
  (p : Panel D) :
  xScale self = VScale sc ->
  kind sc = Ordinal ->
  (forall w, In w (labelWidths p) -> w <= d3_rangeBand sc) ->
  exists ht : jsnum,
    rotateAxisLabels self p =
    (set_attr self {| isRotated := false; xAxisLabelHt := Some ht;
                      otherAttrs := otherAttrs (_attr self) |},
     p, None).
Proof.
  intros Hsc Hkind Hall.
  unfold rotateAxisLabels. rewrite Hsc, Hkind. fold (labelWidths p).
  rewrite (lodash_max_below _ _ Hall).
  destruct (jgt (lodash_max (labelWidths p)) (Num maxRotatedLength));
    simpl; eexists; reflexivity.
Qed.

(** ** The loop over the panels *)

Section Each.

Variable f : XAxis D -> Panel D -> XAxis D * Panel D * option error.

Lemma each_length (self : XAxis D) (ps : list (Panel D)) :
  List.length (snd (fst (each f self ps))) = List.length ps.
Proof.
  revert self. induction ps as [| p rest IH]; intro self; simpl; [reflexivity |].
  destruct (f self p) as [[self1 p1] [e |]]; simpl; [reflexivity |].
  specialize (IH self1). destruct (each f self1 rest) as [[self2 rest2] r].
  simpl in *. congruence.
Qed.

(** A property of the instance that every step keeps holds at the end. *)
Lemma each_self (P : XAxis D -> Prop) :
  (forall self p, P self -> P (fst (fst (f self p)))) ->
  forall (ps : list (Panel D)) (self : XAxis D),
    P self -> P (fst (fst (each f self ps))).
Proof.
  intros Hstep ps. induction ps as [| p rest IH]; intros self HP; simpl; auto.
  pose proof (Hstep self p HP) as H1.
  destruct (f self p) as [[self1 p1] [e |]]; simpl in *; auto.
  specialize (IH self1 H1). destruct (each f self1 rest) as [[self2 rest2] r].
  exact IH.
Qed.

(** A reflexive relation that every step establishes between the panel it
    received and the panel it left relates the panels before and after. *)
Lemma each_panels (R : Panel D -> Panel D -> Prop) :
  (forall p, R p p) ->
  (forall self p, R p (snd (fst (f self p)))) ->
  forall (ps : list (Panel D)) (self : XAxis D),
    Forall2 R ps (snd (fst (each f self ps))).
Proof.
  intros Hrefl Hstep ps. induction ps as [| p rest IH]; intro self; simpl.
  - constructor.
  - pose proof (Hstep self p) as H1.
    destruct (f self p) as [[self1 p1] [e |]]; simpl in *.
    + constructor; [assumption |]. clear - Hrefl. induction rest; constructor; auto.
    + specialize (IH self1). destruct (each f self1 rest) as [[self2 rest2] r].
      constructor; assumption.
Qed.

(** When the loop ends without an exception every step has succeeded. *)
Lemma each_panels_ok (R : Panel D -> Panel D -> Prop) :
  (forall self p self' p', f self p = (self', p', None) -> R p p') ->
  forall (ps : list (Panel D)) (self : XAxis D),
    snd (each f self ps) = None ->
    Forall2 R ps (snd (fst (each f self ps))).
Proof.
  intros Hstep ps. induction ps as [| p rest IH]; intro self; simpl.
  - constructor.
  - destruct (f self p) as [[self1 p1] [e |]] eqn:Hf; simpl; [discriminate |].
    specialize (IH self1). destruct (each f self1 rest) as [[self2 rest2] r].
    simpl in *. intros ->. constructor; eauto.
Qed.

End Each.

(** ** The axis generator *)

(** The guard of [getXAxis] never fires: [getXScale] returns a scale, a
    scale is truthy and is not a number. *)
Lemma getXAxis_builds (self : XAxis D) (width : Q) :
  getXAxis self width =
  (let self' := set_xScale self (VScale (getXScale self (ordered self) width)) in
   set_xAxis self'
     {| axis_scale := xScale self'; axis_ticks := 10%Z;
        axis_tickFormat := xAxisFormatter self'; axis_orient := Bottom |},
   None).
Proof.
  reflexivity.
Qed.

Lemma drawPanel_cases (n : nat) (parentWidth : Q) (self : XAxis D) (p : Panel D) :
  let width := parentWidth / inject_Z (Z.of_nat n) in
  (validateWidthandHeight width (div_height p) = false /\
   drawPanel n parentWidth self p = (self, p, Some ContainerTooSmall)) \/
  (validateWidthandHeight width (div_height p) = true /\
   exists ticks,
     drawPanel n parentWidth self p =
     (fst (getXAxis self width),
      appendSvg p {| svg_width := width; svg_height := Num (div_height p);
                     svg_ticks := ticks |},
      None)).
Proof.
  intro width. unfold drawPanel. fold width.
  destruct (validateWidthandHeight width (div_height p)).
  - right. split; [reflexivity |]. rewrite getXAxis_builds. simpl.
    eexists. reflexivity.
  - left. split; reflexivity.
Qed.

Lemma drawPanel_attr (n : nat) (parentWidth : Q) (self : XAxis D) (p : Panel D) :
  _attr (fst (fst (drawPanel n parentWidth self p))) = _attr self /\
  ordered (fst (fst (drawPanel n parentWidth self p))) = ordered self.
Proof.
  destruct (drawPanel_cases n parentWidth self p) as [[_ ->] | [_ [ticks ->]]];
    split; reflexivity.
Qed.

(** ** What the label passes leave alone *)

Lemma filterSvgs_widths (self : XAxis D) (sc : Scale D) (maxW : Q)
  (ss : list (Svg D)) (startX : jsnum) :
  map (@svg_width D) (fst (filterSvgs self sc maxW startX ss))
  = map (@svg_width D) ss.
Proof.
  revert startX. induction ss as [| s rest IH]; intro startX; simpl; [reflexivity |].
  destruct (filterTicks self sc maxW startX (svg_ticks s)) as [ts s1].
  specialize (IH s1). destruct (filterSvgs self sc maxW s1 rest) as [rest' s2].
  simpl in *. congruence.
Qed.

Lemma filterAxisLabels_frame (maxW : Q) (self : XAxis D) (p : Panel D) :
  fst (fst (filterAxisLabels maxW self p)) = self /\
  svgWidths (snd (fst (filterAxisLabels maxW self p))) = svgWidths p.
Proof.
  unfold filterAxisLabels.
  destruct (xScale self) as [| n | sc]; simpl.
  - destruct (allTicks p); split; reflexivity.
  - destruct (allTicks p); split; reflexivity.
  - split; [reflexivity |]. unfold svgWidths. simpl. apply filterSvgs_widths.
Qed.

Lemma setFirstSvgHeight_widths (h : jsnum) (ss : list (Svg D)) :
  map (@svg_width D) (setFirstSvgHeight h ss) = map (@svg_width D) ss.
Proof.
  destruct ss; reflexivity.
Qed.

Lemma rotateAxisLabels_widths (self : XAxis D) (p : Panel D) :
  svgWidths (snd (fst (rotateAxisLabels self p))) = svgWidths p.
Proof.
  unfold rotateAxisLabels.
  destruct (xScale self) as [| n | sc]; try reflexivity.
  destruct (kind sc); try reflexivity.
  match goal with |- context [if isRotated ?a then _ else _] =>
    destruct (isRotated a) end; [| reflexivity].
  unfold svgWidths. simpl.
  rewrite setFirstSvgHeight_widths, map_map. reflexivity.
Qed.

Lemma filterOrRotate_widths (self : XAxis D) (dom : Dom D) :
  Forall2 (fun p p' => svgWidths p' = svgWidths p)
          (panels dom) (panels (snd (fst (filterOrRotate self dom)))).
Proof.
  unfold filterOrRotate.
  match goal with |- context [each ?f self (panels dom)] =>
    pose proof (each_panels f (fun p p' => svgWidths p' = svgWidths p)
                  (fun p => eq_refl)) as Hpan;
    destruct (each f self (panels dom)) as [[self1 ps1] r] eqn:Heach
  end.
  assert (Hall : Forall2 (fun p p' => svgWidths p' = svgWidths p) (panels dom) ps1).
  { change ps1 with (snd (fst (self1, ps1, r))). rewrite <- Heach.
    apply Hpan. intros s p.
    destruct (labelStrategy (ordered self)).
    - apply rotateAxisLabels_widths.
    - apply filterAxisLabels_frame. }
  destruct r; simpl; exact Hall.
Qed.

(** ** Drawing *)

Lemma drawPanel_appends (n : nat) (parentWidth : Q) (self self' : XAxis D)
  (p p' : Panel D) :
  drawPanel n parentWidth self p = (self', p', None) ->
  svgWidths p' = svgWidths p ++ [parentWidth / inject_Z (Z.of_nat n)].
Proof.
  intro Hdraw.
  destruct (drawPanel_cases n parentWidth self p) as [[_ Heq] | [_ [ticks Heq]]];
    rewrite Heq in Hdraw; [discriminate |].
  injection Hdraw as _ <-. unfold svgWidths. simpl. apply map_app.
Qed.

Lemma drawPanel_step (n : nat) (parentWidth : Q) (self : XAxis D) (p : Panel D) :
  let p' := snd (fst (drawPanel n parentWidth self p)) in
  p' = p \/ svgWidths p' = svgWidths p ++ [parentWidth / inject_Z (Z.of_nat n)].
Proof.
  destruct (drawPanel n parentWidth self p) as [[self' p'] [e |]] eqn:Hdraw; simpl.
  - left.
    destruct (drawPanel_cases n parentWidth self p) as [[_ Heq] | [_ [ticks Heq]]];
      rewrite Heq in Hdraw; [| discriminate].
    injection Hdraw as _ <- _. reflexivity.
  - right. eapply drawPanel_appends; eauto.
Qed.

Lemma Forall2_compose {A : Type} (R1 R2 R3 : A -> A -> Prop) (l1 l2 l3 : list A) :
  (forall a b c, R1 a b -> R2 b c -> R3 a c) ->
  Forall2 R1 l1 l2 -> Forall2 R2 l2 l3 -> Forall2 R3 l1 l3.
Proof.
  intros Hcomp H12. revert l3.
  induction H12; intros l3 H23; inversion H23; subst; constructor; eauto.
Qed.

(** The panels after [draw], against the panels before. *)
Lemma draw_panels (self : XAxis D) (dom : Dom D) :
  let result := draw self dom in
  Forall2 (fun p p' => p' = p \/ svgWidths p' = svgWidths p ++ [panelWidth dom])
          (panels dom) (panels (snd (fst result))) /\
  (snd result = None ->
   Forall2 (fun p p' => svgWidths p' = svgWidths p ++ [panelWidth dom])
           (panels dom) (panels (snd (fst result)))).
Proof.
  unfold draw, panelWidth.
  set (self0 := set_attr self _).
  set (n := List.length (panels dom)).
  set (W := x_axis_div_wrapper_width dom).
  pose proof (each_panels (drawPanel n W)
                (fun p p' => p' = p \/ svgWidths p' = svgWidths p ++ [W / inject_Z (Z.of_nat n)])
                (fun p => or_introl eq_refl)
                (drawPanel_step n W) (panels dom) self0) as Hany.
  pose proof (each_panels_ok (drawPanel n W)
                (fun p p' => svgWidths p' = svgWidths p ++ [W / inject_Z (Z.of_nat n)])
                (fun s p s' p' => drawPanel_appends n W s s' p p')
                (panels dom) self0) as Hok.
  destruct (each (drawPanel n W) self0 (panels dom)) as [[self1 ps1] [e |]];
    simpl in Hany, Hok.
  - simpl. split; [assumption | discriminate].
  - specialize (Hok eq_refl).
    pose proof (filterOrRotate_widths self1 (set_panels dom ps1)) as Hrot.
    simpl in Hrot.
    assert (Hall : Forall2
                     (fun p p' => svgWidths p' = svgWidths p ++ [W / inject_Z (Z.of_nat n)])
                     (panels dom)
                     (panels (snd (fst (filterOrRotate self1 (set_panels dom ps1)))))).
    { eapply Forall2_compose; [| exact Hok | exact Hrot].
      simpl. intros a b c Hab Hbc. congruence. }
    split; [| intros _; exact Hall].
    eapply Forall2_impl; [| exact Hall]. intros a b Hab. right. exact Hab.
Qed.


(** C3, as the code has it.  A render pass that ends normally leaves in
    every panel the [svg]s it found and one more, of the width of the pass,
    after them: nothing drawn by an earlier pass is removed or replaced. *)
Theorem render_appends (self self' : XAxis D) (dom dom' : Dom D) :
  render self dom = (self', dom', None) ->
  Forall2 (fun p p' =>
             List.length (svgs p') = S (List.length (svgs p)) /\
             svgWidths p' = svgWidths p ++ [panelWidth dom])
          (panels dom) (panels dom').
Proof.
  intro Hrender.
  destruct (draw_panels self dom) as [_ Hok].
  unfold render in Hrender. rewrite Hrender in Hok. simpl in Hok.
  eapply Forall2_impl; [| exact (Hok eq_refl)].
  intros p p' Hw. split; [| exact Hw]. unfold svgWidths in Hw.
  apply (f_equal (@List.length Q)) in Hw.
  rewrite List.length_app, !List.length_map in Hw. simpl in Hw. lia.
Qed.

(** ** The rotation flag on an ordered axis *)

Lemma filterOrRotate_ordered_self (self : XAxis D) (dom : Dom D) (o : OrderedObj D) :
  ordered self = Obj o ->
  fst (fst (filterOrRotate self dom)) = self.
Proof.
  intro Hord. unfold filterOrRotate. rewrite Hord.
  match goal with |- context [each ?f self (panels dom)] =>
    pose proof (each_self f (fun s => s = self)) as Hself;
    destruct (each f self (panels dom)) as [[self1 ps1] r] eqn:Heach
  end.
  assert (H1 : self1 = self).
  { change self1 with (fst (fst (self1, ps1, r))). rewrite <- Heach.
    apply Hself; [| reflexivity].
    intros s p ->. simpl. apply filterAxisLabels_frame. }
  destruct r; simpl; exact H1.
Qed.

(** C10.  After [render] on an instance whose ordering is a date ordering,
    [_attr.isRotated] is false, whatever it was before and however the pass
    ended: [draw] resets it and the filtering path leaves [_attr] alone. *)
Theorem render_temporal_not_rotated (self : XAxis D) (dom : Dom D)
  (o : OrderedObj D) :
  ordered self = Obj o ->
  date o = true ->
  isRotated (_attr (fst (fst (render self dom)))) = false /\
  _attr (fst (fst (render self dom))) = set_isRotated false (_attr self).
Proof.
  intros Hord _.
  assert (Hattr : _attr (fst (fst (render self dom)))
                  = set_isRotated false (_attr self)).
  { unfold render, draw.
    set (self0 := set_attr self (set_isRotated false (_attr self))).
    pose proof (each_self
                  (drawPanel (List.length (panels dom)) (x_axis_div_wrapper_width dom))
                  (fun s => _attr s = _attr self0 /\ ordered s = ordered self0)) as Hself.
    destruct (each _ self0 (panels dom)) as [[self1 ps1] r] eqn:Heach.
    assert (H1 : _attr self1 = _attr self0 /\ ordered self1 = ordered self0).
    { change self1 with (fst (fst (self1, ps1, r))). rewrite <- Heach.
      apply Hself; [| split; reflexivity].
      intros s p [Ha Ho].
      destruct (drawPanel_attr (List.length (panels dom))
                  (x_axis_div_wrapper_width dom) s p) as [Ha' Ho'].
      split; congruence. }
    destruct H1 as [Ha Ho].
    destruct r; simpl; [exact Ha |].
    rewrite (filterOrRotate_ordered_self self1 _ o); [exact Ha |].
    rewrite Ho. exact Hord. }
  split; [| exact Hattr]. rewrite Hattr. reflexivity.
Qed.

(** ** The only exception of a render pass *)

Lemma each_no_error (f : XAxis D -> Panel D -> XAxis D * Panel D * option error)
  (P : XAxis D -> Prop) :
  (forall self p, P self -> snd (f self p) = None /\ P (fst (fst (f self p)))) ->
  forall (ps : list (Panel D)) (self : XAxis D),
    P self -> snd (each f self ps) = None.
Proof.
  intros Hstep ps. induction ps as [| p rest IH]; intros self HP; simpl.
  - reflexivity.
  - destruct (Hstep self p HP) as [Hnone HP1].
    destruct (f self p) as [[self1 p1] r1]. simpl in *. subst r1.
    specialize (IH self1 HP1). destruct (each f self1 rest) as [[self2 rest2] r].
    exact IH.
Qed.

(** What the drawing loop leaves in the instance. *)
Definition Drawn (self0 self : XAxis D) (ps : list (Panel D)) : Prop :=
  xValues self = xValues self0 /\ ordered self = ordered self0 /\
  (ps = [] \/ exists sc, xScale self = VScale sc /\
                         (isDate (ordered self0) = false -> kind sc = Ordinal)).

Lemma getXScale_kind (self : XAxis D) (o : Ordered D) (width : Q) :
  isDate o = false -> kind (getXScale self o width) = Ordinal.
Proof.
  intro Hdate. unfold getXScale, getScale, getRange, getDomain.
  rewrite Hdate. destruct o as [| | obj]; simpl in *; try reflexivity.
  rewrite Hdate. reflexivity.
Qed.

Lemma each_drawPanel_scale (n : nat) (parentWidth : Q) (self0 : XAxis D) :
  forall (ps : list (Panel D)) (self : XAxis D),
    xValues self = xValues self0 -> ordered self = ordered self0 ->
    snd (each (drawPanel n parentWidth) self ps) = None ->
    Drawn self0 (fst (fst (each (drawPanel n parentWidth) self ps))) ps.
Proof.
  induction ps as [| p rest IH]; intros self Hx Ho; simpl.
  - intros _. repeat split; auto.
  - destruct (drawPanel_cases n parentWidth self p)
      as [[_ Heq] | [_ [ticks Heq]]]; rewrite Heq; [discriminate |].
    set (self1 := fst (getXAxis self (parentWidth / inject_Z (Z.of_nat n)))).
    assert (Hx1 : xValues self1 = xValues self0) by exact Hx.
    assert (Ho1 : ordered self1 = ordered self0) by exact Ho.
    specialize (IH self1 Hx1 Ho1).
    destruct (each (drawPanel n parentWidth) self1 rest) as [[self2 rest2] r]
      eqn:Heach.
    simpl in *. intros ->. destruct (IH eq_refl) as (Hx2 & Ho2 & Hsc).
    repeat split; auto. right.
    destruct Hsc as [-> | Hsc]; [| exact Hsc].
    simpl in Heach. injection Heach as <- _.
    eexists. split; [reflexivity |].
    intro Hdate. apply getXScale_kind. rewrite Ho. exact Hdate.
Qed.

Lemma each_drawPanel_errors (n : nat) (parentWidth : Q) :
  forall (ps : list (Panel D)) (self : XAxis D),
    snd (each (drawPanel n parentWidth) self ps) = None \/
    snd (each (drawPanel n parentWidth) self ps) = Some ContainerTooSmall.
Proof.
  induction ps as [| p rest IH]; intro self; simpl; [left; reflexivity |].
  destruct (drawPanel_cases n parentWidth self p) as [[_ Heq] | [_ [ticks Heq]]];
    rewrite Heq; [right; reflexivity |].
  specialize (IH (fst (getXAxis self (parentWidth / inject_Z (Z.of_nat n))))).
  destruct (each (drawPanel n parentWidth) _ rest) as [[self2 rest2] r].
  exact IH.
Qed.

(** A render pass ends normally or with the exception of
    [validateWidthandHeight]; the [TypeError]s of the label passes and the
    error of [getXAxis] do not occur. *)
Lemma render_errors (self : XAxis D) (dom : Dom D) :
  snd (render self dom) = None \/
  snd (render self dom) = Some ContainerTooSmall.
Proof.
  unfold render, draw.
  set (self0 := set_attr self (set_isRotated false (_attr self))).
  set (n := List.length (panels dom)).
  set (W := x_axis_div_wrapper_width dom).
  pose proof (each_drawPanel_scale n W self0 (panels dom) self0 eq_refl eq_refl)
    as Hdrawn.
  pose proof (each_length (drawPanel n W) self0 (panels dom)) as Hlen.
  pose proof (each_drawPanel_errors n W (panels dom) self0) as Herr.
  destruct (each (drawPanel n W) self0 (panels dom)) as [[self1 ps1] r].
  simpl in *. destruct Herr as [-> | ->]; [| right; reflexivity].
  left. destruct (Hdrawn eq_refl) as (_ & Ho & Hsc).
  unfold filterOrRotate. simpl panels.
  destruct Hsc as [Hnil | Hsc].
  { rewrite Hnil in Hlen. destruct ps1; [reflexivity | discriminate]. }
  match goal with |- context [each ?f self1 ps1] =>
    pose proof (each_no_error f
                  (fun s => exists sc, xScale s = VScale sc /\
                                       (isDate (ordered self0) = false ->
                                        kind sc = Ordinal))) as Hnone;
    destruct (each f self1 ps1) as [[self2 ps2] r2] eqn:Heach
  end.
  assert (Hr2 : r2 = None).
  { change r2 with (snd (self2, ps2, r2)). rewrite <- Heach.
    apply Hnone; [| exact Hsc].
    intros s p (sc & Hs & Hk).
    rewrite Ho. unfold labelStrategy, notOrdered.
    destruct (ordered self0) as [| | obj] eqn:Hord; simpl.
    - unfold rotateAxisLabels. rewrite Hs, (Hk eq_refl).
      match goal with |- context [if isRotated ?a then _ else _] =>
        destruct (isRotated a) end;
        (split; [reflexivity | exists sc; split; auto]).
    - unfold rotateAxisLabels. rewrite Hs, (Hk eq_refl).
      match goal with |- context [if isRotated ?a then _ else _] =>
        destruct (isRotated a) end;
        (split; [reflexivity | exists sc; split; auto]).
    - unfold filterAxisLabels. rewrite Hs. simpl.
      split; [reflexivity | exists sc; split; auto]. }
  subst r2. reflexivity.
Qed.

(** ** Scale kind and label strategy *)

(** X21.  Where the ordering is absent, falsy, or a date ordering, the scale
    and the label pass go together: a time scale over a linear range with
    the filtering pass, or an ordinal scale over bands padded by a tenth
    with the rotation pass. *)
Lemma axis_kind_coherent (self : XAxis D) (o : Ordered D) (width : Q) :
  (match o with Obj obj => date obj = true | _ => True end) ->
  let sc := getXScale self o width in
  (isDate o = true /\ kind sc = TimeUtc /\ range sc = LinearRange 0 width /\
   labelStrategy o = FilterLabels) \/
  (isDate o = false /\ kind sc = Ordinal /\
   range sc = RangeBands 0 width (1 # 10) /\
   labelStrategy o = RotateLabels).
Proof.
  destruct o as [| | obj]; simpl; intro Hdate.
  - right. repeat split.
  - right. repeat split.
  - left. unfold getXScale, getScale, getRange, getDomain, labelStrategy.
    simpl. rewrite Hdate. repeat split.
Qed.

(** C1, where the code departs from it.  For an ordering object whose [date]
    is false or missing, [getScale] and [getRange] build an ordinal scale
    over bands padded by a tenth, and [filterOrRotate] nevertheless takes the
    filtering branch: the scale branch and the label branch disagree. *)
Theorem ordered_without_date_mismatch (self : XAxis D) (mn mx : option D)
  (width : Q) :
  let o := Obj {| date := false; min := mn; max := mx |} in
  kind (getScale o) = Ordinal /\
  kind (getXScale self o width) = Ordinal /\
  range (getRange (getDomain self (getScale o) o) o width)
  = RangeBands 0 width (1 # 10) /\
  labelStrategy o = FilterLabels.
Proof.
  simpl. repeat split.
Qed.

(** The guard of [getXAxis] is dead code: for every instance, every width
    and every behaviour of the scale, the call installs the scale and the
    axis generator and returns normally. *)
Lemma getXAxis_never_throws (self : XAxis D) (width : Q) :
  snd (getXAxis self width) = None /\
  exists sc : Scale D,
    sc = getXScale self (ordered self) width /\
    xScale (fst (getXAxis self width)) = VScale sc /\
    xAxis (fst (getXAxis self width))
    = Some {| axis_scale := VScale sc; axis_ticks := 10%Z;
              axis_tickFormat := xAxisFormatter self; axis_orient := Bottom |}.
Proof.
  rewrite getXAxis_builds. simpl. split; [reflexivity |].
  eexists. repeat split.
Qed.

End Properties.

(** ** The reference environment at work *)

Lemma Ref_tickWidth_nonneg (t : Tick Z) : 0 <= @tickWidth Z Ref.env t.
Proof.
  simpl. unfold Ref.width_of.
  apply Qmult_le_0_compat; [discriminate |].
  change 0 with (inject_Z 0). rewrite <- Zle_Qle. lia.
Qed.


(** C2, where the code departs from it.  A date ordering without bounds
    gives a time scale that maps every datum to [NaN]; [getXAxis] installs
    it, builds the axis generator and returns normally, and [render] goes
    on to append the [svg] of the panel. *)
Theorem getXAxis_accepts_nan_scale (width : Q) (d : Z) :
  let result := getXAxis Ref.unbounded width in
  let sc := Ref.scaleOf Ref.unbounded width in
  d3_apply sc d = NaN /\
  snd result = None /\
  xScale (fst result) = VScale sc /\
  xAxis (fst result)
  = Some {| axis_scale := VScale sc; axis_ticks := 10%Z;
            axis_tickFormat := Ref.stamp; axis_orient := Bottom |} /\
  snd (render Ref.unbounded (Ref.onePanel 500 25)) = None /\
  map (fun p => List.length (svgs p))
      (panels (snd (fst (render Ref.unbounded (Ref.onePanel 500 25))))) = [1%nat].
Proof.
  simpl. repeat split.
Qed.

Example truncate_February : truncateLabel "February" (Num 42) = "Fe..."%string.
Proof. reflexivity. Qed.

Example truncate_trims : truncateLabel "a - b, cdefg" (Num 63) = "a - b..."%string.
Proof. reflexivity. Qed.

(** Witness for C7 as amended. *)
Lemma truncateLabel_estimated_width_witness :
  inject_Z (Z.of_nat (String.length (truncateLabel "February" (Num 42))))
  * (@textWidth _ Ref.env "February" / inject_Z (Z.of_nat (String.length "February")))
  <= 42 + @textWidth _ Ref.env "February" / inject_Z (Z.of_nat (String.length "February")).
Proof.
  apply (truncateLabel_estimated_width (E := Ref.env) "February" 42).
  - simpl. lia.
  - vm_compute. discriminate.
  - vm_compute. discriminate.
Defined.

(** C7 as stated fails: with a budget of exactly one character width the
    two-character label "ab" (14 pixels) becomes "...", whose estimated
    width is three characters, more than the budget plus one. *)
Lemma truncateLabel_three_dots_overrun :
  ~ (forall (str : string) (size : Q),
        let pxPerChar :=
          @textWidth _ Ref.env str / inject_Z (Z.of_nat (String.length str)) in
        pxPerChar <= size ->
        inject_Z (Z.of_nat (String.length (truncateLabel str (Num size))))
        * pxPerChar <= size + pxPerChar).
Proof.
  intro H. specialize (H "ab"%string 7).
  assert (Hpre : @textWidth _ Ref.env "ab" / inject_Z (Z.of_nat (String.length "ab")) <= 7)
    by (vm_compute; discriminate).
  specialize (H Hpre). vm_compute in H. apply H. reflexivity.
Qed.

(** The histogram axis of the reference environment: an ordinal scale, and
    labels that are filtered, never rotated. *)
Example histogram_is_filtered :
  let result := render Ref.histogram (Ref.onePanel 120 25) in
  xScale (fst (fst result)) = VScale (Ref.scaleOf Ref.histogram 120) /\
  kind (Ref.scaleOf Ref.histogram 120) = Ordinal /\
  isRotated (_attr (fst (fst result))) = false /\
  map (@text Z) (flat_map (@allTicks Z) (panels (snd (fst result))))
  = ["February"%string].
Proof.
  vm_compute. repeat split.
Qed.

(** The same values on a categorical axis are rotated. *)
Example categorical_is_rotated :
  let result := render Ref.categorical (Ref.onePanel 120 25) in
  _attr (fst (fst result))
  = {| isRotated := true; xAxisLabelHt := Some (Num 71); otherAttrs := [] |} /\
  map (@text Z) (flat_map (@allTicks Z) (panels (snd (fst result))))
  = ["January"%string; "February"%string; "March"%string].
Proof.
  vm_compute. repeat split.
Qed.

Example filter_keeps :
  map (@datum Z)
      (allTicks (snd (fst (filterAxisLabels 500 (Ref.ready Ref.temporal 500)
                             (Ref.drawn Ref.temporal 500)))))
  = [100%Z; 200%Z; 300%Z; 400%Z; 500%Z; 600%Z; 700%Z; 800%Z; 900%Z].
Proof.
  vm_compute. reflexivity.
Qed.

(** Witness for C5: three months over 120 pixels. *)
Lemma rotateAxisLabels_attributes_witness :
  exists maxLabelWidth : Q,
    In maxLabelWidth (labelWidths (Ref.drawn Ref.categorical 120)) /\
    (forall w, In w (labelWidths (Ref.drawn Ref.categorical 120)) ->
               w <= maxLabelWidth) /\
    let a := _attr (fst (fst (rotateAxisLabels (Ref.ready Ref.categorical 120)
                                (Ref.drawn Ref.categorical 120)))) in
    (maxLabelWidth <= 180 -> xAxisLabelHt a = Some (Num (maxLabelWidth + 15))) /\
    (180 < maxLabelWidth -> xAxisLabelHt a = Some (Num 180)) /\
    (isRotated a = true <->
     d3_rangeBand (Ref.scaleOf Ref.categorical 120) < maxLabelWidth).
Proof.
  apply (@rotateAxisLabels_attributes Z Ref.env (Ref.ready Ref.categorical 120)
           (Ref.scaleOf Ref.categorical 120) (Ref.drawn Ref.categorical 120)).
  - reflexivity.
  - reflexivity.
  - vm_compute. discriminate.
Defined.

(** Witness for C9: three months over 1200
    pixels, where every label fits its band. *)
Lemma rotateAxisLabels_unrotated_frame_witness :
  exists ht : jsnum,
    rotateAxisLabels (Ref.ready Ref.categorical 1200) (Ref.drawn Ref.categorical 1200)
    = (set_attr (Ref.ready Ref.categorical 1200)
         {| isRotated := false; xAxisLabelHt := Some ht;
            otherAttrs := otherAttrs (_attr (Ref.ready Ref.categorical 1200)) |},
       Ref.drawn Ref.categorical 1200, None).
Proof.
  apply (@rotateAxisLabels_unrotated_frame Z Ref.env (Ref.ready Ref.categorical 1200)
           (Ref.scaleOf Ref.categorical 1200) (Ref.drawn Ref.categorical 1200)).
  - reflexivity.
  - reflexivity.
  - intros w Hin. vm_compute in Hin.
    destruct Hin as [<- | [<- | [<- | []]]]; vm_compute; discriminate.
Defined.

Example second_panel_degenerate :
  let result := render Ref.categorical (Ref.twoPanels 240 25 0) in
  snd result = Some ContainerTooSmall /\
  map (fun p => List.length (svgs p)) (panels (snd (fst result)))
  = [1%nat; 0%nat].
Proof.
  vm_compute. split; reflexivity.
Qed.

(** Witness for C3 as amended. *)
Lemma render_appends_witness :
  Forall2 (fun p p' =>
             List.length (svgs p') = S (List.length (svgs p)) /\
             svgWidths p' = svgWidths p ++ [panelWidth (Ref.onePanel 120 25)])
          (panels (Ref.onePanel 120 25))
          (panels (snd (fst (render Ref.categorical (Ref.onePanel 120 25))))).
Proof.
  apply (@render_appends Z Ref.env Ref.categorical
           (fst (fst (render Ref.categorical (Ref.onePanel 120 25))))
           (Ref.onePanel 120 25)
           (snd (fst (render Ref.categorical (Ref.onePanel 120 25))))).
  vm_compute. reflexivity.
Defined.

(** C3 as stated fails: a second [render] on the same instance and document
    ends normally like the first and leaves two [svg]s in the panel where
    the first left one. *)
Lemma render_twice_accumulates :
  let once := render Ref.categorical (Ref.onePanel 120 25) in
  let twice := render (fst (fst once)) (snd (fst once)) in
  snd once = None /\
  snd twice = None /\
  map (fun p => List.length (svgs p)) (panels (snd (fst once))) = [1%nat] /\
  map (fun p => List.length (svgs p)) (panels (snd (fst twice))) = [2%nat] /\
  snd (fst twice) <> snd (fst once).
Proof.
  cbv zeta.
  assert (H1 : map (fun p => List.length (svgs p))
                 (panels (snd (fst (render Ref.categorical (Ref.onePanel 120 25)))))
               = [1%nat]) by (vm_compute; reflexivity).
  assert (H2 : map (fun p => List.length (svgs p))
                 (panels (snd (fst (render
                    (fst (fst (render Ref.categorical (Ref.onePanel 120 25))))
                    (snd (fst (render Ref.categorical (Ref.onePanel 120 25))))))))
               = [2%nat]) by (vm_compute; reflexivity).
  repeat split; try assumption; try (vm_compute; reflexivity).
  intro Heq. rewrite Heq in H2. rewrite H1 in H2. discriminate.
Qed.

(** Witness for C10. *)
Lemma render_temporal_not_rotated_witness :
  isRotated (_attr (fst (fst (render Ref.temporal (Ref.onePanel 500 25))))) = false /\
  _attr (fst (fst (render Ref.temporal (Ref.onePanel 500 25))))
  = set_isRotated false (_attr Ref.temporal).
Proof.
  apply (@render_temporal_not_rotated Z Ref.env Ref.temporal (Ref.onePanel 500 25)
           {| date := true; min := Some 0%Z; max := Some 1000%Z |}).
  - reflexivity.
  - reflexivity.
Defined.

(** * Further properties of the prototype *)

(** ** More on strings and numbers *)

Lemma substring0_prefix (n : nat) (s : string) :
  exists rest : string, s = (String.substring 0 n s ++ rest)%string.
Proof.
  revert s. induction n as [| n IH]; intros [| c s]; simpl.
  - exists ""%string. reflexivity.
  - exists (String c s). reflexivity.
  - exists ""%string. reflexivity.
  - destruct (IH s) as [rest Hrest]. exists rest. congruence.
Qed.

Lemma length_substring0_exact (n : nat) (s : string) :
  (n <= String.length s)%nat -> String.length (String.substring 0 n s) = n.
Proof.
  revert s. induction n as [| n IH]; intros [| c s]; simpl; intro Hn;
    try reflexivity; try lia.
  rewrite IH; [reflexivity | lia].
Qed.

Lemma trimEnd_stops (str : string) (endChar : Z) :
  isTrimChar (charAt str (trimEnd str endChar - 1)) = false.
Proof.
  pose proof (trimEnd_walks str endChar) as Hwalk.
  induction Hwalk; assumption.
Qed.

Lemma Qdiv_by_zero (a b : Q) : b == 0 -> a / b == 0.
Proof.
  intro Hb. unfold Qdiv. rewrite Hb. unfold Qinv. simpl. apply Qmult_0_r.
Qed.

(** Where [truncateLabel] cuts, [floor(size / pxPerChar)] is below the
    number of characters, or the division has no finite value and the model
    has [0]. *)
Lemma cut_floor_bound (w size : Q) (len : nat) :
  0 <= w -> size < w ->
  (Qfloor (size / (w / inject_Z (Z.of_nat len))) <= Z.of_nat len - 1 \/
   Qfloor (size / (w / inject_Z (Z.of_nat len))) = 0)%Z.
Proof.
  intros Hw Hcut.
  set (n := inject_Z (Z.of_nat len)).
  destruct (Qeq_dec (w / n) 0) as [Hz | Hnz].
  - right. rewrite (Qdiv_by_zero size (w / n) Hz). reflexivity.
  - left.
    assert (Hn : 0 < n).
    { destruct (Qlt_le_dec 0 n) as [Hlt | Hle]; [assumption |].
      exfalso. apply Hnz. apply Qdiv_by_zero. apply Qle_antisym; [assumption |].
      unfold n. change 0 with (inject_Z 0). rewrite <- Zle_Qle. lia. }
    assert (Hn0 : ~ n == 0) by (intro H0; rewrite H0 in Hn; apply (Qlt_irrefl _ Hn)).
    assert (Hnw : n * (w / n) == w) by (apply Qmult_div_r; assumption).
    assert (Hppc : 0 < w / n).
    { apply Qlt_shift_div_l; [assumption |]. rewrite Qmult_0_l.
      destruct (Qlt_le_dec 0 w) as [Hlt | Hle]; [assumption |].
      exfalso. apply Hnz. unfold Qdiv.
      assert (Hw0 : w == 0) by (apply Qle_antisym; assumption).
      rewrite Hw0. apply Qmult_0_l. }
    assert (Hq : size / (w / n) < n).
    { apply Qlt_shift_div_r; [assumption |]. rewrite Hnw. assumption. }
    pose proof (Qfloor_le (size / (w / n))) as Hfl.
    assert (Hlt : (Qfloor (size / (w / n)) < Z.of_nat len)%Z).
    { rewrite Zlt_Qlt. fold n. eapply Qle_lt_trans; eauto. }
    lia.
Qed.

Section Further.

Context {D : Type} {E : Env D}.

(** ** Truncation *)

(** X1.  For a text whose rendered width is not negative, [truncateLabel]
    returns the text itself or a prefix of it followed by three dots, and
    the prefix never ends in a space, a hyphen or a comma. *)
Theorem truncateLabel_shape (str : string) (size : Q) :
  0 <= textWidth str ->
  truncateLabel str (Num size) = str \/
  exists pre rest : string,
    str = (pre ++ rest)%string /\
    truncateLabel str (Num size) = (pre ++ "...")%string /\
    isTrimChar (charAt pre (Z.of_nat (String.length pre) - 1)) = false.
Proof.
  intro Hw.
  destruct (Qlt_le_dec size (textWidth str)) as [Hcut | Hfit];
    [right | left; apply truncateLabel_fits; assumption].
  rewrite (truncateLabel_cuts str size Hcut).
  set (e0 := (Qfloor _ - 4)%Z).
  pose proof (trimEnd_le str e0) as Hle.
  pose proof (trimEnd_stops str e0) as Hstop.
  pose proof (cut_floor_bound (textWidth str) size (String.length str) Hw Hcut)
    as Hbound.
  set (e := trimEnd str e0) in *.
  destruct (substring0_prefix (Z.to_nat e) str) as [rest Hrest].
  exists (substr0 str e), rest. split; [exact Hrest |]. split; [reflexivity |].
  unfold substr0.
  destruct (Z_le_gt_dec e 0) as [Hneg | Hpos].
  - replace (Z.to_nat e) with 0%nat by lia.
    destruct str; reflexivity.
  - assert (Hin : (Z.to_nat e <= String.length str)%nat) by (subst e0; lia).
    rewrite (length_substring0_exact _ _ Hin).
    replace (Z.of_nat (Z.to_nat e) - 1)%Z with (e - 1)%Z by lia.
    unfold charAt in *.
    destruct (e - 1 <? 0)%Z eqn:Hlt; [reflexivity |].
    rewrite substring_correct1 by lia.
    rewrite Nat.add_0_r. exact Hstop.
Qed.

End Further.

(** Witness for X1. *)
Lemma truncateLabel_shape_witness :
  truncateLabel "a - b, cdefg" (Num 63) = "a - b, cdefg"%string \/
  exists pre rest : string,
    "a - b, cdefg"%string = (pre ++ rest)%string /\
    truncateLabel "a - b, cdefg" (Num 63) = (pre ++ "...")%string /\
    isTrimChar (charAt pre (Z.of_nat (String.length pre) - 1)) = false.
Proof.
  apply (@truncateLabel_shape Z Ref.env "a - b, cdefg"%string 63).
  vm_compute. discriminate.
Defined.

Section FurtherFilter.

Context {D : Type} {E : Env D}.

(** ** The collision filter, continued *)

Lemma filterTicks_subseq (self : XAxis D) (sc : Scale D) (maxW : Q)
  (ts : list (Tick D)) (startX : jsnum) :
  exists kept : list (Tick D),
    fst (filterTicks self sc maxW startX ts) = map (relabel self) kept /\
    Subseq kept ts.
Proof.
  revert startX. induction ts as [| t rest IH]; intro startX; simpl.
  - exists []. split; constructor.
  - destruct (_ && _)%bool.
    + destruct (IH (jadd (d3_apply sc (datum t)) (tickWidth t * padding / 2)))
        as (kept & Heq & Hsub).
      destruct (filterTicks self sc maxW _ rest) as [k s1]. simpl in *.
      exists (t :: kept). split; [rewrite Heq; reflexivity | constructor; assumption].
    + destruct (IH startX) as (kept & Heq & Hsub).
      exists kept. split; [assumption | constructor; assumption].
Qed.

Lemma filterSvgs_attrs (self : XAxis D) (sc : Scale D) (maxW : Q)
  (ss : list (Svg D)) (startX : jsnum) :
  Forall2 (fun s s' => svg_width s' = svg_width s /\ svg_height s' = svg_height s)
          ss (fst (filterSvgs self sc maxW startX ss)).
Proof.
  revert startX. induction ss as [| s rest IH]; intro startX; simpl.
  - constructor.
  - destruct (filterTicks self sc maxW startX (svg_ticks s)) as [ts s1].
    specialize (IH s1). destruct (filterSvgs self sc maxW s1 rest) as [rest' s2].
    constructor; [split; reflexivity | exact IH].
Qed.

(** X3.  With a scale installed, [filterAxisLabels] only removes ticks and
    rewrites labels: the ticks left in the panel are a subsequence of the
    ticks it had, in the same order, each with its datum, anchor, offsets
    and transform untouched and its text set to the formatted datum; every
    [svg] keeps its width and height, and the call returns normally. *)
Theorem filterAxisLabels_subsequence (maxW : Q) (self : XAxis D) (sc : Scale D)
  (p : Panel D) :
  xScale self = VScale sc ->
  let p' := snd (fst (filterAxisLabels maxW self p)) in
  snd (filterAxisLabels maxW self p) = None /\
  Forall2 (fun s s' => svg_width s' = svg_width s /\ svg_height s' = svg_height s)
          (svgs p) (svgs p') /\
  exists kept : list (Tick D),
    Subseq kept (allTicks p) /\
    Forall2 (fun t t' =>
               datum t' = datum t /\
               text t' = xAxisFormatter self (datum t) /\
               text_anchor t' = text_anchor t /\
               dx t' = dx t /\ dy t' = dy t /\
               transform t' = transform t)
            kept (allTicks p').
Proof.
  intros Hsc p'. subst p'. unfold filterAxisLabels. rewrite Hsc. simpl.
  split; [reflexivity |]. split; [apply filterSvgs_attrs |].
  destruct (filterTicks_subseq self sc maxW (allTicks p) (Num 0))
    as (kept & Heq & Hsub).
  exists kept. split; [exact Hsub |].
  unfold allTicks at 1. simpl svgs.
  destruct (filterSvgs_flat self sc maxW (svgs p) (Num 0)) as [Hflat _].
  rewrite Hflat. unfold allTicks in Heq. rewrite Heq.
  clear. induction kept; simpl; constructor; auto.
  repeat split.
Qed.

(** X4.  On ticks with bounding boxes of non-negative width, every tick
    [filterAxisLabels] keeps has a finite position and its padded left edge
    lies strictly right of the start of the axis: a label that would reach
    past the left edge is removed. *)
Theorem filterAxisLabels_left_edge (maxW : Q) (self : XAxis D) (sc : Scale D)
  (p : Panel D) :
  xScale self = VScale sc ->
  (forall t, 0 <= tickWidth t) ->
  exists kept : list (Tick D),
    allTicks (snd (fst (filterAxisLabels maxW self p)))
    = map (relabel self) kept /\
    Forall (fun t => tickX sc t = Num (posQ sc t) /\
                     0 < posQ sc t - halfWidthOf t) kept.
Proof.
  intros Hsc Hwidth.
  destruct (filterTicks_sweep self sc maxW Hwidth (allTicks p) 0)
    as (kept & r' & Heq & _ & _ & Hk & _).
  exists kept. unfold filterAxisLabels. rewrite Hsc. simpl.
  unfold allTicks at 1. simpl svgs.
  destruct (filterSvgs_flat self sc maxW (svgs p) (Num 0)) as [Hflat _].
  rewrite Hflat. unfold allTicks in Heq. rewrite Heq. simpl.
  split; [reflexivity |].
  eapply Forall_impl; [| exact Hk].
  intros t (H1 & H2 & _ & _). split; assumption.
Qed.

Lemma filterTicks_all_nan (self : XAxis D) (sc : Scale D) (maxW : Q)
  (ts : list (Tick D)) (startX : jsnum) :
  (forall t, In t ts -> tickX sc t = NaN) ->
  filterTicks self sc maxW startX ts = ([], startX).
Proof.
  induction ts as [| t rest IH]; intro Hnan; simpl; [reflexivity |].
  assert (Ht : d3_apply sc (datum t) = NaN) by (apply (Hnan t); left; reflexivity).
  rewrite Ht. destruct (jadd startX _); simpl; apply IH;
    intros t' Hin; apply Hnan; right; assumption.
Qed.

(** X5.  When the scale maps the datum of every tick of the panel to [NaN],
    [filterAxisLabels] removes them all and returns normally: an invalid
    scale leaves an axis without ticks, not an error. *)
Theorem filterAxisLabels_nan_scale (maxW : Q) (self : XAxis D) (sc : Scale D)
  (p : Panel D) :
  xScale self = VScale sc ->
  (forall t, In t (allTicks p) -> tickX sc t = NaN) ->
  allTicks (snd (fst (filterAxisLabels maxW self p))) = [] /\
  snd (filterAxisLabels maxW self p) = None.
Proof.
  intros Hsc Hnan. unfold filterAxisLabels. rewrite Hsc. simpl.
  split; [| reflexivity].
  unfold allTicks at 1. simpl svgs.
  destruct (filterSvgs_flat self sc maxW (svgs p) (Num 0)) as [Hflat _].
  rewrite Hflat. fold (allTicks p).
  rewrite (filterTicks_all_nan self sc maxW (allTicks p) (Num 0) Hnan).
  reflexivity.
Qed.

Lemma filterTicks_fixed (self : XAxis D) (sc : Scale D) (maxW : Q)
  (ts : list (Tick D)) (startX : jsnum) :
  (forall t, In t ts -> tickWidth (relabel self t) = tickWidth t) ->
  filterTicks self sc maxW startX (fst (filterTicks self sc maxW startX ts))
  = filterTicks self sc maxW startX ts.
Proof.
  revert startX. induction ts as [| t rest IH]; intros startX Hstable; simpl;
    [reflexivity |].
  assert (Hrest : forall t', In t' rest ->
                             tickWidth (relabel self t') = tickWidth t')
    by (intros t' Hin; apply Hstable; right; assumption).
  destruct (_ && _)%bool eqn:Hkeep.
  - specialize (IH (jadd (d3_apply sc (datum t)) (tickWidth t * padding / 2)) Hrest).
    destruct (filterTicks self sc maxW _ rest) as [k s1] eqn:Hk. simpl in *.
    fold (relabel self t).
    rewrite (Hstable t (or_introl eq_refl)). simpl datum.
    rewrite Hkeep, IH. reflexivity.
  - apply IH. exact Hrest.
Qed.

Lemma filterSvgs_fixed (self : XAxis D) (sc : Scale D) (maxW : Q)
  (ss : list (Svg D)) (startX : jsnum) :
  (forall t, In t (flat_map (@svg_ticks D) ss) ->
             tickWidth (relabel self t) = tickWidth t) ->
  filterSvgs self sc maxW startX (fst (filterSvgs self sc maxW startX ss))
  = filterSvgs self sc maxW startX ss.
Proof.
  revert startX. induction ss as [| s rest IH]; intros startX Hstable; simpl;
    [reflexivity |].
  simpl in Hstable.
  pose proof (filterTicks_fixed self sc maxW (svg_ticks s) startX
                (fun t Hin => Hstable t (in_or_app _ _ _ (or_introl Hin)))) as Hs.
  destruct (filterTicks self sc maxW startX (svg_ticks s)) as [ts s1].
  simpl in Hs.
  specialize (IH s1 (fun t Hin => Hstable t (in_or_app _ _ _ (or_intror Hin)))).
  destruct (filterSvgs self sc maxW s1 rest) as [rest' s2]. simpl in *.
  rewrite Hs, IH. reflexivity.
Qed.

(** X6.  [filterAxisLabels] is idempotent on a panel whose ticks keep the
    width of their bounding box when they receive their formatted label (as
    ticks drawn by the axis of the instance do): filtering the filtered
    panel again removes nothing more and gives the same result. *)
Theorem filterAxisLabels_idempotent (maxW : Q) (self : XAxis D) (p : Panel D) :
  (forall t, In t (allTicks p) -> tickWidth (relabel self t) = tickWidth t) ->
  filterAxisLabels maxW self (snd (fst (filterAxisLabels maxW self p)))
  = filterAxisLabels maxW self p.
Proof.
  intro Hstable. unfold filterAxisLabels.
  destruct (xScale self) as [| n | sc].
  - destruct (allTicks p) eqn:Hticks; simpl; rewrite Hticks; reflexivity.
  - destruct (allTicks p) eqn:Hticks; simpl; rewrite Hticks; reflexivity.
  - simpl. unfold set_svgs. simpl.
    rewrite (filterSvgs_fixed self sc maxW (svgs p) (Num 0) Hstable).
    reflexivity.
Qed.

End FurtherFilter.

(** Witness for X3. *)
Lemma filterAxisLabels_subsequence_witness :
  let self := Ref.ready Ref.temporal 500 in
  let p := Ref.drawn Ref.temporal 500 in
  let p' := snd (fst (filterAxisLabels 500 self p)) in
  snd (filterAxisLabels 500 self p) = None /\
  Forall2 (fun s s' => svg_width s' = svg_width s /\ svg_height s' = svg_height s)
          (svgs p) (svgs p') /\
  exists kept : list (Tick Z),
    Subseq kept (allTicks p) /\
    Forall2 (fun t t' =>
               datum t' = datum t /\
               text t' = xAxisFormatter self (datum t) /\
               text_anchor t' = text_anchor t /\
               dx t' = dx t /\ dy t' = dy t /\
               transform t' = transform t)
            kept (allTicks p').
Proof.
  apply (@filterAxisLabels_subsequence Z Ref.env 500 (Ref.ready Ref.temporal 500)
           (Ref.scaleOf Ref.temporal 500) (Ref.drawn Ref.temporal 500)).
  reflexivity.
Defined.

(** Witness for X4. *)
Lemma filterAxisLabels_left_edge_witness :
  exists kept : list (Tick Z),
    allTicks (snd (fst (filterAxisLabels 500 (Ref.ready Ref.temporal 500)
                          (Ref.drawn Ref.temporal 500))))
    = map (relabel (Ref.ready Ref.temporal 500)) kept /\
    Forall (fun t => tickX (Ref.scaleOf Ref.temporal 500) t
                     = Num (posQ (Ref.scaleOf Ref.temporal 500) t) /\
                     0 < posQ (Ref.scaleOf Ref.temporal 500) t - halfWidthOf t)
           kept.
Proof.
  apply (@filterAxisLabels_left_edge Z Ref.env 500 (Ref.ready Ref.temporal 500)
           (Ref.scaleOf Ref.temporal 500) (Ref.drawn Ref.temporal 500)).
  - reflexivity.
  - exact Ref_tickWidth_nonneg.
Defined.

(** Witness for X5: the ticks of the bounded date axis under the scale of
    the unbounded one. *)
Lemma filterAxisLabels_nan_scale_witness :
  allTicks (snd (fst (filterAxisLabels 500 (Ref.ready Ref.unbounded 500)
                        (Ref.drawn Ref.temporal 500)))) = [] /\
  snd (filterAxisLabels 500 (Ref.ready Ref.unbounded 500)
         (Ref.drawn Ref.temporal 500)) = None.
Proof.
  apply (@filterAxisLabels_nan_scale Z Ref.env 500 (Ref.ready Ref.unbounded 500)
           (Ref.scaleOf Ref.unbounded 500) (Ref.drawn Ref.temporal 500)).
  - reflexivity.
  - intros t _. reflexivity.
Defined.

(** Witness for X6. *)
Lemma filterAxisLabels_idempotent_witness :
  filterAxisLabels 500 (Ref.ready Ref.temporal 500)
    (snd (fst (filterAxisLabels 500 (Ref.ready Ref.temporal 500)
                 (Ref.drawn Ref.temporal 500))))
  = filterAxisLabels 500 (Ref.ready Ref.temporal 500) (Ref.drawn Ref.temporal 500).
Proof.
  apply (@filterAxisLabels_idempotent Z Ref.env 500 (Ref.ready Ref.temporal 500)
           (Ref.drawn Ref.temporal 500)).
  intros t Hin. vm_compute in Hin.
  repeat (destruct Hin as [<- | Hin]; [reflexivity |]). contradiction.
Defined.

Section FurtherRotate.

Context {D : Type} {E : Env D}.

(** ** Rotation, continued *)

Lemma allTicks_rotated (h : jsnum) (f : Tick D -> Tick D) (ss : list (Svg D)) :
  flat_map (@svg_ticks D) (setFirstSvgHeight h (map (mapTicks f) ss))
  = map f (flat_map (@svg_ticks D) ss).
Proof.
  assert (Hmap : forall l, flat_map (@svg_ticks D) (map (mapTicks f) l)
                           = map f (flat_map (@svg_ticks D) l)).
  { induction l as [| s rest IH]; simpl; [reflexivity |].
    rewrite IH, map_app. reflexivity. }
  destruct ss as [| s rest]; simpl; [reflexivity |].
  rewrite Hmap, map_app. reflexivity.
Qed.


(** The outcome of [rotateAxisLabels] on an ordinal scale, by the greatest
    label width. *)
Lemma rotateAxisLabels_ordinal (self : XAxis D) (sc : Scale D) (p : Panel D) :
  xScale self = VScale sc ->
  kind sc = Ordinal ->
  let m := lodash_max (labelWidths p) in
  let ht := if jgt m (Num 180) then Num 180 else jadd m 15 in
  let a := {| isRotated := jgt m (Num (d3_rangeBand sc));
              xAxisLabelHt := Some ht;
              otherAttrs := otherAttrs (_attr self) |} in
  rotateAxisLabels self p =
  (set_attr self a,
   if jgt m (Num (d3_rangeBand sc))
   then set_svgs p (setFirstSvgHeight ht (map (mapTicks (rotateTick ht)) (svgs p)))
   else p,
   None).
Proof.
  intros Hsc Hkind. unfold rotateAxisLabels. rewrite Hsc, Hkind.
  fold (labelWidths p). unfold maxRotatedLength, xAxisPadding.
  destruct (jgt (lodash_max (labelWidths p)) (Num (d3_rangeBand sc)));
    destruct (jgt (lodash_max (labelWidths p)) (Num 180)); reflexivity.
Qed.


(** X8.  On an ordinal scale [rotateAxisLabels] never changes a label of
    rendered width at most 180, whether it rotates or not: truncation only
    reaches labels wider than [maxRotatedLength], and when the axis is
    rotated each of those ends in three dots. *)
Theorem rotateAxisLabels_truncates_over_180 (self : XAxis D) (sc : Scale D)
  (p : Panel D) :
  xScale self = VScale sc ->
  kind sc = Ordinal ->
  let self' := fst (fst (rotateAxisLabels self p)) in
  let p' := snd (fst (rotateAxisLabels self p)) in
  Forall2 (fun t t' =>
             (textWidth (text t) <= 180 -> text t' = text t) /\
             (isRotated (_attr self') = true -> 180 < textWidth (text t) ->
              exists pre : string, text t' = (pre ++ "...")%string))
          (allTicks p) (allTicks p').
Proof.
  intros Hsc Hkind self' p'. subst self' p'.
  rewrite (rotateAxisLabels_ordinal self sc p Hsc Hkind).
  cbn [fst snd set_attr _attr isRotated].
  destruct (jgt (lodash_max (labelWidths p)) (Num (d3_rangeBand sc))) eqn:Hbar.
  - assert (Hne : labelWidths p <> []).
    { intro Hnil. rewrite Hnil in Hbar. discriminate. }
    destruct (lodash_max_greatest (labelWidths p) Hne) as (m & Hm & _ & Hall).
    rewrite Hm. unfold allTicks at 2. simpl svgs. rewrite allTicks_rotated.
    fold (allTicks p). unfold labelWidths in Hall.
    assert (Hticks : forall t, In t (allTicks p) -> textWidth (text t) <= m).
    { intros t Hin. apply Hall. apply in_map_iff. exists t. split; auto. }
    clear Hall Hm Hbar Hne.
    induction (allTicks p) as [| t rest IH]; simpl; constructor.
    + pose proof (Hticks t (or_introl eq_refl)) as Ht.
      destruct (Qltb 180 m) eqn:Hcap; simpl.
      * split.
        { intro Hfit. apply truncateLabel_fits. exact Hfit. }
        { intros _ Hwide. rewrite (truncateLabel_cuts _ _ Hwide).
          eexists. reflexivity. }
      * apply Qltb_ge in Hcap. split.
        { intros _. apply truncateLabel_fits. lra. }
        { intros _ Hwide. lra. }
    + apply IH. intros t' Hin. apply Hticks. right. exact Hin.
  - induction (allTicks p); constructor; auto.
    split; [reflexivity | discriminate].
Qed.

(** X9.  On an ordinal scale and a panel without tick labels,
    [rotateAxisLabels] leaves the panel alone, [isRotated] false and
    [xAxisLabelHt] at [-Infinity] ([_.max] of the empty array, plus 15). *)
Theorem rotateAxisLabels_no_ticks (self : XAxis D) (sc : Scale D) (p : Panel D) :
  xScale self = VScale sc ->
  kind sc = Ordinal ->
  allTicks p = [] ->
  rotateAxisLabels self p =
  (set_attr self {| isRotated := false; xAxisLabelHt := Some NegInf;
                    otherAttrs := otherAttrs (_attr self) |},
   p, None).
Proof.
  intros Hsc Hkind Hnil.
  rewrite (rotateAxisLabels_ordinal self sc p Hsc Hkind).
  unfold labelWidths. rewrite Hnil. reflexivity.
Qed.

(** X10.  [rotateAxisLabels] returns normally exactly when [xScale] holds an
    ordinal scale; otherwise reading the band width is a [TypeError], raised
    before anything is written: the instance, [isRotated] included, and the
    panel are as they were. *)
Theorem rotateAxisLabels_needs_ordinal_scale (self : XAxis D) (p : Panel D) :
  (snd (rotateAxisLabels self p) = None <->
   exists sc, xScale self = VScale sc /\ kind sc = Ordinal) /\
  (snd (rotateAxisLabels self p) <> None ->
   rotateAxisLabels self p = (self, p, Some TypeError)).
Proof.
  destruct (xScale self) as [| n | sc] eqn:Hsc.
  - unfold rotateAxisLabels. rewrite Hsc. simpl. split; [| reflexivity].
    split; [discriminate | intros (sc & Heq & _); discriminate].
  - unfold rotateAxisLabels. rewrite Hsc. simpl. split; [| reflexivity].
    split; [discriminate | intros (sc & Heq & _); discriminate].
  - destruct (kind sc) eqn:Hkind.
    + unfold rotateAxisLabels. rewrite Hsc, Hkind. simpl. split; [| reflexivity].
      split; [discriminate |].
      intros (sc' & Heq & Hk). injection Heq as <-. congruence.
    + rewrite (rotateAxisLabels_ordinal self sc p Hsc Hkind). simpl.
      split; [| congruence].
      split; [intros _; exists sc; split; auto | reflexivity].
Qed.

End FurtherRotate.


(** Witness for X8. *)
Lemma rotateAxisLabels_truncates_over_180_witness :
  let self := Ref.ready Ref.categorical 120 in
  let p := Ref.drawn Ref.categorical 120 in
  let self' := fst (fst (rotateAxisLabels self p)) in
  let p' := snd (fst (rotateAxisLabels self p)) in
  Forall2 (fun t t' =>
             (textWidth (text t) <= 180 -> text t' = text t) /\
             (isRotated (_attr self') = true -> 180 < textWidth (text t) ->
              exists pre : string, text t' = (pre ++ "...")%string))
          (allTicks p) (allTicks p').
Proof.
  apply (@rotateAxisLabels_truncates_over_180 Z Ref.env
           (Ref.ready Ref.categorical 120)
           (Ref.scaleOf Ref.categorical 120) (Ref.drawn Ref.categorical 120));
    reflexivity.
Defined.

(** Witness for X9. *)
Lemma rotateAxisLabels_no_ticks_witness :
  rotateAxisLabels (Ref.ready Ref.categorical 120) (Ref.emptyPanel 120 25) =
  (set_attr (Ref.ready Ref.categorical 120)
     {| isRotated := false; xAxisLabelHt := Some NegInf;
        otherAttrs := otherAttrs (_attr (Ref.ready Ref.categorical 120)) |},
   Ref.emptyPanel 120 25, None).
Proof.
  apply (@rotateAxisLabels_no_ticks Z Ref.env (Ref.ready Ref.categorical 120)
           (Ref.scaleOf Ref.categorical 120) (Ref.emptyPanel 120 25));
    reflexivity.
Defined.

Section FurtherRender.

Context {D : Type} {E : Env D}.

(** ** The loop over the panels, continued *)

(** The loop over [ps ++ [p]]: when the loop over [ps] ends normally, the
    last step runs on the instance it left. *)
Lemma each_snoc (f : XAxis D -> Panel D -> XAxis D * Panel D * option error)
  (ps : list (Panel D)) (p : Panel D) (self : XAxis D) :
  snd (each f self ps) = None ->
  each f self (ps ++ [p]) =
  (fst (fst (f (fst (fst (each f self ps))) p)),
   snd (fst (each f self ps)) ++ [snd (fst (f (fst (fst (each f self ps))) p))],
   snd (f (fst (fst (each f self ps))) p)).
Proof.
  revert self. induction ps as [| p0 rest IH]; intros self Hok; simpl.
  - destruct (f self p) as [[s1 p1] [e |]]; reflexivity.
  - simpl in Hok. destruct (f self p0) as [[s1 p1] [e |]]; [discriminate |].
    specialize (IH s1). destruct (each f s1 rest) as [[s2 rest2] r2].
    simpl in Hok. rewrite (IH Hok). simpl.
    destruct (f s2 p) as [[s3 p3] r3]. reflexivity.
Qed.

(** X11.  When [filterOrRotate] takes the rotation branch over several
    panels with an ordinal scale installed, [isRotated] and [xAxisLabelHt]
    are left as the last panel alone decides them: each panel's pass resets
    and rewrites both, whatever the earlier panels needed. *)
Theorem filterOrRotate_last_panel_decides (self : XAxis D) (dom : Dom D)
  (sc : Scale D) (ps : list (Panel D)) (p : Panel D) :
  labelStrategy (ordered self) = RotateLabels ->
  xScale self = VScale sc ->
  kind sc = Ordinal ->
  panels dom = ps ++ [p] ->
  let a := _attr (fst (fst (filterOrRotate self dom))) in
  let m := lodash_max (labelWidths p) in
  isRotated a = jgt m (Num (d3_rangeBand sc)) /\
  xAxisLabelHt a = Some (if jgt m (Num 180) then Num 180 else jadd m 15).
Proof.
  intros Hstrat Hsc Hkind Hpanels a m. subst a m.
  unfold filterOrRotate. rewrite Hstrat, Hpanels.
  set (f := fun (s : XAxis D) (axis : Panel D) => rotateAxisLabels s axis).
  assert (Hinv : forall s q,
             xScale s = VScale sc ->
             snd (f s q) = None /\ xScale (fst (fst (f s q))) = VScale sc).
  { intros s q Hs. unfold f.
    rewrite (rotateAxisLabels_ordinal s sc q Hs Hkind). simpl. split; auto. }
  pose proof (each_no_error f (fun s => xScale s = VScale sc) Hinv ps self Hsc)
    as Hok.
  pose proof (each_self f (fun s => xScale s = VScale sc)
                (fun s q Hs => proj2 (Hinv s q Hs)) ps self Hsc) as Hsc1.
  rewrite (each_snoc f ps p self Hok).
  set (self1 := fst (fst (each f self ps))) in *.
  clearbody self1. subst f. cbv beta.
  rewrite (rotateAxisLabels_ordinal self1 sc p Hsc1 Hkind).
  destruct (jgt (lodash_max (labelWidths p)) (Num (d3_rangeBand sc)));
    simpl; split; reflexivity.
Qed.

(** ** Outcome of a render pass *)

Lemma each_drawPanel_ok_iff (n : nat) (parentWidth : Q)
  (ps : list (Panel D)) (self : XAxis D) :
  snd (each (drawPanel n parentWidth) self ps) = None <->
  Forall (fun p => validateWidthandHeight
                     (parentWidth / inject_Z (Z.of_nat n)) (div_height p) = true)
         ps.
Proof.
  revert self. induction ps as [| p rest IH]; intro self; simpl.
  - split; [constructor | reflexivity].
  - destruct (drawPanel_cases n parentWidth self p)
      as [[Hv Heq] | [Hv [ticks Heq]]]; rewrite Heq; simpl.
    + split; [discriminate |]. intro Hall. inversion Hall; congruence.
    + specialize (IH (fst (getXAxis self (parentWidth / inject_Z (Z.of_nat n))))).
      destruct (each (drawPanel n parentWidth) _ rest) as [[s2 rest2] r2].
      simpl in *. rewrite IH. split.
      * intro Hall. constructor; assumption.
      * intro Hall. inversion Hall; assumption.
Qed.

(** The label pass after the drawing loop never raises. *)
Lemma render_error_is_draw_error (self : XAxis D) (dom : Dom D) :
  snd (render self dom) =
  snd (each (drawPanel (List.length (panels dom)) (x_axis_div_wrapper_width dom))
            (set_attr self (set_isRotated false (_attr self))) (panels dom)).
Proof.
  pose proof (render_errors self dom) as Herr.
  unfold render, draw in *.
  destruct (each _ _ (panels dom)) as [[self1 ps1] [e |]] eqn:Heach; simpl in *.
  - reflexivity.
  - destruct Herr as [Hnone | Hsmall]; [exact Hnone |].
    exfalso.
    pose proof (each_drawPanel_scale (List.length (panels dom))
                  (x_axis_div_wrapper_width dom)
                  (set_attr self (set_isRotated false (_attr self)))
                  (panels dom) _ eq_refl eq_refl) as Hdrawn.
    pose proof (each_length (drawPanel (List.length (panels dom))
                               (x_axis_div_wrapper_width dom))
                  (set_attr self (set_isRotated false (_attr self)))
                  (panels dom)) as Hlen.
    rewrite Heach in Hdrawn, Hlen. simpl in Hdrawn, Hlen.
    destruct (Hdrawn eq_refl) as (_ & Ho & Hsc).
    unfold filterOrRotate in Hsmall. simpl panels in Hsmall.
    match type of Hsmall with context [each ?f self1 ps1] =>
      pose proof (each_no_error f
                    (fun s => exists sc, xScale s = VScale sc /\
                                         (isDate (ordered self) = false ->
                                          kind sc = Ordinal))) as Hnone;
      destruct (each f self1 ps1) as [[self2 ps2] r2] eqn:Heach2
    end.
    assert (Hr2 : r2 = None).
    { destruct Hsc as [Hnil | Hsc].
      - rewrite Hnil in Hlen. destruct ps1; [| discriminate].
        simpl in Heach2. injection Heach2 as _ _ <-. reflexivity.
      - change r2 with (snd (self2, ps2, r2)). rewrite <- Heach2.
        apply Hnone; [| exact Hsc].
        intros s p (sc & Hs & Hk).
        rewrite Ho. simpl ordered. unfold labelStrategy, notOrdered.
        destruct (ordered self) as [| | obj] eqn:Hord; simpl.
        + rewrite (rotateAxisLabels_ordinal s sc p Hs (Hk eq_refl)). simpl.
          split; [reflexivity | exists sc; split; auto].
        + rewrite (rotateAxisLabels_ordinal s sc p Hs (Hk eq_refl)). simpl.
          split; [reflexivity | exists sc; split; auto].
        + unfold filterAxisLabels. rewrite Hs. simpl.
          split; [reflexivity | exists sc; split; auto]. }
    subst r2. simpl in Hsmall. discriminate.
Qed.

(** X12.  A render pass ends normally exactly when
    [validateWidthandHeight] accepts the common panel width with the height
    of every panel; otherwise it ends with the exception of that check.  No
    other error leaves [render]: the guard of [getXAxis] and the
    [TypeError]s of the label passes cannot fire there. *)
Theorem render_succeeds_iff (self : XAxis D) (dom : Dom D) :
  (snd (render self dom) = None <->
   Forall (fun p => validateWidthandHeight (panelWidth dom) (div_height p) = true)
          (panels dom)) /\
  (snd (render self dom) <> None ->
   snd (render self dom) = Some ContainerTooSmall).
Proof.
  split.
  - rewrite render_error_is_draw_error. apply each_drawPanel_ok_iff.
  - destruct (render_errors self dom) as [-> | ->]; [congruence | reflexivity].
Qed.

(** X13.  On a selection without panels [render] builds no scale and draws
    nothing: it resets [isRotated], synchronises the spacer blocks and the
    titles, and returns normally. *)
Theorem render_no_panels (self : XAxis D) (dom : Dom D) :
  panels dom = [] ->
  render self dom =
  (set_attr self (set_isRotated false (_attr self)),
   fitTitles (updateXaxisHeight dom), None).
Proof.
  intro Hnil. destruct dom as [w ps vs]. simpl in Hnil. subst ps. reflexivity.
Qed.

End FurtherRender.

(** Witness for X11: a panel with three months, then a panel with none. *)
Lemma filterOrRotate_last_panel_decides_witness :
  let self := Ref.ready Ref.categorical 120 in
  let dom := {| x_axis_div_wrapper_width := 240;
                panels := [Ref.drawn Ref.categorical 120] ++ [Ref.emptyPanel 120 25];
                vis_wrappers := [] |} in
  let a := _attr (fst (fst (filterOrRotate self dom))) in
  let m := lodash_max (labelWidths (Ref.emptyPanel 120 25)) in
  isRotated a = jgt m (Num (d3_rangeBand (Ref.scaleOf Ref.categorical 120))) /\
  xAxisLabelHt a = Some (if jgt m (Num 180) then Num 180 else jadd m 15).
Proof.
  apply (@filterOrRotate_last_panel_decides Z Ref.env
           (Ref.ready Ref.categorical 120)
           {| x_axis_div_wrapper_width := 240;
              panels := [Ref.drawn Ref.categorical 120] ++ [Ref.emptyPanel 120 25];
              vis_wrappers := [] |}
           (Ref.scaleOf Ref.categorical 120)
           [Ref.drawn Ref.categorical 120] (Ref.emptyPanel 120 25));
    reflexivity.
Defined.

(** Witness for X13. *)
Lemma render_no_panels_witness :
  render Ref.categorical
    {| x_axis_div_wrapper_width := 120; panels := [];
       vis_wrappers := [Ref.wrapper0] |} =
  (set_attr Ref.categorical (set_isRotated false (_attr Ref.categorical)),
   fitTitles (updateXaxisHeight
                {| x_axis_div_wrapper_width := 120; panels := [];
                   vis_wrappers := [Ref.wrapper0] |}),
   None).
Proof.
  apply (@render_no_panels Z Ref.env Ref.categorical
           {| x_axis_div_wrapper_width := 120; panels := [];
              vis_wrappers := [Ref.wrapper0] |}).
  reflexivity.
Defined.

Section FurtherFrame.

Context {D : Type} {E : Env D}.

(** ** What a render pass keeps, installs and leaves behind *)

(** The configuration of an instance: what the constructor received. *)
Definition SameConfig (self0 self : XAxis D) : Prop :=
  xValues self = xValues self0 /\
  ordered self = ordered self0 /\
  xAxisFormatter self = xAxisFormatter self0 /\
  otherAttrs (_attr self) = otherAttrs (_attr self0).

Definition SameBox (p p' : Panel D) : Prop :=
  div_width p' = div_width p /\ div_height p' = div_height p.

Lemma drawPanel_keeps (n : nat) (parentWidth : Q) (self0 self : XAxis D)
  (p : Panel D) :
  SameConfig self0 self ->
  SameConfig self0 (fst (fst (drawPanel n parentWidth self p))) /\
  SameBox p (snd (fst (drawPanel n parentWidth self p))).
Proof.
  intro Hcfg.
  destruct (drawPanel_cases n parentWidth self p) as [[_ ->] | [_ [ticks ->]]];
    simpl; split; try exact Hcfg; split; reflexivity.
Qed.

Lemma rotateAxisLabels_keeps (self0 self : XAxis D) (p : Panel D) :
  SameConfig self0 self ->
  SameConfig self0 (fst (fst (rotateAxisLabels self p))) /\
  SameBox p (snd (fst (rotateAxisLabels self p))) /\
  xScale (fst (fst (rotateAxisLabels self p))) = xScale self /\
  xAxis (fst (fst (rotateAxisLabels self p))) = xAxis self.
Proof.
  intro Hcfg.
  destruct (xScale self) as [| n | sc] eqn:Hsc;
    try (unfold rotateAxisLabels; rewrite Hsc; simpl;
         repeat split; solve [apply Hcfg | assumption]).
  destruct (kind sc) eqn:Hkind.
  - unfold rotateAxisLabels. rewrite Hsc, Hkind. simpl.
    repeat split; solve [apply Hcfg | assumption].
  - rewrite (rotateAxisLabels_ordinal self sc p Hsc Hkind).
    destruct (jgt (lodash_max (labelWidths p)) (Num (d3_rangeBand sc))); simpl;
      repeat split; solve [apply Hcfg | assumption].
Qed.

Lemma filterAxisLabels_keeps (maxW : Q) (self : XAxis D) (p : Panel D) :
  fst (fst (filterAxisLabels maxW self p)) = self /\
  SameBox p (snd (fst (filterAxisLabels maxW self p))).
Proof.
  unfold filterAxisLabels.
  destruct (xScale self) as [| n | sc]; simpl;
    try (destruct (allTicks p)); repeat split; reflexivity.
Qed.

Lemma labelPass_keeps (self0 : XAxis D) (o : Ordered D) (maxW : Q)
  (self : XAxis D) (p : Panel D) :
  let step := match labelStrategy o with
              | RotateLabels => rotateAxisLabels self p
              | FilterLabels => filterAxisLabels maxW self p
              end in
  SameConfig self0 self ->
  SameConfig self0 (fst (fst step)) /\
  SameBox p (snd (fst step)) /\
  xScale (fst (fst step)) = xScale self /\
  xAxis (fst (fst step)) = xAxis self.
Proof.
  intros step Hcfg. subst step. destruct (labelStrategy o).
  - apply rotateAxisLabels_keeps. exact Hcfg.
  - destruct (filterAxisLabels_keeps maxW self p) as [-> Hbox].
    repeat split; solve [apply Hcfg | apply Hbox].
Qed.

(** The loop under an invariant of the instance: every step keeps the
    invariant and relates the panel it received to the panel it left. *)
Lemma each_invariant (f : XAxis D -> Panel D -> XAxis D * Panel D * option error)
  (P : XAxis D -> Prop) (R : Panel D -> Panel D -> Prop) :
  (forall p, R p p) ->
  (forall self p, P self ->
                  P (fst (fst (f self p))) /\ R p (snd (fst (f self p)))) ->
  forall (ps : list (Panel D)) (self : XAxis D),
    P self ->
    P (fst (fst (each f self ps))) /\
    Forall2 R ps (snd (fst (each f self ps))).
Proof.
  intros Hrefl Hstep ps. induction ps as [| p rest IH]; intros self HP; simpl.
  - split; [assumption | constructor].
  - destruct (Hstep self p HP) as [HP1 HR1].
    destruct (f self p) as [[self1 p1] [e |]]; simpl in *.
    + split; [assumption |]. constructor; [assumption |].
      clear - Hrefl. induction rest; constructor; auto.
    + destruct (IH self1 HP1) as [HP2 HR2].
      destruct (each f self1 rest) as [[self2 rest2] r].
      simpl in *. split; [assumption |]. constructor; assumption.
Qed.

(** X14.  Whatever its outcome, a render pass leaves the configuration of
    the instance (the values, the ordering, the formatter) and the entries
    of [_attr] other than [isRotated] and [xAxisLabelHt] as they were: the
    two loops write [xScale], [xAxis], [isRotated] and [xAxisLabelHt] and
    nothing else of [this]. *)
Theorem render_keeps_configuration (self : XAxis D) (dom : Dom D) :
  let self' := fst (fst (render self dom)) in
  xValues self' = xValues self /\
  ordered self' = ordered self /\
  xAxisFormatter self' = xAxisFormatter self /\
  otherAttrs (_attr self') = otherAttrs (_attr self).
Proof.
  intros self'. subst self'. unfold render, draw.
  set (self0 := set_attr self (set_isRotated false (_attr self))).
  set (n := List.length (panels dom)).
  set (W := x_axis_div_wrapper_width dom).
  assert (Hcfg0 : SameConfig self self0) by (repeat split).
  assert (Hrefl : forall p : Panel D, SameBox p p) by (split; reflexivity).
  destruct (each_invariant (drawPanel n W) (SameConfig self) SameBox Hrefl
              (fun s p H => drawPanel_keeps n W self s p H)
              (panels dom) self0 Hcfg0) as [Hcfg1 _].
  destruct (each (drawPanel n W) self0 (panels dom)) as [[self1 ps1] [e |]];
    simpl in Hcfg1; simpl.
  - exact Hcfg1.
  - unfold filterOrRotate. simpl panels.
    match goal with |- context [each ?f self1 ps1] =>
      destruct (each_invariant f (SameConfig self) SameBox Hrefl
                  (fun s p H =>
                     let K := labelPass_keeps self (ordered self1)
                                (axisDivWidth (set_panels dom ps1)) s p H in
                     conj (proj1 K) (proj1 (proj2 K)))
                  ps1 self1 Hcfg1) as [Hcfg2 _];
      destruct (each f self1 ps1) as [[self2 ps2] r2]
    end.
    simpl in Hcfg2.
    destruct r2; simpl; exact Hcfg2.
Qed.

(** What [getXAxis] installs for a width, given the configuration. *)
Definition Installed (self0 : XAxis D) (width : Q) (self : XAxis D) : Prop :=
  xScale self = VScale (getXScale self0 (ordered self0) width) /\
  xAxis self = Some {| axis_scale := VScale (getXScale self0 (ordered self0) width);
                       axis_ticks := 10%Z;
                       axis_tickFormat := xAxisFormatter self0;
                       axis_orient := Bottom |}.

Lemma getXScale_config (self0 self : XAxis D) (o : Ordered D) (width : Q) :
  xValues self = xValues self0 ->
  getXScale self o width = getXScale self0 o width.
Proof.
  intro Hx. unfold getXScale, getDomain. rewrite Hx. reflexivity.
Qed.

Lemma getXAxis_installs (self0 self : XAxis D) (width : Q) :
  SameConfig self0 self ->
  Installed self0 width (fst (getXAxis self width)).
Proof.
  intros (Hx & Ho & Hf & _). rewrite getXAxis_builds. simpl.
  rewrite Ho, Hf, (getXScale_config self0 self _ _ Hx). split; reflexivity.
Qed.

Lemma each_drawPanel_installs (n : nat) (parentWidth : Q) (self0 : XAxis D) :
  forall (ps : list (Panel D)) (self : XAxis D),
    SameConfig self0 self ->
    ps <> [] ->
    snd (each (drawPanel n parentWidth) self ps) = None ->
    Installed self0 (parentWidth / inject_Z (Z.of_nat n))
              (fst (fst (each (drawPanel n parentWidth) self ps))).
Proof.
  induction ps as [| p rest IH]; intros self Hcfg Hne; [congruence |].
  simpl.
  destruct (drawPanel_keeps n parentWidth self0 self p Hcfg) as [Hcfg1 _].
  destruct (drawPanel_cases n parentWidth self p)
    as [[_ Heq] | [_ [ticks Heq]]]; rewrite Heq in *; [discriminate |].
  simpl in Hcfg1.
  destruct rest as [| q rest'].
  - simpl. intros _. apply getXAxis_installs. exact Hcfg.
  - specialize (IH _ Hcfg1 ltac:(discriminate)).
    destruct (each (drawPanel n parentWidth) _ (q :: rest')) as [[s2 r2] e2].
    simpl in *. intros ->. apply IH. reflexivity.
Qed.

(** X15.  After a render pass that ends normally over at least one panel,
    [xScale] holds the scale built from the configuration for the common
    panel width, and [xAxis] the generator over that scale with ten ticks,
    the formatter of the instance and the bottom orientation. *)
Theorem render_installs_scale (self : XAxis D) (dom : Dom D) :
  panels dom <> [] ->
  snd (render self dom) = None ->
  let self' := fst (fst (render self dom)) in
  let sc := getXScale self (ordered self) (panelWidth dom) in
  xScale self' = VScale sc /\
  xAxis self' = Some {| axis_scale := VScale sc; axis_ticks := 10%Z;
                        axis_tickFormat := xAxisFormatter self;
                        axis_orient := Bottom |}.
Proof.
  intros Hne Hok self' sc. subst self' sc.
  change (Installed self (panelWidth dom) (fst (fst (render self dom)))).
  revert Hok. unfold render, draw, panelWidth.
  set (self0 := set_attr self (set_isRotated false (_attr self))).
  set (n := List.length (panels dom)).
  set (W := x_axis_div_wrapper_width dom).
  assert (Hcfg0 : SameConfig self self0) by (repeat split).
  pose proof (each_drawPanel_installs n W self (panels dom) self0 Hcfg0 Hne)
    as Hinst.
  destruct (each_invariant (drawPanel n W) (SameConfig self) SameBox
              (fun p => conj eq_refl eq_refl)
              (fun s p H => drawPanel_keeps n W self s p H)
              (panels dom) self0 Hcfg0) as [Hcfg1 _].
  destruct (each (drawPanel n W) self0 (panels dom)) as [[self1 ps1] [e |]];
    simpl in Hinst, Hcfg1; simpl; [discriminate |].
  specialize (Hinst eq_refl). intros _.
  unfold filterOrRotate. simpl panels.
  match goal with |- context [each ?f self1 ps1] =>
    pose proof (each_self f
                  (fun s => SameConfig self s /\
                            Installed self (W / inject_Z (Z.of_nat n)) s)) as Hkeep;
    destruct (each f self1 ps1) as [[self2 ps2] r2] eqn:Heach
  end.
  assert (H2 : SameConfig self self2 /\ Installed self (W / inject_Z (Z.of_nat n)) self2).
  { change self2 with (fst (fst (self2, ps2, r2))). rewrite <- Heach.
    apply Hkeep; [| split; assumption].
    intros s p [Hs [Hi1 Hi2]].
    destruct (labelPass_keeps self (ordered self1)
                (axisDivWidth (set_panels dom ps1)) s p Hs) as (Hs' & _ & Hx & Ha).
    split; [exact Hs' |]. split; congruence. }
  destruct r2; simpl; apply H2.
Qed.

End FurtherFrame.

Section FurtherLayout.

Context {D : Type} {E : Env D}.

(** ** A pass that fails *)

(** The ticks a fresh axis draws for a configuration and a width. *)
Definition freshTicks (self0 : XAxis D) (width : Q) : list (Tick D) :=
  map (newTick (xAxisFormatter self0))
      (d3_axis_ticks (getXScale self0 (ordered self0) width)).

Definition freshSvg (self0 : XAxis D) (width : Q) (p : Panel D) : Svg D :=
  {| svg_width := width; svg_height := Num (div_height p);
     svg_ticks := freshTicks self0 width |}.

Lemma drawPanel_draws (n : nat) (parentWidth : Q) (self0 self : XAxis D)
  (p : Panel D) :
  SameConfig self0 self ->
  validateWidthandHeight (parentWidth / inject_Z (Z.of_nat n)) (div_height p) = true ->
  drawPanel n parentWidth self p =
  (fst (getXAxis self (parentWidth / inject_Z (Z.of_nat n))),
   appendSvg p (freshSvg self0 (parentWidth / inject_Z (Z.of_nat n)) p),
   None).
Proof.
  intros (Hx & Ho & Hf & _) Hv. unfold drawPanel. rewrite Hv, getXAxis_builds.
  unfold freshSvg, freshTicks. simpl.
  rewrite Ho, Hf, (getXScale_config self0 self _ _ Hx). reflexivity.
Qed.

Lemma each_drawPanel_stops (n : nat) (parentWidth : Q) (self0 : XAxis D) :
  let width := parentWidth / inject_Z (Z.of_nat n) in
  forall (ps : list (Panel D)) (self : XAxis D),
    SameConfig self0 self ->
    snd (each (drawPanel n parentWidth) self ps) <> None ->
    exists (before : list (Panel D)) (bad : Panel D) (after : list (Panel D)),
      ps = before ++ bad :: after /\
      Forall (fun p => validateWidthandHeight width (div_height p) = true) before /\
      validateWidthandHeight width (div_height bad) = false /\
      snd (fst (each (drawPanel n parentWidth) self ps))
      = map (fun p => appendSvg p (freshSvg self0 width p)) before ++ bad :: after.
Proof.
  intro width. induction ps as [| p rest IH]; intros self Hcfg; simpl.
  - congruence.
  - destruct (validateWidthandHeight width (div_height p)) eqn:Hv.
    + rewrite (drawPanel_draws n parentWidth self0 self p Hcfg Hv).
      destruct (drawPanel_keeps n parentWidth self0 self p Hcfg) as [Hcfg1 _].
      rewrite (drawPanel_draws n parentWidth self0 self p Hcfg Hv) in Hcfg1.
      simpl in Hcfg1. specialize (IH _ Hcfg1).
      destruct (each (drawPanel n parentWidth) _ rest) as [[s2 r2] e2].
      simpl in *. intro Hfail.
      destruct (IH Hfail) as (before & bad & after & Heq & Hall & Hbad & Hres).
      exists (p :: before), bad, after. subst rest. simpl.
      repeat split; auto. rewrite Hres. reflexivity.
    + intros _. exists [], p, rest. simpl.
      destruct (drawPanel_cases n parentWidth self p)
        as [[_ Heq] | [Hv' _]]; [| fold width in Hv'; congruence].
      rewrite Heq. simpl. repeat split; auto.
Qed.

(** X16.  A render pass that fails leaves the document half drawn: the
    panels before the first one that [validateWidthandHeight] refuses each
    received their new [svg], with the ticks as the axis drew them (no label
    pass has run), while that panel and the ones after it are untouched. *)
Theorem render_failure_partial (self : XAxis D) (dom : Dom D) :
  snd (render self dom) <> None ->
  let width := panelWidth dom in
  exists (before : list (Panel D)) (bad : Panel D) (after : list (Panel D)),
    panels dom = before ++ bad :: after /\
    Forall (fun p => validateWidthandHeight width (div_height p) = true) before /\
    validateWidthandHeight width (div_height bad) = false /\
    panels (snd (fst (render self dom)))
    = map (fun p =>
             appendSvg p
               {| svg_width := width; svg_height := Num (div_height p);
                  svg_ticks :=
                    map (newTick (xAxisFormatter self))
                        (d3_axis_ticks (getXScale self (ordered self) width)) |})
          before
      ++ bad :: after.
Proof.
  intros Hfail width. rewrite render_error_is_draw_error in Hfail.
  assert (Hcfg0 : SameConfig self (set_attr self (set_isRotated false (_attr self))))
    by (repeat split).
  pose proof (each_drawPanel_stops (List.length (panels dom))
                (x_axis_div_wrapper_width dom) self (panels dom) _ Hcfg0 Hfail)
    as Hstops.
  unfold render, draw.
  destruct (each _ _ (panels dom)) as [[self1 ps1] [e |]]; simpl in *;
    [| congruence].
  exact Hstops.
Qed.


(** X17.  The spacer blocks and the titles are synchronised exactly when the
    pass ends normally: then every [.vis-wrapper] has gone through
    [updateXaxisHeight] and then [fitTitles]; after an exception none has
    been touched. *)
Theorem render_layout (self : XAxis D) (dom : Dom D) :
  let dom' := snd (fst (render self dom)) in
  (snd (render self dom) = None ->
   vis_wrappers dom'
   = map fitTitlesIn (map updateXaxisHeightIn (vis_wrappers dom))) /\
  (snd (render self dom) <> None ->
   vis_wrappers dom' = vis_wrappers dom).
Proof.
  intro dom'. subst dom'. unfold render, draw.
  destruct (each _ _ (panels dom)) as [[self1 ps1] [e |]]; simpl.
  - split; [discriminate | reflexivity].
  - unfold filterOrRotate.
    destruct (each _ self1 _) as [[self2 ps2] [e2 |]]; simpl.
    + split; [discriminate | reflexivity].
    + split; [reflexivity | congruence].
Qed.

(** ** The generator and the layout passes *)

Lemma updateXaxisHeightIn_idempotent (v : VisWrapper) :
  updateXaxisHeightIn (updateXaxisHeightIn v) = updateXaxisHeightIn v.
Proof.
  destruct v as [ie xw yh xt yt xc yc sp inner ht].
  unfold updateXaxisHeightIn. simpl.
  destruct ie; [| reflexivity].
  destruct inner as [b |]; simpl; [reflexivity |].
  destruct sp; reflexivity.
Qed.

(** X18.  [updateXaxisHeight] is idempotent and creates the inner spacer
    block at most once: after it, every [.vis-wrapper] under the element
    that has a spacer block or already had the inner block holds one inner
    block whose height is the height of the axis wrapper, and a wrapper
    outside the element, or without a spacer block, is unchanged. *)
Theorem updateXaxisHeight_settles (dom : Dom D) :
  updateXaxisHeight (updateXaxisHeight dom) = updateXaxisHeight dom /\
  Forall2 (fun v v' =>
             if (in_el v && (y_axis_spacer_block v ||
                             match inner_spacer_block v with
                             | Some _ => true
                             | None => false
                             end))%bool
             then v' = set_inner_spacer_block
                         (Some (Some (x_axis_wrapper_height v))) v
             else v' = v)
          (vis_wrappers dom) (vis_wrappers (updateXaxisHeight dom)).
Proof.
  split.
  - unfold updateXaxisHeight, set_vis_wrappers. simpl. f_equal.
    rewrite map_map. apply map_ext. apply updateXaxisHeightIn_idempotent.
  - unfold updateXaxisHeight. simpl.
    induction (vis_wrappers dom) as [| v rest IH]; simpl; constructor; auto.
    unfold updateXaxisHeightIn.
    destruct (in_el v); simpl; [| reflexivity].
    destruct (inner_spacer_block v) as [b |] eqn:Hinner.
    + rewrite Hinner, orb_true_r. reflexivity.
    + destruct (y_axis_spacer_block v); simpl; [reflexivity |].
      rewrite Hinner. reflexivity.
Qed.

Lemma fitChartTitles_idempotent (fit : Q -> Title -> Title)
  (row : option (list (Q * Title))) :
  (forall m t, fit m (fit m t) = fit m t) ->
  fitChartTitles fit (fitChartTitles fit row) = fitChartTitles fit row.
Proof.
  intro Hfit. destruct row as [[| [m t] rest] |]; try reflexivity.
  simpl. rewrite Hfit. do 2 f_equal.
  rewrite map_map. apply map_ext. intros [m' t']. simpl. rewrite Hfit. reflexivity.
Qed.

(** X19.  [fitTitles] is idempotent, and in a row of chart titles every
    title takes the measure of the first title of the row, not its own: all
    the [svg]s of the row get that one size and the matching translation. *)
Theorem fitTitles_settles (dom : Dom D) :
  fitTitles (fitTitles dom) = fitTitles dom /\
  Forall2 (fun v v' =>
             forall m t rest,
               x_axis_chart_title v = Some ((m, t) :: rest) ->
               exists row',
                 x_axis_chart_title v' = Some row' /\
                 map fst row' = map fst ((m, t) :: rest) /\
                 Forall (fun mt => snd mt =
                                   {| title_size := Some m;
                                      title_transform := Some (Translate (m / 2) 11) |})
                        row')
          (vis_wrappers dom) (vis_wrappers (fitTitles dom)).
Proof.
  split.
  - unfold fitTitles, set_vis_wrappers. simpl. f_equal.
    rewrite map_map. apply map_ext. intro v. unfold fitTitlesIn. simpl.
    rewrite !fitChartTitles_idempotent by reflexivity. reflexivity.
  - unfold fitTitles. simpl.
    induction (vis_wrappers dom) as [| v rest IH]; simpl; constructor; auto.
    intros m t row Hrow. unfold fitTitlesIn. simpl. rewrite Hrow.
    eexists. split; [reflexivity |]. split.
    + simpl. f_equal. rewrite map_map. reflexivity.
    + constructor; [reflexivity |].
      apply Forall_forall. intros mt Hin.
      apply in_map_iff in Hin. destruct Hin as (mt0 & <- & _). reflexivity.
Qed.

End FurtherLayout.

(** Witness for X15. *)
Lemma render_installs_scale_witness :
  let self' := fst (fst (render Ref.categorical (Ref.onePanel 120 25))) in
  let sc := getXScale Ref.categorical (ordered Ref.categorical)
              (panelWidth (Ref.onePanel 120 25)) in
  xScale self' = VScale sc /\
  xAxis self' = Some {| axis_scale := VScale sc; axis_ticks := 10%Z;
                        axis_tickFormat := xAxisFormatter Ref.categorical;
                        axis_orient := Bottom |}.
Proof.
  apply (@render_installs_scale Z Ref.env Ref.categorical (Ref.onePanel 120 25)).
  - discriminate.
  - vm_compute. reflexivity.
Defined.



(** Witness for X16: two panels, the second of height 0. *)
Lemma render_failure_partial_witness :
  let dom := Ref.twoPanels 240 25 0 in
  let width := panelWidth dom in
  exists (before : list (Panel Z)) (bad : Panel Z) (after : list (Panel Z)),
    panels dom = before ++ bad :: after /\
    Forall (fun p => validateWidthandHeight width (div_height p) = true) before /\
    validateWidthandHeight width (div_height bad) = false /\
    panels (snd (fst (render Ref.categorical dom)))
    = map (fun p =>
             appendSvg p
               {| svg_width := width; svg_height := Num (div_height p);
                  svg_ticks :=
                    map (newTick (xAxisFormatter Ref.categorical))
                        (d3_axis_ticks
                           (getXScale Ref.categorical (ordered Ref.categorical)
                              width)) |})
          before
      ++ bad :: after.
Proof.
  apply (@render_failure_partial Z Ref.env Ref.categorical (Ref.twoPanels 240 25 0)).
  vm_compute. discriminate.
Defined.

(** Witness for X21. *)
Lemma axis_kind_coherent_witness :
  let o := ordered Ref.temporal in
  let sc := getXScale Ref.temporal o 500 in
  (isDate o = true /\ kind sc = TimeUtc /\ range sc = LinearRange 0 500 /\
   labelStrategy o = FilterLabels) \/
  (isDate o = false /\ kind sc = Ordinal /\
   range sc = RangeBands 0 500 (1 # 10) /\
   labelStrategy o = RotateLabels).
Proof.
  apply (@axis_kind_coherent Z Ref.env Ref.temporal (ordered Ref.temporal) 500).
  reflexivity.
Defined.

Section FurtherScale.

Context {D : Type} {E : Env D}.

(** ** What the scale reads *)

Lemma d3_ordinal_domain_subseq (index x : list (option D)) :
  Subseq (d3_ordinal_domain index x) x.
Proof.
  revert index. induction x as [| xi rest IH]; intro index; simpl.
  - constructor.
  - destruct (existsb (same_key xi) index); constructor; apply IH.
Qed.

Lemma d3_ordinal_domain_fresh (index x : list (option D)) :
  Forall (fun b => existsb (same_key b) index = false) (d3_ordinal_domain index x).
Proof.
  revert index. induction x as [| xi rest IH]; intro index; simpl.
  - constructor.
  - destruct (existsb (same_key xi) index) eqn:Hseen; [apply IH |].
    constructor; [exact Hseen |].
    eapply Forall_impl; [| apply (IH (xi :: index))].
    intros b Hb. simpl in Hb. apply orb_false_iff in Hb. apply Hb.
Qed.

Lemma d3_ordinal_domain_distinct (index x : list (option D)) :
  ForallOrdPairs (fun a b => same_key b a = false) (d3_ordinal_domain index x).
Proof.
  revert index. induction x as [| xi rest IH]; intro index; simpl.
  - constructor.
  - destruct (existsb (same_key xi) index); [apply IH |].
    constructor; [| apply IH].
    eapply Forall_impl; [| apply (d3_ordinal_domain_fresh (xi :: index) rest)].
    intros b Hb. simpl in Hb. apply orb_false_iff in Hb. apply Hb.
Qed.

Lemma d3_ordinal_domain_first (index pre post : list (option D)) (x : option D) :
  existsb (same_key x) index = false ->
  (forall y, In y pre -> same_key x y = false) ->
  exists index',
    d3_ordinal_domain index (pre ++ x :: post)
    = d3_ordinal_domain index pre ++ x :: d3_ordinal_domain index' post.
Proof.
  revert index. induction pre as [| y pre IH]; intros index Hindex Hpre; simpl.
  - rewrite Hindex. eexists. reflexivity.
  - assert (Hy : same_key x y = false) by (apply Hpre; left; reflexivity).
    assert (Hrest : forall z, In z pre -> same_key x z = false)
      by (intros z Hz; apply Hpre; right; exact Hz).
    destruct (existsb (same_key y) index).
    + apply IH; assumption.
    + destruct (IH (y :: index)) as [index' Heq]; [| exact Hrest |].
      * simpl. rewrite Hy, Hindex. reflexivity.
      * exists index'. rewrite Heq. reflexivity.
Qed.

(** X22.  The scale of a date ordering is built from the bounds of the
    ordering alone, whatever the values of the instance; the scale of any
    other ordering is built from the values alone, whatever the ordering
    carries, and its domain is the values with their repetitions dropped:
    the values kept stand in their order, no two of them have the same
    string form, and a value whose string form did not occur before it is
    kept in its place. *)
Theorem getXScale_reads (s1 s2 : XAxis D) (o1 o2 : Ordered D) (width : Q) :
  (isDate o1 = true -> getXScale s1 o1 width = getXScale s2 o1 width) /\
  (isDate o1 = false -> isDate o2 = false -> xValues s1 = xValues s2 ->
   getXScale s1 o1 width = getXScale s2 o2 width) /\
  (isDate o1 = false ->
   let dom := domain (getXScale s1 o1 width) in
   Subseq dom (map Some (xValues s1)) /\
   ForallOrdPairs (fun a b => same_key b a = false) dom /\
   forall (pre : list D) (x : D) (post : list D),
     xValues s1 = pre ++ x :: post ->
     (forall y, In y pre -> d3_same_key x y = false) ->
     exists dpre dpost : list (option D),
       dom = dpre ++ Some x :: dpost /\
       Subseq dpre (map Some pre) /\ Subseq dpost (map Some post)).
Proof.
  split; [| split].
  - intro Hdate. unfold getXScale, getScale, getRange, getDomain.
    rewrite Hdate. destruct o1 as [| | obj]; try discriminate.
    simpl in Hdate. rewrite Hdate. reflexivity.
  - intros H1 H2 Hx. unfold getXScale, getScale, getRange, getDomain.
    rewrite H1, H2, Hx.
    destruct o1 as [| | obj1]; destruct o2 as [| | obj2]; simpl in *;
      try rewrite H1; try rewrite H2; reflexivity.
  - intros H1 dom.
    assert (Hdom : dom = d3_ordinal_domain [] (map Some (xValues s1))).
    { subst dom. unfold getXScale, getScale, getRange, getDomain.
      rewrite H1. destruct o1 as [| | obj1]; simpl in *;
        try rewrite H1; reflexivity. }
    rewrite Hdom. split; [apply d3_ordinal_domain_subseq |].
    split; [apply d3_ordinal_domain_distinct |].
    intros pre x post Hsplit Hpre. rewrite Hsplit, map_app. simpl map.
    destruct (d3_ordinal_domain_first [] (map Some pre) (map Some post) (Some x))
      as [index' Heq]; [reflexivity | |].
    + intros y Hy. apply in_map_iff in Hy. destruct Hy as (y0 & <- & Hy0).
      simpl. apply Hpre. exact Hy0.
    + rewrite Heq. do 2 eexists. split; [reflexivity |].
      split; apply d3_ordinal_domain_subseq.
Qed.

(** X23.  After a render pass that fails, [isRotated] is false and
    [xAxisLabelHt] is what it was before the pass: [draw] has reset the
    flag and no label pass has run. *)
Theorem render_failure_attributes (self : XAxis D) (dom : Dom D) :
  snd (render self dom) <> None ->
  _attr (fst (fst (render self dom))) = set_isRotated false (_attr self).
Proof.
  intro Hfail. rewrite render_error_is_draw_error in Hfail.
  unfold render, draw.
  set (self0 := set_attr self (set_isRotated false (_attr self))) in *.
  pose proof (each_self
                (drawPanel (List.length (panels dom)) (x_axis_div_wrapper_width dom))
                (fun s => _attr s = _attr self0)
                (fun s p H => eq_trans (proj1 (drawPanel_attr _ _ s p)) H)
                (panels dom) self0 eq_refl) as Hattr.
  destruct (each _ self0 (panels dom)) as [[self1 ps1] [e |]]; simpl in *;
    [exact Hattr | congruence].
Qed.

End FurtherScale.

(** An ordinal scale over the values 1, 1, 2 has the domain 1, 2. *)
Example ordinal_domain_drops_repetitions :
  domain (getXScale {| xValues := [1; 1; 2]%Z; ordered := Undefined;
                       xAxisFormatter := Ref.months; _attr := Ref.attr0;
                       xScale := VUndefined; xAxis := None |}
            Undefined 500)
  = [Some 1%Z; Some 2%Z].
Proof. reflexivity. Qed.

(** Witness for X23. *)
Lemma render_failure_attributes_witness :
  _attr (fst (fst (render Ref.categorical (Ref.twoPanels 240 25 0))))
  = set_isRotated false (_attr Ref.categorical).
Proof.
  apply (@render_failure_attributes Z Ref.env Ref.categorical
           (Ref.twoPanels 240 25 0)).
  vm_compute. discriminate.
Defined.

(** * The label passes in the number format *)

Section NumericProperties.

Context {N : Type} {A : Arith N} {D : Type}.

(** ** Truncation *)

Lemma substr0_prefix_length (str : string) (endChar : Z) :
  exists rest : string,
    str = (substr0 str endChar ++ rest)%string /\
    Z.of_nat (String.length (substr0 str endChar))
    = Z.min (Z.max endChar 0) (Z.of_nat (String.length str)).
Proof.
  unfold substr0.
  destruct (substring0_prefix (Z.to_nat endChar) str) as [rest Hrest].
  exists rest. split; [exact Hrest |].
  destruct (Nat.le_gt_cases (Z.to_nat endChar) (String.length str)) as [Hle | Hgt].
  - rewrite (length_substring0_exact _ _ Hle). lia.
  - pose proof (length_substring0 (Z.to_nat endChar) str) as Hup.
    assert (Hlen : String.length (String.substring 0 (Z.to_nat endChar) str)
                   = String.length str).
    { apply (f_equal String.length) in Hrest.
      rewrite string_length_app in Hrest.
      revert Hrest Hgt. clear.
      generalize (Z.to_nat endChar) as n. revert rest.
      induction str as [| c str IH]; intros rest n Hrest Hgt.
      - destruct n; reflexivity.
      - destruct n as [| n]; [simpl in Hgt; lia |].
        simpl in *. f_equal. apply (IH rest n); lia. }
    rewrite Hlen. lia.
Qed.

(** C6, as the code has it.  In every number format: when [width > size]
    is false the text comes back unchanged, so that truncating it again
    changes nothing; otherwise, with [pxPerChar = width / length], each
    quotient and the difference being numbers of the format, the first
    [endChar] is [Math.floor((size / pxPerChar) - 4)]; when this is an
    integer it is walked down while the character before it is a space, a
    hyphen or a comma, and the result is the first [endChar] characters of
    the text (none when [endChar] is negative, all of them when it exceeds
    the length) followed by three dots; when it is [Infinity] the result is
    the whole text followed by three dots, and when it is [NaN] or
    [-Infinity] the three dots alone. *)
Theorem truncateLabel_format_rule (str : string) (width size : N) :
  let pxPerChar :=
    js_div width (js_num (inject_Z (Z.of_nat (String.length str)))) in
  (js_lt size width = false ->
   Numeric.truncateLabel str width size = str /\
   Numeric.truncateLabel (Numeric.truncateLabel str width size) width size
   = Numeric.truncateLabel str width size) /\
  (js_lt size width = true ->
   match js_floor (js_sub (js_div size pxPerChar) (js_num 4)) with
   | Int first =>
       exists (endChar : Z) (pre rest : string),
         WalkBack str first endChar /\
         str = (pre ++ rest)%string /\
         Z.of_nat (String.length pre)
         = Z.min (Z.max endChar 0) (Z.of_nat (String.length str)) /\
         Numeric.truncateLabel str width size = (pre ++ "...")%string
   | IntPosInf => Numeric.truncateLabel str width size = (str ++ "...")%string
   | IntNaN | IntNegInf => Numeric.truncateLabel str width size = "..."%string
   end).
Proof.
  intro pxPerChar. split.
  - intro Hfit.
    assert (Heq : Numeric.truncateLabel str width size = str)
      by (unfold Numeric.truncateLabel; rewrite Hfit; reflexivity).
    split; [exact Heq |]. rewrite Heq. exact Heq.
  - intro Hcut. unfold Numeric.truncateLabel. rewrite Hcut. fold pxPerChar.
    destruct (js_floor (js_sub (js_div size pxPerChar) (js_num 4)))
      as [| | | first]; try reflexivity.
    destruct (substr0_prefix_length str (trimEnd str first)) as (rest & Hrest & Hlen).
    exists (trimEnd str first), (substr0 str (trimEnd str first)), rest.
    split; [apply trimEnd_walks |]. split; [exact Hrest |].
    split; [exact Hlen | reflexivity].
Qed.

(** ** The collision filter *)

Lemma numeric_filterTicks_sweep (format : D -> string) (xScale : D -> N)
  (bbox : Tick D -> N) (maxW : N) :
  let pos := fun t : Tick D => xScale (datum t) in
  let half := fun t : Tick D =>
                js_div (js_mul (bbox t) (js_num (11 # 10))) (js_num 2) in
  forall (ts : list (Tick D)) (r : N),
  exists kept : list (Tick D),
    fst (Numeric.filterTicks format xScale bbox maxW r ts)
    = map (fun t => set_text (format (datum t)) t) kept /\
    SweepIn pos half maxW r ts kept /\
    Subseq kept ts /\
    Forall (fun t => js_lt (js_add (pos t) (half t)) maxW = true) kept.
Proof.
  intros pos half ts. induction ts as [| t rest IH]; intro r.
  - exists []. simpl. repeat split; constructor.
  - simpl Numeric.filterTicks. fold (pos t). fold (half t).
    destruct (js_lt (js_add r (half t)) (pos t)) eqn:Hleft;
      [destruct (js_lt (js_add (pos t) (half t)) maxW) eqn:Hright |];
      simpl andb.
    + destruct (IH (js_add (pos t) (half t))) as (kept & Heq & Hsw & Hsub & Hk).
      exists (t :: kept).
      destruct (Numeric.filterTicks format xScale bbox maxW _ rest) as [k r'].
      simpl in *. rewrite Heq. split; [reflexivity |].
      split; [apply sweepin_keep; assumption |].
      split; [constructor; assumption |].
      constructor; assumption.
    + destruct (IH r) as (kept & Heq & Hsw & Hsub & Hk).
      exists kept. split; [exact Heq |].
      split; [apply sweepin_drop; [right; exact Hright | exact Hsw] |].
      split; [constructor; assumption | exact Hk].
    + destruct (IH r) as (kept & Heq & Hsw & Hsub & Hk).
      exists kept. split; [exact Heq |].
      split; [apply sweepin_drop; [left; exact Hleft | exact Hsw] |].
      split; [constructor; assumption | exact Hk].
Qed.

Lemma numeric_filterTicks_app (format : D -> string) (xScale : D -> N)
  (bbox : Tick D -> N) (maxW : N) (ts1 ts2 : list (Tick D)) (startX : N) :
  Numeric.filterTicks format xScale bbox maxW startX (ts1 ++ ts2) =
  let '(k1, s1) := Numeric.filterTicks format xScale bbox maxW startX ts1 in
  let '(k2, s2) := Numeric.filterTicks format xScale bbox maxW s1 ts2 in
  (k1 ++ k2, s2).
Proof.
  revert startX. induction ts1 as [| t rest IH]; intro startX; simpl.
  - destruct (Numeric.filterTicks format xScale bbox maxW startX ts2); reflexivity.
  - destruct (_ && _)%bool.
    + rewrite IH.
      destruct (Numeric.filterTicks format xScale bbox maxW _ rest) as [k1 s1].
      destruct (Numeric.filterTicks format xScale bbox maxW s1 ts2) as [k2 s2].
      reflexivity.
    + apply IH.
Qed.

Lemma numeric_filterSvgs_flat (format : D -> string) (xScale : D -> N)
  (bbox : Tick D -> N) (maxW : N) (ss : list (Svg D)) (startX : N) :
  flat_map (@svg_ticks D) (fst (Numeric.filterSvgs format xScale bbox maxW startX ss)) =
  fst (Numeric.filterTicks format xScale bbox maxW startX (flat_map (@svg_ticks D) ss)) /\
  snd (Numeric.filterSvgs format xScale bbox maxW startX ss) =
  snd (Numeric.filterTicks format xScale bbox maxW startX (flat_map (@svg_ticks D) ss)).
Proof.
  revert startX. induction ss as [| s rest IH]; intro startX; simpl.
  - split; reflexivity.
  - rewrite numeric_filterTicks_app.
    destruct (Numeric.filterTicks format xScale bbox maxW startX (svg_ticks s))
      as [k1 s1].
    destruct (IH s1) as [IH1 IH2].
    destruct (Numeric.filterSvgs format xScale bbox maxW s1 rest) as [rest' s2].
    destruct (Numeric.filterTicks format xScale bbox maxW s1 _) as [k2 s2'].
    simpl in *. subst. split; reflexivity.
Qed.

(** In an ordered format every tick a sweep keeps clears the edge the sweep
    started from by its half width, and any two kept ticks stand apart: the
    earlier one to the left, its padded right edge plus the half width of
    the later one below the position of the later one. *)
Lemma SweepIn_apart {T : Type} (pos half : T -> N) (axisWidth : N) :
  Ordered_format A ->
  (forall t, js_lt (half t) (js_num 0) = false) ->
  forall (r : N) (ts kept : list T),
    SweepIn pos half axisWidth r ts kept ->
    Forall (fun t => js_lt (js_add r (half t)) (pos t) = true) kept /\
    StronglySorted
      (fun a b =>
         js_lt (pos a) (pos b) = true /\
         js_lt (js_add (js_add (pos a) (half a)) (half b)) (pos b) = true) kept.
Proof.
  intros Hord Hhalf r ts kept Hsw.
  induction Hsw as [r | r t ts kept Hleft Hright Hsw [IHr IHs]
                      | r t ts kept Hdrop Hsw IH].
  - split; constructor.
  - assert (Hrt : js_lt r (pos t) = true)
      by (eapply (add_not_below Hord); [apply Hhalf | exact Hleft]).
    assert (Hedge : js_lt r (js_add (pos t) (half t)) = true)
      by (eapply (below_the_sum Hord); [exact Hrt | apply Hhalf | exact Hright]).
    split.
    + constructor; [exact Hleft |].
      eapply Forall_impl; [| exact IHr]. intros b Hb.
      eapply (add_monotone Hord); eassumption.
    + constructor; [exact IHs |].
      eapply Forall_impl; [| exact IHr]. intros b Hb. split; [| exact Hb].
      eapply (add_not_below Hord); [apply Hhalf |].
      eapply (add_not_below Hord); [apply Hhalf | exact Hb].
  - exact IH.
Qed.

(** In every number format [filterAxisLabels] keeps exactly the ticks of one
    sweep over all the ticks of the panel in document order, started with
    right edge [0], and gives each its formatted label; the kept ticks are
    among the ticks of the panel in their order, the padded right edge of
    each is below the axis width, and in an ordered format, for bounding
    boxes whose width is not negative, any two kept ticks stand apart. *)
Lemma numeric_filterAxisLabels_sweep (format : D -> string) (xScale : D -> N)
  (bbox : Tick D -> N) (maxW : N) (p : Panel D) :
  let pos := fun t : Tick D => xScale (datum t) in
  let half := fun t : Tick D =>
                js_div (js_mul (bbox t) (js_num (11 # 10))) (js_num 2) in
  exists kept : list (Tick D),
    allTicks (Numeric.filterAxisLabels format xScale bbox maxW p)
    = map (fun t => set_text (format (datum t)) t) kept /\
    SweepIn pos half maxW (js_num 0) (allTicks p) kept /\
    Subseq kept (allTicks p) /\
    Forall (fun t => js_lt (js_add (pos t) (half t)) maxW = true) kept /\
    (Ordered_format A ->
     (forall t, js_lt (bbox t) (js_num 0) = false) ->
     StronglySorted
       (fun a b =>
          js_lt (pos a) (pos b) = true /\
          js_lt (js_add (js_add (pos a) (half a)) (half b)) (pos b) = true)
       kept).
Proof.
  intros pos half.
  destruct (numeric_filterTicks_sweep format xScale bbox maxW (allTicks p) (js_num 0))
    as (kept & Heq & Hsw & Hsub & Hk).
  exists kept. unfold Numeric.filterAxisLabels.
  unfold allTicks at 1. simpl svgs.
  destruct (numeric_filterSvgs_flat format xScale bbox maxW (svgs p) (js_num 0))
    as [Hflat _].
  rewrite Hflat. unfold allTicks in Heq. rewrite Heq.
  split; [reflexivity |]. split; [exact Hsw |]. split; [exact Hsub |].
  split; [exact Hk |].
  intros Hord Hbox.
  apply (SweepIn_apart pos half maxW Hord
           (fun t => half_width_not_negative Hord (bbox t) (Hbox t))
           (js_num 0) (allTicks p) kept Hsw).
Qed.

End NumericProperties.

(** ** Arithmetic without rounding *)

Lemma Exact_ordered : Ordered_format Exact.arith.
Proof.
  constructor; simpl.
  - intros a h c Hh Hsum. apply Qltb_ge in Hh. apply Qltb_lt in Hsum.
    apply Qltb_lt. lra.
  - intros a b h c Hab Hh _. apply Qltb_lt in Hab. apply Qltb_ge in Hh.
    apply Qltb_lt. lra.
  - intros a b h c Hab Hsum. apply Qltb_lt in Hab, Hsum. apply Qltb_lt. lra.
  - intros w Hw. apply Qltb_ge in Hw. apply Qltb_ge.
    assert (H : w * (11 # 10) / 2 == w * (11 # 20)) by field. rewrite H. lra.
Qed.

(** Without rounding the two functions are those of the prototype. *)
Lemma truncateLabel_exact {D : Type} {E : Env D} (str : string) (size : Q) :
  Numeric.truncateLabel (A := Exact.arith) str (textWidth str) size
  = truncateLabel str (Num size).
Proof. reflexivity. Qed.

Lemma filterTicks_exact {D : Type} {E : Env D} (self : XAxis D) (sc : Scale D)
  (x : D -> Q) (maxW : Q) :
  (forall d, d3_apply sc d = Num (x d)) ->
  forall (ts : list (Tick D)) (r : Q),
    filterTicks self sc maxW (Num r) ts
    = (fst (Numeric.filterTicks (A := Exact.arith) (xAxisFormatter self) x
              tickWidth maxW r ts),
       Num (snd (Numeric.filterTicks (A := Exact.arith) (xAxisFormatter self) x
                   tickWidth maxW r ts))).
Proof.
  intros Hx ts. induction ts as [| t rest IH]; intro r; simpl.
  - reflexivity.
  - rewrite Hx. unfold jgt, padding. simpl jadd. simpl jlt.
    destruct (Qltb (r + tickWidth t * (11 # 10) / 2) (x (datum t))
              && Qltb (x (datum t) + tickWidth t * (11 # 10) / 2) maxW)%bool.
    + rewrite IH.
      destruct (Numeric.filterTicks (A := Exact.arith) _ x tickWidth maxW _ rest).
      reflexivity.
    + apply IH.
Qed.

(** * The order and the sum of binary64

    What the sweep of the collision filter needs of the doubles, from the
    specification of the primitive floats: the order of two doubles is the
    order of their values, the sum of two doubles is their exact sum rounded
    to nearest with ties to even, and that rounding is monotone and leaves a
    double where it is.  Values are counted in units of the least
    subnormal, [2^-1074], so that every finite double is an integer, and
    the two infinities stand at the first power of two that overflows. *)

Module DoubleOrder.

Import SpecFloat.
Local Open Scope Z_scope.

(** ** The number of binary digits *)

Lemma digits2_pos_size (p : positive) : digits2_pos p = Pos.size p.
Proof. induction p; simpl; congruence. Qed.

Lemma digits_bounds (p : positive) :
  2 ^ (Zpos (digits2_pos p) - 1) <= Zpos p < 2 ^ Zpos (digits2_pos p).
Proof.
  rewrite digits2_pos_size.
  pose proof (Pos.size_gt p) as Hgt. pose proof (Pos.size_le p) as Hle.
  split.
  - assert (H : (2 ^ Zpos (Pos.size p) <= 2 * Zpos p)).
    { change (2 * Zpos p) with (Zpos (p~0)).
      rewrite <- (Pos2Z.inj_pow 2 (Pos.size p)). apply Pos2Z.pos_le_pos. exact Hle. }
    replace (Zpos (Pos.size p)) with (Z.succ (Zpos (Pos.size p) - 1)) in H by lia.
    rewrite Z.pow_succ_r in H by lia. lia.
  - rewrite <- (Pos2Z.inj_pow 2 (Pos.size p)). apply Pos2Z.pos_lt_pos. exact Hgt.
Qed.

Lemma digits_unique (p : positive) (k : Z) :
  2 ^ (k - 1) <= Zpos p < 2 ^ k -> Zpos (digits2_pos p) = k.
Proof.
  intros [Hlo Hhi]. pose proof (digits_bounds p) as [Dlo Dhi].
  set (d := Zpos (digits2_pos p)) in *.
  assert (0 < k).
  { destruct (Z_lt_le_dec 0 k); [assumption |].
    assert (2 ^ k <= 1).
    { destruct (Z.eq_dec k 0) as [-> | ]; [simpl; lia |].
      rewrite Z.pow_neg_r by lia. lia. }
    lia. }
  destruct (Z_lt_le_dec d k).
  - assert (2 ^ d <= 2 ^ (k - 1)) by (apply Z.pow_le_mono_r; lia). lia.
  - destruct (Z_lt_le_dec k d); [| lia].
    assert (2 ^ k <= 2 ^ (d - 1)) by (apply Z.pow_le_mono_r; lia). lia.
Qed.


(** ** Shifting right with a location *)

(** [shr_1] shifts a mantissa right by one bit and keeps in two booleans
    where the bits shifted out lie with respect to one half; after any
    number of steps the record holds the quotient by the power of two and
    the place of the remainder. *)
Lemma iter_add_nat {A : Type} (f : A -> A) (n k : nat) (x : A) :
  Nat.iter (n + k) f x = Nat.iter n f (Nat.iter k f x).
Proof. induction n; simpl; congruence. Qed.

Lemma iter_succ_nat {A : Type} (f : A -> A) (n : nat) (x : A) :
  Nat.iter (S n) f x = Nat.iter n f (f x).
Proof. induction n; simpl in *; congruence. Qed.

Lemma iter_pos_nat {A : Type} (f : A -> A) (p : positive) (x : A) :
  iter_pos f p x = Nat.iter (Pos.to_nat p) f x.
Proof.
  revert x. induction p as [p IH | p IH |]; intro x; cbn [iter_pos].
  - rewrite !IH. rewrite Pos2Nat.inj_xI.
    replace (S (2 * Pos.to_nat p))%nat with (Pos.to_nat p + S (Pos.to_nat p))%nat by lia.
    rewrite iter_add_nat, iter_succ_nat. reflexivity.
  - rewrite !IH. rewrite Pos2Nat.inj_xO.
    replace (2 * Pos.to_nat p)%nat with (Pos.to_nat p + Pos.to_nat p)%nat by lia.
    rewrite iter_add_nat. reflexivity.
  - reflexivity.
Qed.

(** [r] tells whether the part shifted out reaches half of [P], [s] whether
    it is neither nothing nor exactly half. *)
Definition loc_ok (P rem : Z) (r s : bool) : Prop :=
  (r = true <-> P <= 2 * rem) /\ (s = true <-> (rem <> 0 /\ 2 * rem <> P)).

Definition shifted (m P : Z) (mrs : shr_record) : Prop :=
  0 <= shr_m mrs /\
  exists rem, m = shr_m mrs * P + rem /\ 0 <= rem < P /\
              loc_ok P rem (shr_r mrs) (shr_s mrs).

Lemma shr_1_shifted (m P : Z) (mrs : shr_record) :
  0 < P -> shifted m P mrs -> shifted m (2 * P) (shr_1 mrs).
Proof.
  intros HP [Hq (rem & Hm & Hrem & Hr & Hs)].
  destruct mrs as [q r s]. cbn [shr_m shr_r shr_s] in *.
  assert (Hrs : (r || s)%bool = true <-> rem <> 0).
  { rewrite orb_true_iff. split.
    - intros [H | H]; [apply Hr in H; lia | apply Hs in H; lia].
    - intro Hne. destruct r; [left; reflexivity | right].
      apply Hs. split; [exact Hne |].
      assert (~ P <= 2 * rem) by (intro HH; apply Hr in HH; discriminate). lia. }
  unfold shifted, loc_ok.
  destruct q as [| [p | p |] | p]; cbn [shr_1 shr_m shr_r shr_s]; try lia.
  - (* 0 *) split; [lia |]. exists rem.
    split; [lia |]. split; [lia |]. split.
    + split; [discriminate | lia].
    + rewrite Hrs. lia.
  - (* 2p+1 *) split; [lia |]. exists (rem + P).
    split; [lia |]. split; [lia |]. split.
    + split; [lia | reflexivity].
    + rewrite Hrs. lia.
  - (* 2p *) split; [lia |]. exists rem.
    split; [lia |]. split; [lia |]. split.
    + split; [discriminate | lia].
    + rewrite Hrs. lia.
  - (* 1 *) split; [lia |]. exists (rem + P).
    split; [lia |]. split; [lia |]. split.
    + split; [lia | reflexivity].
    + rewrite Hrs. lia.
Qed.

Lemma shr_iter_shifted (m : Z) (k : nat) :
  0 <= m ->
  shifted m (2 ^ Z.of_nat k) (Nat.iter k shr_1 (Build_shr_record m false false)).
Proof.
  intro Hm. induction k as [| k IH].
  - split; [exact Hm |]. exists 0. cbn. unfold loc_ok.
    split; [lia |]. split; [lia |]. split; split; try discriminate; lia.
  - rewrite Nat2Z.inj_succ, Z.pow_succ_r by lia. simpl Nat.iter.
    apply shr_1_shifted; [apply Z.pow_pos_nonneg; lia | exact IH].
Qed.

(** Rounding [m / P] to the nearest integer, ties to even. *)
Definition rne (P m : Z) : Z :=
  let q := m / P in
  let rem := m mod P in
  if 2 * rem <? P then q
  else if P <? 2 * rem then q + 1
  else if Z.even q then q else q + 1.

(** Rounding the shifted mantissa by its location is rounding the quotient
    to nearest, ties to even. *)
Lemma shifted_round (m P : Z) (mrs : shr_record) :
  0 < P -> shifted m P mrs ->
  round_nearest_even (shr_m mrs) (loc_of_shr_record mrs) = rne P m.
Proof.
  intros HP [Hq (rem & Hm & Hrem & Hr & Hs)].
  destruct mrs as [q r s]. cbn [shr_m shr_r shr_s] in *.
  assert (Hdiv : m / P = q).
  { symmetry. apply (Z.div_unique m P q rem); [left; lia | lia]. }
  assert (Hmod : m mod P = rem).
  { symmetry. apply (Z.mod_unique m P q rem); [left; lia | lia]. }
  unfold rne. rewrite Hdiv, Hmod.
  destruct (Z.ltb_spec (2 * rem) P) as [E1 | E1];
    [| destruct (Z.ltb_spec P (2 * rem)) as [E2 | E2]].
  - destruct r; [assert (P <= 2 * rem) by (apply Hr; reflexivity); lia |].
    destruct s; reflexivity.
  - destruct r.
    + destruct s; [reflexivity |].
      assert (rem <> 0 /\ 2 * rem <> P) by lia.
      apply Hs in H. discriminate.
    + assert (false = true) by (apply Hr; lia). discriminate.
  - destruct r.
    + destruct s; [| reflexivity].
      assert (rem <> 0 /\ 2 * rem <> P) by (apply Hs; reflexivity). lia.
    + assert (false = true) by (apply Hr; lia). discriminate.
Qed.


(** ** Rounding to nearest *)

Lemma rne_bounds (P m : Z) : 0 < P -> m / P <= rne P m <= m / P + 1.
Proof.
  intro HP. unfold rne.
  destruct (2 * (m mod P) <? P); [lia |].
  destruct (P <? 2 * (m mod P)); [lia |].
  destruct (Z.even (m / P)); lia.
Qed.

Lemma rne_exact (P q : Z) : 0 < P -> rne P (q * P) = q.
Proof.
  intro HP. unfold rne. rewrite Z.mod_mul, Z.div_mul by lia.
  destruct (Z.ltb_spec (2 * 0) P); [reflexivity | lia].
Qed.

Lemma rne_mono (P m1 m2 : Z) : 0 < P -> m1 <= m2 -> rne P m1 <= rne P m2.
Proof.
  intros HP Hle.
  assert (Hq : m1 / P <= m2 / P) by (apply Z.div_le_mono; lia).
  destruct (Z.eq_dec (m1 / P) (m2 / P)) as [Heq | Hne].
  - assert (Hr : m1 mod P <= m2 mod P).
    { rewrite !Z.mod_eq by lia. rewrite Heq. lia. }
    unfold rne. rewrite Heq.
    destruct (Z.ltb_spec (2 * (m1 mod P)) P), (Z.ltb_spec (2 * (m2 mod P)) P);
      try lia.
    + destruct (P <? 2 * (m2 mod P)); [lia |]. destruct (Z.even (m2 / P)); lia.
    + destruct (Z.ltb_spec P (2 * (m1 mod P))), (Z.ltb_spec P (2 * (m2 mod P)));
        try lia.
      destruct (Z.even (m2 / P)); lia.
  - pose proof (rne_bounds P m1 HP). pose proof (rne_bounds P m2 HP). lia.
Qed.

Lemma rne_below (P m B : Z) : 0 < P -> m < B * P -> rne P m <= B.
Proof.
  intros HP Hlt. pose proof (rne_bounds P m HP) as [_ Hup].
  assert (m / P < B) by (apply Z.div_lt_upper_bound; lia). lia.
Qed.

Lemma rne_above (P m B : Z) : 0 < P -> B * P <= m -> B <= rne P m.
Proof.
  intros HP Hle. pose proof (rne_bounds P m HP) as [Hlo _].
  assert (B <= m / P) by (apply Z.div_le_lower_bound; lia). lia.
Qed.

Lemma rne_scale (P m c : Z) : 0 < P -> 0 < c -> rne (P * c) (m * c) = rne P m.
Proof.
  intros HP Hc. unfold rne.
  rewrite Z.div_mul_cancel_r by lia.
  rewrite Z.mul_mod_distr_r by lia.
  replace (2 * (m mod P * c)) with (2 * (m mod P) * c) by ring.
  assert (H1 : (2 * (m mod P) * c <? P * c) = (2 * (m mod P) <? P)).
  { destruct (Z.ltb_spec (2 * (m mod P)) P), (Z.ltb_spec (2 * (m mod P) * c) (P * c));
      try reflexivity; nia. }
  assert (H2 : (P * c <? 2 * (m mod P) * c) = (P <? 2 * (m mod P))).
  { destruct (Z.ltb_spec P (2 * (m mod P))), (Z.ltb_spec (P * c) (2 * (m mod P) * c));
      try reflexivity; nia. }
  rewrite H1, H2. reflexivity.
Qed.

(** The number of bits shifted out of [K], counted in units of the least
    subnormal, and the value it is rounded to. *)
Definition drop (K : Z) : Z := Z.max (Z.log2 K - 52) 0.

Definition round53 (K : Z) : Z := rne (2 ^ drop K) K * 2 ^ drop K.

Lemma drop_nonneg (K : Z) : 0 <= drop K.
Proof. unfold drop. lia. Qed.

Lemma pow2_pos (n : Z) : 0 <= n -> 0 < 2 ^ n.
Proof. intro. apply Z.pow_pos_nonneg; lia. Qed.

Lemma round53_nonneg (K : Z) : 0 <= K -> 0 <= round53 K.
Proof.
  intro HK. unfold round53.
  pose proof (pow2_pos (drop K) (drop_nonneg K)) as HP.
  pose proof (rne_bounds (2 ^ drop K) K HP) as [Hlo _].
  assert (0 <= K / 2 ^ drop K) by (apply Z.div_pos; lia). nia.
Qed.

(** Rounding to 53 bits is monotone, also from one binade to the next. *)
Lemma round53_mono (K1 K2 : Z) : 0 <= K1 -> K1 <= K2 -> round53 K1 <= round53 K2.
Proof.
  intros H1 Hle.
  destruct (Z.eq_dec K1 0) as [-> | Hne1].
  { change (round53 0) with 0. apply round53_nonneg. lia. }
  assert (Hlog : Z.log2 K1 <= Z.log2 K2) by (apply Z.log2_le_mono; exact Hle).
  pose proof (Z.log2_spec K1 ltac:(lia)) as [_ Hup1].
  pose proof (Z.log2_spec K2 ltac:(lia)) as [Hlo2 _].
  pose proof (Z.log2_nonneg K1). pose proof (Z.log2_nonneg K2).
  destruct (Z.eq_dec (drop K1) (drop K2)) as [Heq | Hne].
  - unfold round53. rewrite Heq.
    pose proof (pow2_pos (drop K2) (drop_nonneg K2)) as HP.
    pose proof (rne_mono (2 ^ drop K2) K1 K2 HP Hle). nia.
  - assert (Hlt : drop K1 < drop K2) by (unfold drop in *; lia).
    assert (Hn2 : drop K2 = Z.log2 K2 - 52) by (unfold drop in *; lia).
    assert (Hn1 : Z.log2 K1 - 52 <= drop K1) by (unfold drop; lia).
    pose proof (drop_nonneg K1) as Hd1.
    pose proof (pow2_pos (drop K1) Hd1) as HP1.
    pose proof (pow2_pos (drop K2) (drop_nonneg K2)) as HP2.
    assert (Hup : rne (2 ^ drop K1) K1 <= 2 ^ 53).
    { apply rne_below; [exact HP1 |].
      rewrite <- Z.pow_add_r by lia.
      eapply Z.lt_le_trans; [exact Hup1 |].
      apply Z.pow_le_mono_r; lia. }
    assert (Hlo : 2 ^ 52 <= rne (2 ^ drop K2) K2).
    { apply rne_above; [exact HP2 |].
      rewrite <- Z.pow_add_r by lia.
      eapply Z.le_trans; [| exact Hlo2].
      apply Z.pow_le_mono_r; lia. }
    unfold round53.
    apply Z.le_trans with (2 ^ 53 * 2 ^ drop K1); [nia |].
    apply Z.le_trans with (2 ^ 52 * 2 ^ drop K2); [| nia].
    rewrite <- !Z.pow_add_r by lia. apply Z.pow_le_mono_r; lia.
Qed.


(** ** The value of a rounded result *)


Definition fexp64 (e : Z) : Z := Z.max (e - 53) (-1074).

Lemma fexp_64 (e : Z) : fexp FloatOps.prec FloatOps.emax e = fexp64 e.
Proof. reflexivity. Qed.

(** The first value that no longer is a finite double, in units of the
    least subnormal. *)
Definition INF : Z := 2 ^ 2098.

Definition sgn (s : bool) (v : Z) : Z := if s then - v else v.

Definition val (x : spec_float) : Z :=
  match x with
  | S754_zero _ | S754_nan => 0
  | S754_infinity s => sgn s INF
  | S754_finite s m e => sgn s (Zpos m * 2 ^ (e + 1074))
  end.

Lemma shr_fexp_shifted (m ez : Z) :
  0 <= m -> ez <= fexp64 (Zdigits2 m + ez) ->
  exists mrs,
    shr_fexp FloatOps.prec FloatOps.emax m ez loc_Exact = (mrs, fexp64 (Zdigits2 m + ez)) /\
    shifted m (2 ^ (fexp64 (Zdigits2 m + ez) - ez)) mrs.
Proof.
  intros Hm Hle. unfold shr_fexp, shr. rewrite fexp_64.
  set (fe := fexp64 (Zdigits2 m + ez)) in *.
  cbn [shr_record_of_loc].
  destruct (fe - ez) as [| p | p] eqn:Hn; [| | lia].
  - exists (Build_shr_record m false false). split; [f_equal; lia |].
    apply (shr_iter_shifted m 0 Hm).
  - exists (iter_pos shr_1 p (Build_shr_record m false false)).
    split; [f_equal; lia |].
    rewrite iter_pos_nat.
    rewrite <- (positive_nat_Z p). apply shr_iter_shifted. exact Hm.
Qed.

Lemma shr_fexp_same (m ez : Z) :
  fexp64 (Zdigits2 m + ez) <= ez ->
  shr_fexp FloatOps.prec FloatOps.emax m ez loc_Exact = (Build_shr_record m false false, ez).
Proof.
  intro Hle. unfold shr_fexp, shr. rewrite fexp_64. cbn [shr_record_of_loc].
  destruct (fexp64 (Zdigits2 m + ez) - ez) as [| p | p] eqn:Hn; [reflexivity | lia | reflexivity].
Qed.

Lemma digits_le (p : positive) (k : Z) : Zpos p < 2 ^ k -> Zpos (digits2_pos p) <= k.
Proof.
  intro Hlt. pose proof (digits_bounds p) as [Hlo _].
  destruct (Z_le_gt_dec (Zpos (digits2_pos p)) k) as [H | H]; [exact H |].
  assert (2 ^ k <= 2 ^ (Zpos (digits2_pos p) - 1)).
  { destruct (Z_lt_le_dec k 0).
    - rewrite (Z.pow_neg_r 2 k) by lia. apply Z.pow_nonneg. lia.
    - apply Z.pow_le_mono_r; lia. }
  lia.
Qed.

Lemma log2_digits (p : positive) : Z.log2 (Zpos p) = Zpos (digits2_pos p) - 1.
Proof.
  apply Z.log2_unique; [lia |].
  pose proof (digits_bounds p) as [Hlo Hhi].
  replace (Z.succ (Zpos (digits2_pos p) - 1)) with (Zpos (digits2_pos p)) by lia. lia.
Qed.

Lemma drop_scaled (m : positive) (e : Z) :
  -1074 <= e ->
  drop (Zpos m * 2 ^ (e + 1074)) = fexp64 (Zpos (digits2_pos m) + e) + 1074.
Proof.
  intro He. unfold drop, fexp64.
  rewrite Z.log2_mul_pow2 by lia. rewrite log2_digits. lia.
Qed.


Lemma mul_pow_lt (p a k b : Z) :
  0 <= k -> 0 <= a -> p < 2 ^ a -> a + k <= b -> p * 2 ^ k < 2 ^ b.
Proof.
  intros Hk Ha Hp Hb.
  apply Z.lt_le_trans with (2 ^ a * 2 ^ k).
  - apply Z.mul_lt_mono_pos_r; [apply pow2_pos; lia | exact Hp].
  - rewrite <- Z.pow_add_r by lia. apply Z.pow_le_mono_r; lia.
Qed.

Lemma mul_pow_le (p a k b : Z) :
  0 <= k -> 0 <= a -> 2 ^ a <= p -> b <= a + k -> 2 ^ b <= p * 2 ^ k.
Proof.
  intros Hk Ha Hp Hb.
  apply Z.le_trans with (2 ^ a * 2 ^ k).
  - rewrite <- Z.pow_add_r by lia.
    destruct (Z_lt_le_dec b 0).
    + rewrite (Z.pow_neg_r 2 b) by lia. apply Z.pow_nonneg. lia.
    + apply Z.pow_le_mono_r; lia.
  - apply Z.mul_le_mono_nonneg_r; [apply Z.pow_nonneg; lia | exact Hp].
Qed.

Lemma INF_eq : INF = 2 ^ 2098.
Proof. reflexivity. Qed.

Lemma shr_fexp_carry (fe : Z) :
  -1074 <= fe ->
  shr_fexp FloatOps.prec FloatOps.emax (2 ^ 53) fe loc_Exact
  = (Build_shr_record (2 ^ 52) false false, fe + 1).
Proof.
  intro Hfe. unfold shr_fexp, shr. rewrite fexp_64.
  change (Zdigits2 (2 ^ 53)) with 54. unfold fexp64.
  replace (Z.max (54 + fe - 53) (-1074) - fe) with 1 by lia.
  reflexivity.
Qed.

(** [binary_round_aux], the rounding step of every operation of the
    specification, returns the double whose value is the exact value
    rounded to 53 bits, or the infinity when that value overflows. *)
Lemma binary_round_aux_val (s : bool) (mz : positive) (ez : Z) :
  -1074 <= ez -> ez <= fexp64 (Zpos (digits2_pos mz) + ez) ->
  binary_round_aux FloatOps.prec FloatOps.emax s (Zpos mz) ez loc_Exact <> S754_nan /\
  val (binary_round_aux FloatOps.prec FloatOps.emax s (Zpos mz) ez loc_Exact)
  = sgn s (Z.min INF (round53 (Zpos mz * 2 ^ (ez + 1074)))).
Proof.
  intros He Hle.
  unfold binary_round_aux.
  destruct (shr_fexp_shifted (Zpos mz) ez ltac:(lia) Hle) as (mrs & Hshr & Hsh).
  change (Zdigits2 (Zpos mz)) with (Zpos (digits2_pos mz)) in *.
  set (d := Zpos (digits2_pos mz)) in *.
  set (fe := fexp64 (d + ez)) in *.
  rewrite Hshr.
  assert (Hfe : -1074 <= fe) by (unfold fe, fexp64; lia).
  assert (Hfed : d + ez - 53 <= fe) by (unfold fe, fexp64; lia).
  set (n1 := fe - ez) in *.
  assert (Hn1 : 0 <= n1) by (unfold n1; lia).
  pose proof (pow2_pos n1 Hn1) as HP.
  rewrite (shifted_round (Zpos mz) (2 ^ n1) mrs HP Hsh).
  set (m2 := rne (2 ^ n1) (Zpos mz)).
  assert (HR : round53 (Zpos mz * 2 ^ (ez + 1074)) = m2 * 2 ^ (fe + 1074)).
  { unfold round53. rewrite drop_scaled by lia. fold d. fold fe.
    replace (fe + 1074) with (n1 + (ez + 1074)) by (unfold n1; lia).
    rewrite Z.pow_add_r by lia.
    rewrite rne_scale by (try exact HP; apply pow2_pos; lia). reflexivity. }
  rewrite HR.
  pose proof (digits_bounds mz) as [Dlo Dhi]. fold d in Dlo, Dhi.
  assert (Hd : 1 <= d) by (unfold d; lia).
  assert (Hm2lo : 0 <= m2) by (apply rne_above; [exact HP | lia]).
  assert (Hm2hi : m2 <= 2 ^ 53).
  { apply rne_below; [exact HP |].
    rewrite <- Z.pow_add_r by lia.
    eapply Z.lt_le_trans; [exact Dhi |]. apply Z.pow_le_mono_r; unfold n1; lia. }
  assert (Hnorm : -1074 < fe -> 2 ^ 52 <= m2).
  { intro Hgt. assert (Hfeq : fe = d + ez - 53) by (unfold fe, fexp64 in *; lia).
    apply rne_above; [exact HP |].
    rewrite <- Z.pow_add_r by lia.
    eapply Z.le_trans; [| exact Dlo]. apply Z.pow_le_mono_r; unfold n1; lia. }
  pose proof (pow2_pos (fe + 1074) ltac:(lia)) as Hscale.
  destruct (Z.eq_dec m2 (2 ^ 53)) as [Hcarry | Hnocarry].
  - rewrite Hcarry. rewrite (shr_fexp_carry fe Hfe). cbn [shr_m].
    assert (E52 : 2 ^ 52 = Zpos 4503599627370496) by reflexivity.
    rewrite E52. cbv beta iota.
    change (FloatOps.emax - FloatOps.prec) with 971.
    destruct (Z.leb_spec (fe + 1) 971) as [Hin | Hout].
    + split; [discriminate |]. cbn [val]. f_equal.
      assert (Hlt : 2 ^ 53 * 2 ^ (fe + 1074) < INF).
      { rewrite INF_eq. apply (mul_pow_lt _ 54); lia. }
      rewrite Z.min_r by lia.
      rewrite <- E52.
      replace (fe + 1 + 1074) with (1 + (fe + 1074)) by lia.
      rewrite (Z.pow_add_r 2 1) by lia.
      change (2 ^ 53) with (2 ^ 52 * 2 ^ 1). ring.
    + split; [discriminate |]. cbn [val]. f_equal.
      assert (Hge : INF <= 2 ^ 53 * 2 ^ (fe + 1074)).
      { rewrite INF_eq. apply (mul_pow_le _ 53); lia. }
      rewrite Z.min_l by lia. reflexivity.
  - assert (Hlt53 : m2 < 2 ^ 53) by lia.
    assert (Hdig : Zdigits2 m2 <= 53).
    { destruct m2 as [| p | p]; [simpl; lia | | lia].
      apply digits_le. exact Hlt53. }
    rewrite shr_fexp_same by (unfold fexp64; lia).
    cbn [shr_m].
    destruct m2 as [| p | p]; [| | lia].
    + split; [discriminate |]. cbn [val]. rewrite Z.mul_0_l.
      rewrite Z.min_r by (rewrite INF_eq; apply Z.pow_nonneg; lia).
      destruct s; reflexivity.
    + change (FloatOps.emax - FloatOps.prec) with 971.
      destruct (Z.leb_spec fe 971) as [Hin | Hout].
      * split; [discriminate |]. cbn [val]. f_equal.
        assert (Hlt : Zpos p * 2 ^ (fe + 1074) < INF).
        { rewrite INF_eq. apply (mul_pow_lt _ 53); lia. }
        rewrite Z.min_r by lia. reflexivity.
      * split; [discriminate |]. cbn [val]. f_equal.
        assert (Hge : INF <= Zpos p * 2 ^ (fe + 1074)).
        { rewrite INF_eq. pose proof (Hnorm ltac:(lia)). apply (mul_pow_le _ 52); lia. }
        rewrite Z.min_l by lia. reflexivity.
Qed.


Lemma shl_pos (m d : positive) : Zpos (Pos.iter xO m d) = Zpos m * 2 ^ Zpos d.
Proof.
  induction d as [| d IH] using Pos.peano_ind.
  - simpl. lia.
  - rewrite Pos.iter_succ. rewrite Pos2Z.inj_succ, Z.pow_succ_r by lia.
    change (Zpos (Pos.iter xO m d)~0) with (2 * Zpos (Pos.iter xO m d)).
    rewrite IH. ring.
Qed.

Lemma digits_shl (m d : positive) :
  Zpos (digits2_pos (Pos.iter xO m d)) = Zpos (digits2_pos m) + Zpos d.
Proof.
  apply digits_unique. rewrite shl_pos.
  pose proof (digits_bounds m) as [Hlo Hhi].
  pose proof (pow2_pos (Zpos d) ltac:(lia)) as HP.
  split.
  - replace (Zpos (digits2_pos m) + Zpos d - 1)
      with (Zpos (digits2_pos m) - 1 + Zpos d) by lia.
    rewrite Z.pow_add_r by lia. nia.
  - rewrite Z.pow_add_r by lia. nia.
Qed.

Lemma binary_round_val (s : bool) (m : positive) (e : Z) :
  -1074 <= e ->
  binary_round FloatOps.prec FloatOps.emax s m e <> S754_nan /\
  val (binary_round FloatOps.prec FloatOps.emax s m e)
  = sgn s (Z.min INF (round53 (Zpos m * 2 ^ (e + 1074)))).
Proof.
  intro He. unfold binary_round. rewrite fexp_64.
  remember (fexp64 (Zpos (digits2_pos m) + e)) as fe eqn:Hfeq.
  assert (Hfe : -1074 <= fe) by (rewrite Hfeq; unfold fexp64; lia).
  unfold shl_align.
  destruct (fe - e) as [| d | d] eqn:Hd.
  - apply binary_round_aux_val; [exact He | rewrite <- Hfeq; lia].
  - apply binary_round_aux_val; [exact He | rewrite <- Hfeq; lia].
  - pose proof (Pos2Z.opp_pos d) as Hopp.
    assert (Hval : Zpos (Pos.iter xO m d) * 2 ^ (fe + 1074)
                   = Zpos m * 2 ^ (e + 1074)).
    { rewrite shl_pos. replace (e + 1074) with (Zpos d + (fe + 1074)) by lia.
      rewrite (Z.pow_add_r 2 (Zpos d) (fe + 1074)) by lia. ring. }
    rewrite <- Hval. apply binary_round_aux_val; [exact Hfe |].
    rewrite digits_shl.
    replace (Zpos (digits2_pos m) + Zpos d + fe)
      with (Zpos (digits2_pos m) + e) by lia.
    rewrite <- Hfeq. lia.
Qed.

(** Rounding with its sign, and with the overflow to an infinity. *)
Definition rounded (V : Z) : Z :=
  if V <? 0 then - Z.min INF (round53 (- V)) else Z.min INF (round53 V).

Lemma binary_normalize_val (M e : Z) :
  -1074 <= e ->
  binary_normalize FloatOps.prec FloatOps.emax M e false <> S754_nan /\
  val (binary_normalize FloatOps.prec FloatOps.emax M e false) = rounded (M * 2 ^ (e + 1074)).
Proof.
  intro He. pose proof (pow2_pos (e + 1074) ltac:(lia)) as HP.
  unfold binary_normalize, rounded.
  destruct M as [| m | m].
  - split; [discriminate | reflexivity].
  - destruct (binary_round_val false m e He) as [Hn Hv].
    split; [exact Hn |]. rewrite Hv. cbn [sgn].
    destruct (Z.ltb_spec (Zpos m * 2 ^ (e + 1074)) 0); [nia | reflexivity].
  - destruct (binary_round_val true m e He) as [Hn Hv].
    split; [exact Hn |]. rewrite Hv. cbn [sgn].
    destruct (Z.ltb_spec (Zneg m * 2 ^ (e + 1074)) 0); [| nia].
    replace (- (Zneg m * 2 ^ (e + 1074))) with (Zpos m * 2 ^ (e + 1074)) by lia.
    reflexivity.
Qed.

Lemma INF_pos : 0 < INF.
Proof. rewrite INF_eq. apply pow2_pos. lia. Qed.

Lemma rounded_mono (V1 V2 : Z) : V1 <= V2 -> rounded V1 <= rounded V2.
Proof.
  intro Hle. unfold rounded. pose proof INF_pos.
  destruct (Z.ltb_spec V1 0), (Z.ltb_spec V2 0); try lia.
  - pose proof (round53_mono (- V2) (- V1) ltac:(lia) ltac:(lia)). lia.
  - pose proof (round53_nonneg (- V1) ltac:(lia)). pose proof (round53_nonneg V2 ltac:(lia)). lia.
  - pose proof (round53_mono V1 V2 ltac:(lia) ltac:(lia)). lia.
Qed.

Lemma rounded_bounds (V : Z) : - INF <= rounded V <= INF.
Proof.
  unfold rounded. pose proof INF_pos.
  destruct (Z.ltb_spec V 0).
  - pose proof (round53_nonneg (- V) ltac:(lia)). lia.
  - pose proof (round53_nonneg V ltac:(lia)). lia.
Qed.

(** ** Valid doubles *)

Definition canonical (m : positive) (e : Z) : Prop :=
  fexp64 (Zpos (digits2_pos m) + e) = e /\ e <= 971.

Lemma valid_canonical (s : bool) (m : positive) (e : Z) :
  valid_binary FloatOps.prec FloatOps.emax (S754_finite s m e) = true -> canonical m e.
Proof.
  unfold valid_binary, bounded, canonical_mantissa. rewrite fexp_64.
  intro H. apply andb_true_iff in H. destruct H as [H1 H2].
  apply Z.eqb_eq in H1. apply Z.leb_le in H2.
  split; [exact H1 | exact H2].
Qed.

Lemma canonical_facts (m : positive) (e : Z) :
  canonical m e ->
  -1074 <= e <= 971 /\ Zpos (digits2_pos m) <= 53 /\
  (-1074 < e -> Zpos (digits2_pos m) = 53).
Proof. unfold canonical, fexp64. lia. Qed.

Lemma canonical_below (m : positive) (e : Z) :
  canonical m e -> 0 < Zpos m * 2 ^ (e + 1074) < INF.
Proof.
  intro Hc. destruct (canonical_facts m e Hc) as (He & Hd & _).
  pose proof (digits_bounds m) as [_ Hhi].
  pose proof (pow2_pos (e + 1074) ltac:(lia)).
  split; [nia |]. rewrite INF_eq.
  apply (mul_pow_lt _ (Zpos (digits2_pos m))); lia.
Qed.

Lemma round53_canonical (m : positive) (e : Z) :
  canonical m e -> round53 (Zpos m * 2 ^ (e + 1074)) = Zpos m * 2 ^ (e + 1074).
Proof.
  intro Hc. destruct (canonical_facts m e Hc) as (He & _ & _).
  unfold round53. rewrite drop_scaled by lia.
  destruct Hc as [Hc _]. rewrite Hc.
  rewrite rne_exact by (apply pow2_pos; lia). reflexivity.
Qed.

Definition finite_ok (x : spec_float) : Prop :=
  match x with
  | S754_zero _ => True
  | S754_finite _ m e => canonical m e
  | _ => False
  end.

Lemma rounded_val (x : spec_float) : finite_ok x -> rounded (val x) = val x.
Proof.
  destruct x as [s | s | | s m e]; cbn [finite_ok val]; try contradiction.
  - intros _. reflexivity.
  - intro Hc. pose proof (canonical_below m e Hc) as [Hpos Hlt].
    pose proof (round53_canonical m e Hc) as HR.
    unfold rounded, sgn. destruct s.
    + destruct (Z.ltb_spec (- (Zpos m * 2 ^ (e + 1074))) 0); [| lia].
      rewrite Z.opp_involutive, HR. lia.
    + destruct (Z.ltb_spec (Zpos m * 2 ^ (e + 1074)) 0); [lia |].
      rewrite HR. lia.
Qed.


(** ** The order of the doubles is the order of their values *)

Lemma spec_float_nan_dec (x : spec_float) : {x = S754_nan} + {x <> S754_nan}.
Proof. destruct x; [right | right | left | right]; congruence. Qed.

Definition valid (x : spec_float) : Prop := valid_binary FloatOps.prec FloatOps.emax x = true.

Lemma valid_finite_ok (x : spec_float) :
  valid x -> match x with
             | S754_finite _ m e => canonical m e
             | _ => True
             end.
Proof.
  destruct x as [s | s | | s m e]; intro Hv; try exact I.
  exact (valid_canonical s m e Hv).
Qed.

Lemma canonical_compare (m1 m2 : positive) (e1 e2 : Z) :
  canonical m1 e1 -> canonical m2 e2 ->
  match e1 ?= e2 with
  | Lt => Lt
  | Gt => Gt
  | Eq => Pos.compare_cont Eq m1 m2
  end = (Zpos m1 * 2 ^ (e1 + 1074) ?= Zpos m2 * 2 ^ (e2 + 1074)).
Proof.
  intros H1 H2.
  destruct (canonical_facts m1 e1 H1) as (He1 & Hd1 & Hn1).
  destruct (canonical_facts m2 e2 H2) as (He2 & Hd2 & Hn2).
  pose proof (digits_bounds m1) as [Lo1 Hi1].
  pose proof (digits_bounds m2) as [Lo2 Hi2].
  assert (Hlt : forall ma mb ea eb,
             -1074 <= ea -> ea < eb ->
             Zpos ma < 2 ^ Zpos (digits2_pos ma) ->
             Zpos (digits2_pos ma) <= 53 ->
             2 ^ (Zpos (digits2_pos mb) - 1) <= Zpos mb ->
             Zpos (digits2_pos mb) = 53 ->
             Zpos ma * 2 ^ (ea + 1074) < Zpos mb * 2 ^ (eb + 1074)).
  { intros ma mb ea eb Hea Hab Hia Hda Lob Hdb.
    apply Z.lt_le_trans with (2 ^ (53 + ea + 1074)).
    - apply (mul_pow_lt _ (Zpos (digits2_pos ma))); lia.
    - apply (mul_pow_le _ (Zpos (digits2_pos mb) - 1)); lia. }
  destruct (Z.compare_spec e1 e2) as [Heq | Hl | Hg].
  - subst e2. pose proof (pow2_pos (e1 + 1074) ltac:(lia)) as HP.
    change (Pos.compare_cont Eq m1 m2) with (Zpos m1 ?= Zpos m2).
    destruct (Z.compare_spec (Zpos m1) (Zpos m2)) as [E | L | G]; symmetry.
    + apply Z.compare_eq_iff. rewrite E. reflexivity.
    + apply Z.compare_lt_iff. nia.
    + apply Z.compare_gt_iff. nia.
  - symmetry. apply Z.compare_lt_iff. pose proof (Hn2 ltac:(lia)). apply Hlt; lia.
  - symmetry. apply Z.compare_gt_iff. pose proof (Hn1 ltac:(lia)). apply Hlt; lia.
Qed.

(** On valid doubles [SFcompare] compares the values. *)
Lemma compare_val (x y : spec_float) :
  valid x -> valid y -> x <> S754_nan -> y <> S754_nan ->
  SFcompare x y = Some (val x ?= val y).
Proof.
  intros Vx Vy Nx Ny.
  pose proof (valid_finite_ok x Vx) as Cx.
  pose proof (valid_finite_ok y Vy) as Cy.
  pose proof INF_pos as HI.
  destruct x as [sx | sx | | sx mx ex]; [| | congruence |];
    destruct y as [sy | sy | | sy my ey]; try congruence;
    cbn [SFcompare val]; unfold sgn;
    try pose proof (canonical_below mx ex Cx) as Bx;
    try pose proof (canonical_below my ey Cy) as By;
    f_equal;
    try (destruct sx); try (destruct sy);
    try (symmetry;
         first [ apply Z.compare_eq_iff; lia
               | apply Z.compare_lt_iff; lia
               | apply Z.compare_gt_iff; lia ]).
  - rewrite Z.compare_opp, (Z.compare_antisym (Zpos mx * 2 ^ (ex + 1074))).
    rewrite <- (canonical_compare mx my ex ey Cx Cy).
    destruct (ex ?= ey); reflexivity.
  - apply canonical_compare; assumption.
Qed.


Lemma val_bounds (x : spec_float) : valid x -> - INF <= val x <= INF.
Proof.
  intro Vx. pose proof (valid_finite_ok x Vx) as Cx. pose proof INF_pos.
  destruct x as [s | s | | s m e]; cbn [val]; unfold sgn; try lia.
  - destruct s; lia.
  - pose proof (canonical_below m e Cx). destruct s; lia.
Qed.

Lemma ltb_val (x y : spec_float) :
  valid x -> valid y ->
  (SFltb x y = true <-> x <> S754_nan /\ y <> S754_nan /\ val x < val y).
Proof.
  intros Vx Vy. unfold SFltb.
  destruct (spec_float_nan_dec x) as [-> | Nx].
  { simpl. split; [discriminate | intros (H & _); congruence]. }
  destruct (spec_float_nan_dec y) as [-> | Ny].
  { destruct x; simpl; try (split; [discriminate | intros (_ & H & _); congruence]). }
  rewrite (compare_val x y Vx Vy Nx Ny).
  destruct (Z.compare_spec (val x) (val y)); split;
    try discriminate; try (intros (_ & _ & H'); lia); auto.
Qed.


(** ** The sum *)

Lemma shl_align_fst (mx : positive) (ex ez : Z) :
  ez <= ex -> Zpos (fst (shl_align mx ex ez)) = Zpos mx * 2 ^ (ex - ez).
Proof.
  intro Hle. unfold shl_align.
  destruct (ez - ex) as [| d | d] eqn:Hd; cbn [fst].
  - replace (ex - ez) with 0 by lia. simpl. lia.
  - lia.
  - pose proof (Pos2Z.opp_pos d). rewrite shl_pos.
    replace (ex - ez) with (Zpos d) by lia. reflexivity.
Qed.

Lemma sgn_scale (s : bool) (v c : Z) : sgn s v * c = sgn s (v * c).
Proof. destruct s; simpl; ring. Qed.

Lemma rounded_0 : rounded 0 = 0.
Proof.
  unfold rounded. change (0 <? 0) with false. cbv iota. change (round53 0) with 0.
  pose proof INF_pos. lia.
Qed.

Definition is_finite (x : spec_float) : Prop :=
  match x with
  | S754_zero _ | S754_finite _ _ _ => True
  | _ => False
  end.

Lemma finite_valid_ok (x : spec_float) : valid x -> is_finite x -> finite_ok x.
Proof.
  intros Vx Fx. destruct x as [s | s | | s m e]; try contradiction.
  - exact I.
  - exact (valid_canonical s m e Vx).
Qed.

(** The sum of two finite doubles is their exact sum, rounded. *)
Lemma SFadd_val (x y : spec_float) :
  valid x -> valid y -> is_finite x -> is_finite y ->
  SFadd FloatOps.prec FloatOps.emax x y <> S754_nan /\
  val (SFadd FloatOps.prec FloatOps.emax x y) = rounded (val x + val y).
Proof.
  intros Vx Vy Fx Fy.
  pose proof (finite_valid_ok x Vx Fx) as Ox.
  pose proof (finite_valid_ok y Vy Fy) as Oy.
  destruct x as [sx | sx | | sx mx ex]; try contradiction;
    destruct y as [sy | sy | | sy my ey]; try contradiction.
  - cbn [SFadd]. destruct sx, sy; (split; [discriminate |]); cbn [val];
      rewrite Z.add_0_l, rounded_0; reflexivity.
  - cbn [SFadd]. split; [discriminate |].
    replace (val (S754_zero sx) + val (S754_finite sy my ey))
      with (val (S754_finite sy my ey)) by (cbn [val]; lia).
    symmetry. apply rounded_val. exact Oy.
  - cbn [SFadd]. split; [discriminate |].
    replace (val (S754_finite sx mx ex) + val (S754_zero sy))
      with (val (S754_finite sx mx ex)) by (cbn [val]; lia).
    symmetry. apply rounded_val. exact Ox.
  - cbn [SFadd finite_ok] in *.
    destruct (canonical_facts mx ex Ox) as (Hex & _ & _).
    destruct (canonical_facts my ey Oy) as (Hey & _ & _).
    set (ez := Z.min ex ey).
    assert (Hez : -1074 <= ez) by (unfold ez; lia).
    destruct (binary_normalize_val
                (cond_Zopp sx (Zpos (fst (shl_align mx ex ez)))
                 + cond_Zopp sy (Zpos (fst (shl_align my ey ez)))) ez Hez)
      as [Hn Hv].
    split; [exact Hn |]. rewrite Hv. f_equal.
    rewrite !shl_align_fst by (unfold ez; lia).
    change cond_Zopp with sgn. cbn [val].
    rewrite Z.mul_add_distr_r, !sgn_scale.
    rewrite <- !Z.mul_assoc, <- !Z.pow_add_r by (unfold ez; lia).
    replace (ex - ez + (ez + 1074)) with (ex + 1074) by lia.
    replace (ey - ez + (ez + 1074)) with (ey + 1074) by lia.
    reflexivity.
Qed.

Lemma SFadd_nan (x y : spec_float) :
  SFadd FloatOps.prec FloatOps.emax x y <> S754_nan -> x <> S754_nan /\ y <> S754_nan.
Proof.
  intro H. split; intro E; subst; apply H; [reflexivity |].
  destruct x; reflexivity.
Qed.

(** The sum of two doubles neither of which is a [NaN], by their values. *)
Definition finb (u : Z) : bool := (- INF <? u) && (u <? INF).

Definition sum_value (u v : Z) : Z :=
  if finb u then (if finb v then rounded (u + v) else v) else u.

Lemma finb_finite (x : spec_float) : valid x -> is_finite x -> finb (val x) = true.
Proof.
  intros Vx Fx. pose proof (finite_valid_ok x Vx Fx) as Ox. pose proof INF_pos.
  unfold finb. apply andb_true_iff.
  destruct x as [s | s | | s m e]; try contradiction; cbn [val finite_ok] in *.
  - split; apply Z.ltb_lt; lia.
  - pose proof (canonical_below m e Ox). unfold sgn.
    destruct s; split; apply Z.ltb_lt; lia.
Qed.

Lemma finb_infinity (s : bool) : finb (val (S754_infinity s)) = false.
Proof.
  unfold finb. cbn [val]. unfold sgn. pose proof INF_pos.
  destruct s.
  - rewrite Z.ltb_irrefl. reflexivity.
  - rewrite (Z.ltb_irrefl INF). apply andb_false_r.
Qed.

Lemma SFadd_sum_value (a h : spec_float) :
  valid a -> valid h -> SFadd FloatOps.prec FloatOps.emax a h <> S754_nan ->
  val (SFadd FloatOps.prec FloatOps.emax a h) = sum_value (val a) (val h).
Proof.
  intros Va Vh Hn. destruct (SFadd_nan a h Hn) as [Na Nh]. unfold sum_value.
  destruct a as [sa | sa | | sa ma ea]; [| | congruence |];
    destruct h as [sh | sh | | sh mh eh]; try congruence;
    repeat first [ rewrite finb_infinity
                 | rewrite (finb_finite (S754_zero _)) by (assumption || exact I)
                 | rewrite (finb_finite (S754_finite _ _ _)) by (assumption || exact I) ];
    cbv iota beta;
    try (apply (SFadd_val _ _ Va Vh I I));
    try reflexivity.
  destruct sa, sh; cbn [SFadd] in *; congruence.
Qed.

Lemma SFadd_defined (a h : spec_float) :
  a <> S754_nan -> h <> S754_nan ->
  ~ (val a = INF /\ val h = - INF) -> ~ (val a = - INF /\ val h = INF) ->
  valid a -> valid h ->
  SFadd FloatOps.prec FloatOps.emax a h <> S754_nan.
Proof.
  intros Na Nh H1 H2 Va Vh.
  destruct a as [sa | sa | | sa ma ea]; [| | congruence |];
    destruct h as [sh | sh | | sh mh eh]; try congruence;
    try (apply (SFadd_val _ _ Va Vh I I));
    try (cbn [SFadd]; discriminate).
  destruct sa, sh; cbn [SFadd val sgn] in *; try discriminate.
  - exfalso. apply H2. split; reflexivity.
  - exfalso. apply H1. split; reflexivity.
Qed.

Lemma finb_spec (u : Z) : finb u = true <-> - INF < u < INF.
Proof.
  unfold finb. rewrite andb_true_iff, !Z.ltb_lt. reflexivity.
Qed.

Lemma rounded_fixes (x : spec_float) :
  valid x -> x <> S754_nan -> finb (val x) = true -> rounded (val x) = val x.
Proof.
  intros Vx Nx Hf.
  destruct x as [s | s | | s m e]; [| | congruence |].
  - apply rounded_val. exact I.
  - rewrite finb_infinity in Hf. discriminate.
  - apply rounded_val. exact (valid_canonical s m e Vx).
Qed.

(** A double does not come down when a double that is not negative is
    added to it. *)
Lemma SFadd_not_below (a h : spec_float) :
  valid a -> valid h -> SFadd FloatOps.prec FloatOps.emax a h <> S754_nan -> 0 <= val h ->
  val a <= val (SFadd FloatOps.prec FloatOps.emax a h).
Proof.
  intros Va Vh Hn Hh.
  destruct (SFadd_nan a h Hn) as [Na Nh].
  rewrite (SFadd_sum_value a h Va Vh Hn). unfold sum_value.
  pose proof (val_bounds a Va). pose proof (val_bounds h Vh).
  destruct (finb (val a)) eqn:Fa; [| lia].
  destruct (finb (val h)) eqn:Fh.
  - rewrite <- (rounded_fixes a Va Na Fa) at 1. apply rounded_mono. lia.
  - assert (~ (- INF < val h < INF))
      by (rewrite <- finb_spec; congruence). lia.
Qed.

(** Adding one double to two others keeps their order. *)
Lemma SFadd_monotone (a b h : spec_float) :
  valid a -> valid b -> valid h ->
  a <> S754_nan -> val a <= val b ->
  SFadd FloatOps.prec FloatOps.emax b h <> S754_nan -> val (SFadd FloatOps.prec FloatOps.emax b h) < INF ->
  SFadd FloatOps.prec FloatOps.emax a h <> S754_nan /\
  val (SFadd FloatOps.prec FloatOps.emax a h) <= val (SFadd FloatOps.prec FloatOps.emax b h).
Proof.
  intros Va Vb Vh Na Hab Hn Hlt.
  destruct (SFadd_nan b h Hn) as [Nb Nh].
  pose proof INF_pos as HI.
  pose proof (val_bounds a Va) as Ba.
  pose proof (val_bounds b Vb) as Bb.
  pose proof (val_bounds h Vh) as Bh.
  rewrite (SFadd_sum_value b h Vb Vh Hn) in Hlt |- *.
  assert (Hvh : val h <> INF).
  { intro E. unfold sum_value in Hlt.
    assert (Fh : finb (val h) = false)
      by (destruct (finb (val h)) eqn:F; [apply finb_spec in F; lia | reflexivity]).
    rewrite Fh in Hlt.
    destruct (finb (val b)) eqn:Fb; [lia |].
    assert (~ (- INF < val b < INF)) by (rewrite <- finb_spec; congruence).
    assert (Hb : val b = - INF) by lia.
    clear Hlt. revert Hn.
    destruct b as [sb | sb | | sb mb eb]; [| | congruence |];
      try (rewrite finb_finite in Fb by (assumption || exact I); discriminate).
    destruct h as [sh | sh | | sh mh eh]; [| | congruence |];
      try (rewrite finb_finite in Fh by (assumption || exact I); discriminate).
    destruct sb, sh; cbn [val sgn SFadd] in *; try lia; congruence. }
  assert (Hva : val a <> INF).
  { intro E. unfold sum_value in Hlt.
    destruct (finb (val b)) eqn:Fb; [apply finb_spec in Fb; lia | lia]. }
  assert (Hna : SFadd FloatOps.prec FloatOps.emax a h <> S754_nan)
    by (apply SFadd_defined; try assumption; lia).
  split; [exact Hna |].
  rewrite (SFadd_sum_value a h Va Vh Hna). unfold sum_value in *.
  destruct (finb (val a)) eqn:Fa, (finb (val b)) eqn:Fb;
    try (apply finb_spec in Fa); try (apply finb_spec in Fb).
  - destruct (finb (val h)); [apply rounded_mono; lia | lia].
  - assert (~ (- INF < val b < INF)) by (rewrite <- finb_spec; congruence). lia.
  - assert (~ (- INF < val a < INF)) by (rewrite <- finb_spec; congruence).
    destruct (finb (val h)) eqn:Fh.
    + pose proof (rounded_bounds (val b + val h)). lia.
    + assert (~ (- INF < val h < INF)) by (rewrite <- finb_spec; congruence). lia.
  - assert (~ (- INF < val a < INF)) by (rewrite <- finb_spec; congruence).
    assert (~ (- INF < val b < INF)) by (rewrite <- finb_spec; congruence). lia.
Qed.


(** ** Signs of products and quotients *)

Definition not_negative (x : spec_float) : Prop :=
  match x with
  | S754_nan | S754_zero _ => True
  | S754_infinity s | S754_finite s _ _ => s = false
  end.

Lemma ltb_zero_not_negative (x : spec_float) :
  SFltb x (S754_zero false) = false <-> not_negative x.
Proof.
  destruct x as [s | s | | s m e]; cbn; try tauto;
    destruct s; split; intro H; try reflexivity; try discriminate.
Qed.

Lemma binary_round_aux_sign (sx : bool) (m e : Z) (l : location) :
  sx = false -> not_negative (binary_round_aux FloatOps.prec FloatOps.emax sx m e l).
Proof.
  intros ->. unfold binary_round_aux.
  destruct (shr_fexp FloatOps.prec FloatOps.emax m e l) as [mrs' e'].
  destruct (shr_fexp FloatOps.prec FloatOps.emax _ e' loc_Exact) as [mrs'' e''].
  destruct (shr_m mrs''); [exact I | | exact I].
  destruct (e'' <=? FloatOps.emax - FloatOps.prec); reflexivity.
Qed.

Lemma SFmul_not_negative (x : spec_float) (m : positive) (e : Z) :
  not_negative x ->
  not_negative (SFmul FloatOps.prec FloatOps.emax x (S754_finite false m e)).
Proof.
  destruct x as [s | s | | s mx ex]; cbn [not_negative SFmul]; intro H;
    subst; try exact I; try reflexivity.
  apply binary_round_aux_sign. reflexivity.
Qed.

Lemma SFdiv_not_negative (x : spec_float) (m : positive) (e : Z) :
  not_negative x ->
  not_negative (SFdiv FloatOps.prec FloatOps.emax x (S754_finite false m e)).
Proof.
  destruct x as [s | s | | s mx ex]; cbn [not_negative SFdiv]; intro H;
    subst; try exact I; try reflexivity.
  destruct (SFdiv_core_binary FloatOps.prec FloatOps.emax (Zpos mx) ex (Zpos m) e) as [[mz ez] lz].
  apply binary_round_aux_sign. reflexivity.
Qed.

(** ** The primitive doubles *)

Section Primitive.

Import PrimFloat.

Variables zero2 c d : float.
Hypothesis zero_spec : FloatOps.Prim2SF zero2 = S754_zero false.
Variables (mc md : positive) (ec ed : Z).
Hypothesis c_spec : FloatOps.Prim2SF c = S754_finite false mc ec.
Hypothesis d_spec : FloatOps.Prim2SF d = S754_finite false md ed.

Lemma prim_valid (x : float) : valid (FloatOps.Prim2SF x).
Proof. exact (FloatAxioms.Prim2SF_valid x). Qed.

Lemma prim_ltb (x y : float) :
  ltb x y = true <->
  FloatOps.Prim2SF x <> S754_nan /\ FloatOps.Prim2SF y <> S754_nan /\
  val (FloatOps.Prim2SF x) < val (FloatOps.Prim2SF y).
Proof.
  rewrite FloatAxioms.ltb_spec. apply ltb_val; apply prim_valid.
Qed.

Lemma prim_not_negative (h : float) :
  ltb h zero2 = false -> FloatOps.Prim2SF h <> S754_nan ->
  0 <= val (FloatOps.Prim2SF h).
Proof.
  intros Hh Hn.
  destruct (Z_lt_le_dec (val (FloatOps.Prim2SF h)) 0) as [Hneg | Hpos]; [| exact Hpos].
  assert (ltb h zero2 = true).
  { apply prim_ltb. rewrite zero_spec. cbn [val].
    split; [exact Hn |]. split; [discriminate | exact Hneg]. }
  congruence.
Qed.

Lemma prim_add (x y : float) :
  FloatOps.Prim2SF (add x y)
  = SFadd FloatOps.prec FloatOps.emax (FloatOps.Prim2SF x) (FloatOps.Prim2SF y).
Proof. exact (FloatAxioms.add_spec x y). Qed.

(** The four properties of an ordered format, for the primitive floats. *)
Theorem double_add_not_below (a h c0 : float) :
  ltb h zero2 = false -> ltb (add a h) c0 = true -> ltb a c0 = true.
Proof.
  intros Hh Hsum. apply prim_ltb in Hsum. destruct Hsum as (Hn & Hc & Hlt).
  rewrite prim_add in Hn, Hlt.
  destruct (SFadd_nan _ _ Hn) as [Na Nh].
  pose proof (SFadd_not_below _ _ (prim_valid a) (prim_valid h) Hn
                (prim_not_negative h Hh Nh)) as Hle.
  apply prim_ltb. split; [exact Na |]. split; [exact Hc | lia].
Qed.

Theorem double_below_the_sum (a b h c0 : float) :
  ltb a b = true -> ltb h zero2 = false -> ltb (add b h) c0 = true ->
  ltb a (add b h) = true.
Proof.
  intros Hab Hh Hsum. apply prim_ltb in Hab. destruct Hab as (Na & Nb & Hab).
  apply prim_ltb in Hsum. destruct Hsum as (Hn & Hc & Hlt).
  apply prim_ltb. split; [exact Na |]. split; [exact Hn |].
  rewrite prim_add in Hn |- *.
  destruct (SFadd_nan _ _ Hn) as [_ Nh].
  pose proof (SFadd_not_below _ _ (prim_valid b) (prim_valid h) Hn
                (prim_not_negative h Hh Nh)) as Hle.
  lia.
Qed.

Theorem double_add_monotone (a b h c0 : float) :
  ltb a b = true -> ltb (add b h) c0 = true -> ltb (add a h) c0 = true.
Proof.
  intros Hab Hsum. apply prim_ltb in Hab. destruct Hab as (Na & Nb & Hab).
  apply prim_ltb in Hsum. destruct Hsum as (Hn & Hc & Hlt).
  pose proof (val_bounds _ (prim_valid c0)) as Bc.
  rewrite prim_add in Hn, Hlt.
  destruct (SFadd_monotone _ _ _ (prim_valid a) (prim_valid b) (prim_valid h)
              Na ltac:(lia) Hn ltac:(lia)) as [Hna Hle].
  apply prim_ltb. rewrite prim_add.
  split; [exact Hna |]. split; [exact Hc | lia].
Qed.

Theorem double_half_width_not_negative (w : float) :
  ltb w zero2 = false -> ltb (div (mul w c) d) zero2 = false.
Proof.
  intro Hw. rewrite FloatAxioms.ltb_spec in Hw |- *.
  rewrite zero_spec in Hw |- *.
  apply ltb_zero_not_negative in Hw. apply ltb_zero_not_negative.
  rewrite FloatAxioms.div_spec, FloatAxioms.mul_spec, c_spec, d_spec.
  apply SFdiv_not_negative. apply SFmul_not_negative. exact Hw.
Qed.

End Primitive.

End DoubleOrder.

(** binary64 is an ordered format. *)
Lemma Double_ordered : Ordered_format Double.arith.
Proof.
  assert (Hzero : FloatOps.Prim2SF (Double.of_Q 0) = SpecFloat.S754_zero false)
    by (vm_compute; reflexivity).
  constructor; cbn [js_lt js_add js_num js_div js_mul Double.arith].
  - intros a h c. exact (DoubleOrder.double_add_not_below _ Hzero a h c).
  - intros a b h c. exact (DoubleOrder.double_below_the_sum _ Hzero a b h c).
  - intros a b h c. exact (DoubleOrder.double_add_monotone a b h c).
  - intro w.
    eapply (DoubleOrder.double_half_width_not_negative
              (Double.of_Q 0) (Double.of_Q (11 # 10)) (Double.of_Q 2) Hzero);
      vm_compute; reflexivity.
Qed.

(** C4, as the code has it.  In binary64, the number format of the engine,
    [filterAxisLabels] keeps exactly the ticks of one sweep over all the
    ticks of the panel in document order, started with right edge [0], and
    gives each its formatted label.  With [halfWidth = (bbox * 1.1) / 2],
    a tick is kept if and only if [rightEdge + halfWidth < x] and
    [x + halfWidth < axisWidth], the product, the quotient and the sums
    being doubles, each rounded as it is computed, and the right edge
    advances to [x + halfWidth] on a keep.  The kept ticks are among the
    ticks of the panel in their order and the padded right edge of each is
    below the axis width; when no bounding box has a negative width, any
    two kept ticks stand apart: kept positions increase strictly, and the
    padded right edge of the earlier tick plus the half width of the later
    one is below the position of the later one. *)
Theorem filterAxisLabels_double_sweep {D : Type} (format : D -> string)
  (xScale : D -> PrimFloat.float) (bbox : Tick D -> PrimFloat.float)
  (maxW : PrimFloat.float) (p : Panel D) :
  let pos := fun t : Tick D => xScale (datum t) in
  let half := fun t : Tick D =>
                PrimFloat.div (PrimFloat.mul (bbox t) (Double.of_Q (11 # 10)))
                              (Double.of_Q 2) in
  exists kept : list (Tick D),
    allTicks (Numeric.filterAxisLabels (A := Double.arith) format xScale bbox maxW p)
    = map (fun t => set_text (format (datum t)) t) kept /\
    SweepIn (A := Double.arith) pos half maxW (Double.of_Q 0) (allTicks p) kept /\
    Subseq kept (allTicks p) /\
    Forall (fun t => PrimFloat.ltb (PrimFloat.add (pos t) (half t)) maxW = true)
           kept /\
    ((forall t, PrimFloat.ltb (bbox t) (Double.of_Q 0) = false) ->
     StronglySorted
       (fun a b =>
          PrimFloat.ltb (pos a) (pos b) = true /\
          PrimFloat.ltb (PrimFloat.add (PrimFloat.add (pos a) (half a)) (half b))
                        (pos b) = true)
       kept).
Proof.
  intros pos half.
  destruct (@numeric_filterAxisLabels_sweep PrimFloat.float Double.arith D
              format xScale bbox maxW p)
    as (kept & Heq & Hsw & Hsub & Hk & Hsorted).
  exists kept. split; [exact Heq |]. split; [exact Hsw |].
  split; [exact Hsub |]. split; [exact Hk |].
  intro Hbox. exact (Hsorted Double_ordered Hbox).
Qed.

(** ** The two passes in binary64 *)

(** Fourteen characters in a box of 72 pixels, cut for 36 pixels. *)
Example truncate_double :
  Numeric.truncateLabel (A := Double.arith) "abcdefghijklmn"
    (Double.of_Q 72) (Double.of_Q 36) = "ab..."%string.
Proof. vm_compute. reflexivity. Qed.

(** C6 as stated fails: for these fourteen characters
    [floor(budget / pxPerChar) - 4] is [3], no separator stands before
    position [3], and the text it describes is the first three characters
    and the dots; in binary64 [72 / 14] is rounded up, [36] divided by it
    falls just below [7], and the code returns two characters and the
    dots. *)
Lemma truncateLabel_rounding_cuts_earlier :
  let str := "abcdefghijklmn"%string in
  (Qfloor (36 / (72 / inject_Z (Z.of_nat (String.length str)))) - 4 = 3)%Z /\
  WalkBack str 3 3 /\
  (substr0 str 3 ++ "...")%string = "abc..."%string /\
  @js_lt _ Double.arith (Double.of_Q 36) (Double.of_Q 72) = true /\
  Numeric.truncateLabel (A := Double.arith) str (Double.of_Q 72) (Double.of_Q 36)
  = "ab..."%string.
Proof.
  split; [vm_compute; reflexivity |].
  split; [apply walk_stop; vm_compute; reflexivity |].
  split; [reflexivity |].
  split; vm_compute; reflexivity.
Qed.

(** C6 as amended, in binary64, on the same label. *)
Lemma truncateLabel_format_rule_witness :
  let str := "abcdefghijklmn"%string in
  let width := Double.of_Q 72 in
  let size := Double.of_Q 36 in
  let pxPerChar :=
    PrimFloat.div width (Double.of_Q (inject_Z (Z.of_nat (String.length str)))) in
  (PrimFloat.ltb size width = false ->
   Numeric.truncateLabel (A := Double.arith) str width size = str /\
   Numeric.truncateLabel (A := Double.arith)
     (Numeric.truncateLabel (A := Double.arith) str width size) width size
   = Numeric.truncateLabel (A := Double.arith) str width size) /\
  (PrimFloat.ltb size width = true ->
   match Double.floor (PrimFloat.sub (PrimFloat.div size pxPerChar) (Double.of_Q 4)) with
   | Int first =>
       exists (endChar : Z) (pre rest : string),
         WalkBack str first endChar /\
         str = (pre ++ rest)%string /\
         Z.of_nat (String.length pre)
         = Z.min (Z.max endChar 0) (Z.of_nat (String.length str)) /\
         Numeric.truncateLabel (A := Double.arith) str width size
         = (pre ++ "...")%string
   | IntPosInf =>
       Numeric.truncateLabel (A := Double.arith) str width size
       = (str ++ "...")%string
   | IntNaN | IntNegInf =>
       Numeric.truncateLabel (A := Double.arith) str width size = "..."%string
   end).
Proof.
  exact (@truncateLabel_format_rule PrimFloat.float Double.arith
           "abcdefghijklmn"%string (Double.of_Q 72) (Double.of_Q 36)).
Defined.

(** On the path [rotateAxisLabels] takes when a label is wider than 180
    pixels: 27 characters in a box of 194.4 pixels keep 21 characters in
    binary64, and 20 when the quotients are not rounded. *)
Example truncate_double_180 :
  Numeric.truncateLabel (A := Double.arith) "abcdefghijklmnopqrstuvwxyz0"
    (Double.of_Q (1944 # 10)) (Double.of_Q 180)
  = "abcdefghijklmnopqrstu..."%string /\
  Numeric.truncateLabel (A := Exact.arith) "abcdefghijklmnopqrstuvwxyz0"
    (Double.to_Q (Double.of_Q (1944 # 10))) 180
  = "abcdefghijklmnopqrst..."%string.
Proof. split; vm_compute; reflexivity. Qed.

(** Eleven ticks of a date axis, 15.4 pixels apart from 0 on, each in a box
    of 28 pixels, on an axis 154 pixels wide. *)
Module Grid.

Definition ticks : list (Tick Z) :=
  map (newTick Ref.stamp)
      [0; 100; 200; 300; 400; 500; 600; 700; 800; 900; 1000]%Z.

Definition panel : Panel Z :=
  {| div_width := 154; div_height := 25;
     svgs := [{| svg_width := 154; svg_height := Num 25; svg_ticks := ticks |}] |}.

(** [self.xScale(d)]: the doubles 0, 15.4, 30.8, ... *)
Definition xScale (d : Z) : PrimFloat.float := Double.of_Q ((154 * d) # 1000).

Definition bbox (t : Tick Z) : PrimFloat.float := Double.of_Q 28.

Definition maxW : PrimFloat.float := Double.of_Q 154.

End Grid.

Example filter_double :
  map (@datum Z)
      (allTicks (Numeric.filterAxisLabels (A := Double.arith)
                   Ref.stamp Grid.xScale Grid.bbox Grid.maxW Grid.panel))
  = [200; 500; 800]%Z.
Proof. vm_compute. reflexivity. Qed.

Ltac sweep_step :=
  first
    [ apply sweep_done
    | eapply sweep_keep;
      [ vm_compute; reflexivity
      | vm_compute; reflexivity
      | vm_compute; reflexivity
      | ]
    | apply sweep_drop;
      [ let x := fresh "x" in
        let Hx := fresh "Hx" in
        let H1 := fresh "H1" in
        let H2 := fresh "H2" in
        intros x Hx [H1 H2]; vm_compute in Hx; injection Hx as <-;
        first [ vm_compute in H1; discriminate H1
              | vm_compute in H2; discriminate H2 ]
      | ] ].

(** C4 as stated fails: on these ticks, at the positions the scale gives
    and with half widths of [28 * 1.1 / 2], its rule keeps the ticks 100,
    300, 600 and 900; the code, which rounds [28 * 1.1] and every sum to
    binary64, keeps 200, 500 and 800. *)
Lemma filterAxisLabels_rounding_keeps_other_ticks :
  let pos := fun t : Tick Z => Num (Double.to_Q (Grid.xScale (datum t))) in
  let half := fun _ : Tick Z => 28 * (11 # 10) / 2 in
  Sweep pos half (Double.to_Q Grid.maxW) 0 (allTicks Grid.panel)
        (map (newTick Ref.stamp) [100; 300; 600; 900]%Z) /\
  map (@datum Z)
      (allTicks (Numeric.filterAxisLabels (A := Double.arith)
                   Ref.stamp Grid.xScale Grid.bbox Grid.maxW Grid.panel))
  = [200; 500; 800]%Z.
Proof.
  split; [| vm_compute; reflexivity].
  unfold allTicks, Grid.panel, Grid.ticks. simpl flat_map. simpl map.
  repeat sweep_step.
Qed.

(** Witness for C4 as amended: the eleven ticks above, in binary64. *)
Lemma filterAxisLabels_double_sweep_witness :
  let pos := fun t : Tick Z => Grid.xScale (datum t) in
  let half := fun t : Tick Z =>
                PrimFloat.div (PrimFloat.mul (Grid.bbox t) (Double.of_Q (11 # 10)))
                              (Double.of_Q 2) in
  exists kept : list (Tick Z),
    allTicks (Numeric.filterAxisLabels (A := Double.arith)
                Ref.stamp Grid.xScale Grid.bbox Grid.maxW Grid.panel)
    = map (fun t => set_text (Ref.stamp (datum t)) t) kept /\
    StronglySorted
      (fun a b =>
         PrimFloat.ltb (pos a) (pos b) = true /\
         PrimFloat.ltb (PrimFloat.add (PrimFloat.add (pos a) (half a)) (half b))
                       (pos b) = true)
      kept.
Proof.
  intros pos half.
  destruct (@filterAxisLabels_double_sweep Z Ref.stamp Grid.xScale Grid.bbox
              Grid.maxW Grid.panel)
    as (kept & Heq & _ & _ & _ & Hsorted).
  exists kept. split; [exact Heq |].
  apply Hsorted. intro t. vm_compute. reflexivity.
Defined.
